(** * skill-sync: the synchronisation engine of the skill bundles

    A shallow embedding of the four scripts of [skill-sync/scripts]
    ([patch_applier.py], [diff_generator.py], [upstream_check.py] and
    [registry.py]) and the properties their specification states.

    - Files are byte strings, the file system is a finite map from absolute
      paths to nodes, Python exceptions are values of [exn] and a call
      either returns or raises ([result]).
    - What the scripts take from the operating system or from other
      programs is modelled under the name it has in Python ([makedirs],
      [copy2], [copytree], [rmtree], [mkdtemp], ...).  The two things that
      depend on the installation, the text codec of [open(..., "r")] and
      the block matcher of [difflib], are interfaces ([TextCodec],
      [SequenceMatcher]). *)

From Stdlib Require Import String Ascii.
From Stdlib.Strings Require Import Byte.
From stdpp Require Import gmap strings list fin_maps sorting pretty.

Open Scope string_scope.
Open Scope list_scope.
Open Scope stdpp_scope.

(** ** Exceptions and results *)

Inductive exn : Type :=
| FileNotFoundError
| FileExistsError
| NotADirectoryError
| IsADirectoryError
| SameFileError
| RecursionError
| CalledProcessError (stderr : string)
| ValueError (msg : string)
| KeyError (msg : string)
| TypeError (msg : string).

#[global] Instance exn_eq_decision : EqDecision exn.
Proof. solve_decision. Defined.

Inductive result (A : Type) : Type :=
| Ok (a : A)
| Raise (e : exn).
Arguments Ok {A} a.
Arguments Raise {A} e.

#[global] Instance result_eq_decision `{EqDecision A} : EqDecision (result A).
Proof. solve_decision. Defined.

#[global] Instance result_ret : MRet result := fun A a => Ok a.
#[global] Instance result_bind : MBind result := fun A B k m =>
  match m with
  | Ok a => k a
  | Raise e => Raise e
  end.

#[global] Instance result_fmap : FMap result := fun A B f m =>
  match m with
  | Ok a => Ok (f a)
  | Raise e => Raise e
  end.

Definition returns {A} (r : result A) : bool :=
  match r with Ok _ => true | Raise _ => false end.

(** ** The file system *)

#[global] Instance byte_eq_decision : EqDecision byte := byte_eq_dec.

Module FS.

(** An absolute path, as the list of its components below the root. *)
Abbreviation path := (list string).

Inductive node : Type :=
| File (data : list byte)
| Dir.

#[global] Instance node_eq_decision : EqDecision node.
Proof. solve_decision. Defined.

Abbreviation fs := (gmap path node).

(** Every entry lives in a directory. *)
Definition wf (s : fs) : Prop :=
  forall (p : path) (x : string), is_Some (s !! (p ++ [x])) -> s !! p = Some Dir.

(** [os.path.exists], [os.path.isdir], [os.path.isfile] *)
Definition exists_ (s : fs) (p : path) : bool :=
  match s !! p with Some _ => true | None => false end.
Definition isdir (s : fs) (p : path) : bool :=
  match s !! p with Some Dir => true | _ => false end.
Definition isfile (s : fs) (p : path) : bool :=
  match s !! p with Some (File _) => true | _ => false end.

(** [os.path.dirname], [os.path.basename] *)
Definition dirname (p : path) : path := take (length p - 1) p.
Definition basename (p : path) : string := default "" (last p).

(** [os.path.relpath p root] for [p] at or below [root]. *)
Definition strip_prefix (root p : path) : option path :=
  if decide (root `prefix_of` p) then Some (drop (length root) p) else None.

(** The entries of [s] under new names: [f] names the entries to keep. *)
Definition rekey (f : path -> option path) (s : fs) : fs :=
  list_to_map (omap (fun kv => (fun k => (k, kv.2)) <$> f kv.1) (map_to_list s)).

(** The tree at [root], by relative path; the tree [t] put at [dst]. *)
Definition subtree (root : path) (s : fs) : fs := rekey (strip_prefix root) s.
Definition graft (dst : path) (t : fs) : fs := kmap (app dst) t.

(** The proper ancestors of [p], the root first. *)
Definition ancestors (p : path) : list path :=
  (fun n => take n p) <$> seq 0 (length p).

(** [os.makedirs(p, exist_ok=...)]: creates [p] and its missing
    ancestors; an ancestor that is a file, or [p] being there already
    (unless it is a directory and [exist_ok]), is an error. *)
Definition makedirs (exist_ok : bool) (p : path) (s : fs) : result fs :=
  if existsb (isfile s) (ancestors p) then Raise NotADirectoryError
  else match s !! p with
       | Some (File _) => Raise FileExistsError
       | Some Dir => if exist_ok then Ok s else Raise FileExistsError
       | None => Ok (s ∪ list_to_map ((fun q => (q, Dir)) <$> (ancestors p ++ [p])))
       end.

(** [shutil.copy2(src, dst)]: a destination that is a directory receives
    the file under the source's base name. *)
Definition copy2 (src dst : path) (s : fs) : result fs :=
  let target := if isdir s dst then dst ++ [basename src] else dst in
  if exists_ s src && bool_decide (src = target) then Raise SameFileError
  else match s !! src with
       | None => Raise FileNotFoundError
       | Some Dir => Raise IsADirectoryError
       | Some (File data) =>
           match s !! target with
           | Some Dir => Raise IsADirectoryError
           | _ => if isdir s (dirname target)
                  then Ok (<[target := File data]> s)
                  else Raise FileNotFoundError
           end
       end.

(** [shutil.copytree(src, dst)]: the destination must not exist; it is
    created with its ancestors and receives the whole tree of [src], as
    listed when the call starts.  A destination inside a directory that
    [src] already contains makes the copy descend into its own output
    until Python gives up. *)
Definition copytree (src dst : path) (s : fs) : result fs :=
  match s !! src with
  | None => Raise FileNotFoundError
  | Some (File _) => Raise NotADirectoryError
  | Some Dir =>
      s1 ← makedirs false dst s;
      match strip_prefix src dst with
      | Some (c :: _) =>
          if exists_ s (src ++ [c]) then Raise RecursionError
          else Ok (graft dst (subtree src s) ∪ s1)
      | _ => Ok (graft dst (subtree src s) ∪ s1)
      end
  end.

(** [shutil.rmtree(p)] *)
Definition rmtree (p : path) (s : fs) : result fs :=
  match s !! p with
  | None => Raise FileNotFoundError
  | Some (File _) => Raise NotADirectoryError
  | Some Dir => Ok (filter (fun kv => ¬ p `prefix_of` kv.1) s)
  end.

(** The files that [os.walk(root)] visits, as paths relative to [root]
    ([os.walk] yields nothing for a root that is not a directory).  The
    order of a directory listing is the system's. *)
Definition walk_files (root : path) (s : fs) : list path :=
  if isdir s root
  then omap (fun kv => match kv.2 with File _ => Some kv.1 | Dir => None end)
            (map_to_list (subtree root s))
  else [].

(** [open(p, "rb").read()] *)
Definition read_bytes (s : fs) (p : path) : result (list byte) :=
  match s !! p with
  | Some (File data) => Ok data
  | Some Dir => Raise IsADirectoryError
  | None => Raise FileNotFoundError
  end.

(** [os.path.getsize(p)]; the scripts ask for the size of files only
    (what a directory weighs is the file system's business, 0 here). *)
Definition getsize (s : fs) (p : path) : result nat :=
  match s !! p with
  | Some (File data) => Ok (length data)
  | Some Dir => Ok 0
  | None => Raise FileNotFoundError
  end.

End FS.

(** ** patch_applier.py *)

Module PatchApplier.
Import FS.

(** [backup_local(local_dir, backup_base)]; [timestamp] is what
    [datetime.now().strftime("%Y%m%d-%H%M%S")] gives at the call. *)
Definition backup_local (timestamp : string) (local_dir backup_base : path) (s : fs)
  : result (path * fs) :=
  let skill_name := basename local_dir in
  let backup_path := backup_base ++ [skill_name +:+ "-" +:+ timestamp] in
  s' ← copytree local_dir backup_path s;
  mret (backup_path, s').

(** One turn of the loop of [copy_upstream_files], for the file at [rel]. *)
Definition copy_one (upstream_dir local_dir rel : path) (s : fs) : result fs :=
  let src := upstream_dir ++ rel in
  let dst := local_dir ++ rel in
  s1 ← makedirs true (dirname dst) s;
  copy2 src dst s1.

Fixpoint copy_loop (upstream_dir local_dir : path) (rels : list path)
    (copied : list path) (s : fs) : result (list path * fs) :=
  match rels with
  | [] => Ok (copied, s)
  | rel :: rels' =>
      s' ← copy_one upstream_dir local_dir rel s;
      copy_loop upstream_dir local_dir rels' (copied ++ [rel]) s'
  end.

(** [copy_upstream_files(upstream_dir, local_dir)].  The walk lists the
    upstream files when the call starts, which is what [os.walk] visits
    as long as the copies do not land inside [upstream_dir]. *)
Definition copy_upstream_files (upstream_dir local_dir : path) (s : fs)
  : result (list path * fs) :=
  copy_loop upstream_dir local_dir (walk_files upstream_dir s) [] s.

(** [restore_backup(backup_path, local_dir)] *)
Definition restore_backup (backup_path local_dir : path) (s : fs) : result fs :=
  s1 ← (if exists_ s local_dir then rmtree local_dir s else Ok s);
  copytree backup_path local_dir s1.

End PatchApplier.

(** ** diff_generator.py *)

(** *** The text side of Python's files *)

(** [open(path, "r", errors="replace")] decodes the bytes of a file with
    the encoding of the locale, and an undecodable byte becomes a
    replacement character: the codec belongs to the installation. *)
Class TextCodec : Type := decode_replace : list byte -> string.

Module Text.

Definition LF : ascii := "010"%char.
Definition CR : ascii := "013"%char.

(** Universal newlines: a text-mode read turns CR LF and a lone CR
    into LF. *)
Fixpoint translate_newlines (s : string) : string :=
  match s with
  | EmptyString => EmptyString
  | String c r =>
      if Ascii.eqb c CR
      then match r with
           | String c' r' =>
               if Ascii.eqb c' LF then String LF (translate_newlines r')
               else String LF (translate_newlines r)
           | EmptyString => String LF EmptyString
           end
      else String c (translate_newlines r)
  end.

(** [f.readlines()]: the lines of a text, each with its line feed. *)
Fixpoint readlines (s : string) : list string :=
  match s with
  | EmptyString => []
  | String c r =>
      if Ascii.eqb c LF then String LF EmptyString :: readlines r
      else match readlines r with
           | [] => [String c EmptyString]
           | l :: ls => String c l :: ls
           end
  end.

(** [sep.join(lines)] *)
Definition join (sep : string) (lines : list string) : string :=
  String.concat sep lines.

(** Well-formed UTF-8, as [bytes.decode("utf-8")] accepts it: shortest
    forms only, no surrogates, nothing above U+10FFFF. *)
Definition between (lo hi : N) (b : byte) : bool :=
  (lo <=? Byte.to_N b)%N && (Byte.to_N b <=? hi)%N.
Definition cont (b : byte) : bool := between 128 191 b.

Fixpoint utf8_valid (bs : list byte) : bool :=
  match bs with
  | [] => true
  | b0 :: r0 =>
      if between 0 127 b0 then utf8_valid r0
      else match r0 with
      | [] => false
      | b1 :: r1 =>
          if between 194 223 b0 then cont b1 && utf8_valid r1
          else match r1 with
          | [] => false
          | b2 :: r2 =>
              if between 224 224 b0
              then between 160 191 b1 && cont b2 && utf8_valid r2
              else if between 225 236 b0 || between 238 239 b0
              then cont b1 && cont b2 && utf8_valid r2
              else if between 237 237 b0
              then between 128 159 b1 && cont b2 && utf8_valid r2
              else match r2 with
              | [] => false
              | b3 :: r3 =>
                  if between 240 240 b0
                  then between 144 191 b1 && cont b2 && cont b3 && utf8_valid r3
                  else if between 241 243 b0
                  then cont b1 && cont b2 && cont b3 && utf8_valid r3
                  else if between 244 244 b0
                  then between 128 143 b1 && cont b2 && cont b3 && utf8_valid r3
                  else false
              end
          end
      end
  end.

End Text.

(** *** difflib *)

Module Difflib.

Inductive tag : Type := Equal | Replace | Delete | Insert.

#[global] Instance tag_eq_decision : EqDecision tag.
Proof. solve_decision. Defined.

(** An opcode [(tag, i1, i2, j1, j2)]: [a[i1:i2]] becomes [b[j1:j2]]. *)
Record opcode : Type := Op { op_tag : tag; i1 : nat; i2 : nat; j1 : nat; j2 : nat }.

Definition is_equal (o : opcode) : bool := bool_decide (op_tag o = Equal).

(** [l[i:j]] *)
Definition slice {A} (l : list A) (i j : nat) : list A := take (j - i) (drop i l).

(** The opcodes go through both sequences without a gap. *)
Fixpoint chained (i j : nat) (ops : list opcode) (n m : nat) : Prop :=
  match ops with
  | [] => i = n /\ j = m
  | o :: ops' =>
      i1 o = i /\ j1 o = j /\ i <= i2 o /\ j <= j2 o /\ chained (i2 o) (j2 o) ops' n m
  end.

(** What each tag says about its two ranges. *)
Definition op_ok (a b : list string) (o : opcode) : Prop :=
  match op_tag o with
  | Equal => i1 o < i2 o /\ j1 o < j2 o /\ slice a (i1 o) (i2 o) = slice b (j1 o) (j2 o)
  | Replace => i1 o < i2 o /\ j1 o < j2 o
  | Delete => i1 o < i2 o /\ j1 o = j2 o
  | Insert => i1 o = i2 o /\ j1 o < j2 o
  end.

(** No two matching blocks in a row: [get_matching_blocks] merges
    adjacent blocks before the opcodes are made. *)
Fixpoint no_adjacent_equal (ops : list opcode) : Prop :=
  match ops with
  | o :: ((o' :: _) as ops') =>
      ~ (op_tag o = Equal /\ op_tag o' = Equal) /\ no_adjacent_equal ops'
  | _ => True
  end.

End Difflib.

(** [difflib.SequenceMatcher(None, a, b).get_opcodes()].  The matcher is
    the library's; the scripts rely on what its documentation promises
    of the opcodes: they describe how to turn [a] into [b], block by
    block, matching blocks are maximal runs, and a sequence matches
    itself. *)
Class SequenceMatcher : Type := {
  get_opcodes : list string -> list string -> list Difflib.opcode;
  opcodes_chained : forall a b,
    Difflib.chained 0 0 (get_opcodes a b) (length a) (length b);
  opcodes_ok : forall a b, Forall (Difflib.op_ok a b) (get_opcodes a b);
  opcodes_merged : forall a b, Difflib.no_adjacent_equal (get_opcodes a b);
  opcodes_refl : forall a,
    Forall (fun o => Difflib.op_tag o = Difflib.Equal) (get_opcodes a a)
}.

Module UnifiedDiff.
Import Difflib.

(** The leading and the trailing matching block keep [n] lines of
    context. *)
Definition trim_first (n : nat) (codes : list opcode) : list opcode :=
  match codes with
  | o :: rest =>
      if is_equal o
      then Op Equal (i1 o `max` (i2 o - n)) (i2 o) (j1 o `max` (j2 o - n)) (j2 o) :: rest
      else codes
  | [] => []
  end.

Fixpoint trim_last (n : nat) (codes : list opcode) : list opcode :=
  match codes with
  | [] => []
  | [o] =>
      if is_equal o
      then [Op Equal (i1 o) (i2 o `min` (i1 o + n)) (j1 o) (j2 o `min` (j1 o + n))]
      else [o]
  | o :: rest => o :: trim_last n rest
  end.

(** The loop of [get_grouped_opcodes]: a long matching block ends the
    group and starts the next one. *)
Fixpoint group_loop (n : nat) (codes : list opcode) (group : list opcode)
  : list (list opcode) :=
  match codes with
  | [] =>
      match group with
      | [] => []
      | [o] => if is_equal o then [] else [group]
      | _ => [group]
      end
  | o :: rest =>
      if is_equal o && bool_decide (n + n < i2 o - i1 o)
      then (group ++ [Op Equal (i1 o) (i2 o `min` (i1 o + n)) (j1 o) (j2 o `min` (j1 o + n))])
           :: group_loop n rest
                [Op Equal (i1 o `max` (i2 o - n)) (i2 o) (j1 o `max` (j2 o - n)) (j2 o)]
      else group_loop n rest (group ++ [o])
  end.

(** [SequenceMatcher.get_grouped_opcodes(n)] *)
Definition get_grouped_opcodes (n : nat) (codes : list opcode) : list (list opcode) :=
  let codes := match codes with [] => [Op Equal 0 1 0 1] | _ => codes end in
  group_loop n (trim_last n (trim_first n codes)) [].

(** [_format_range_unified(start, stop)] *)
Definition format_range_unified (start stop : nat) : string :=
  let beginning := start + 1 in
  let length := stop - start in
  if bool_decide (length = 1) then pretty beginning
  else
    let beginning := if bool_decide (length = 0) then beginning - 1 else beginning in
    pretty beginning +:+ "," +:+ pretty length.

(** The lines of one opcode. *)
Definition op_lines (a b : list string) (o : opcode) : list string :=
  match op_tag o with
  | Equal => (String.append " ") <$> slice a (i1 o) (i2 o)
  | Replace =>
      ((String.append "-") <$> slice a (i1 o) (i2 o))
      ++ ((String.append "+") <$> slice b (j1 o) (j2 o))
  | Delete => (String.append "-") <$> slice a (i1 o) (i2 o)
  | Insert => (String.append "+") <$> slice b (j1 o) (j2 o)
  end.

(** The hunk of one group: its range line and the lines of its opcodes. *)
Definition hunk (a b : list string) (group : list opcode) : list string :=
  match group, last group with
  | first :: _, Some last_ =>
      ("@@ -" +:+ format_range_unified (i1 first) (i2 last_)
       +:+ " +" +:+ format_range_unified (j1 first) (j2 last_) +:+ " @@")
      :: concat (op_lines a b <$> group)
  | _, _ => []
  end.

(** [difflib.unified_diff(a, b, fromfile, tofile, lineterm="")] with
    three lines of context: the two header lines come before the first
    hunk, and there is no output without a hunk. *)
Definition unified_diff `{SequenceMatcher} (a b : list string) (fromfile tofile : string)
  : list string :=
  match get_grouped_opcodes 3 (get_opcodes a b) with
  | [] => []
  | groups =>
      ("--- " +:+ fromfile) :: ("+++ " +:+ tofile) :: concat (hunk a b <$> groups)
  end.

End UnifiedDiff.

Module DiffGenerator.
Import FS.

Definition check_bytes : nat := N.to_nat 8192.

(** [is_binary_file(filepath, check_bytes=8192)] *)
Definition is_binary_file (s : fs) (filepath : path) : bool :=
  match read_bytes s filepath with
  | Ok data =>
      let chunk := take check_bytes data in
      if bool_decide (x00 ∈ chunk) then true
      else if Text.utf8_valid chunk then false
      else true
  | Raise _ => true
  end.

(** [open(p, "r", errors="replace").read()] *)
Definition read_text `{TextCodec} (s : fs) (p : path) : result string :=
  data ← read_bytes s p;
  mret (Text.translate_newlines (decode_replace data)).

(** The lines of the file at [p], none if there is nothing at [p]. *)
Definition lines_of `{TextCodec} (s : fs) (p : path) : result (list string) :=
  if exists_ s p then Text.readlines <$> read_text s p else Ok [].

(** [generate_diff(local_file, upstream_file)] *)
Definition generate_diff `{TextCodec, SequenceMatcher} (s : fs)
    (local_file upstream_file : path) : result string :=
  local_lines ← lines_of s local_file;
  upstream_lines ← lines_of s upstream_file;
  mret (Text.join (String Text.LF EmptyString)
          (UnifiedDiff.unified_diff local_lines upstream_lines
             ("local/" +:+ basename local_file)
             ("upstream/" +:+ basename upstream_file))).

Inductive status : Type := Modified | New | Deleted | BinaryChanged | BinaryNew.

(** One record of the result: the keys "file", "status" and "diff". *)
Record entry : Type := Entry { file : string; entry_status : status; diff : string }.

(** A relative path as [os.path.relpath] writes it. *)
Definition relstr (rel : path) : string := String.concat "/" rel.

(** [sorted(files)]: by the strings of the relative paths. *)
Definition path_le (p q : path) : Prop := Is_true (String.leb (relstr p) (relstr q)).
#[global] Instance path_le_dec : RelDecision path_le.
Proof. intros p q. unfold path_le. apply _. Defined.

Definition sorted (files : gset path) : list path :=
  merge_sort path_le (elements files).

(** A [for] loop that appends to [results]. *)
Fixpoint for_each {A B} (body : A -> result (list B)) (l : list A) (results : list B)
  : result (list B) :=
  match l with
  | [] => Ok results
  | x :: l' => r ← body x; for_each body l' (results ++ r)
  end.

(** The body of the first loop: a file of both directories. *)
Definition diff_common `{TextCodec, SequenceMatcher} (s : fs)
    (local_dir upstream_dir f : path) : result (list entry) :=
  let local_path := local_dir ++ f in
  let upstream_path := upstream_dir ++ f in
  if is_binary_file s local_path || is_binary_file s upstream_path
  then
    local_size ← getsize s local_path;
    upstream_size ← getsize s upstream_path;
    if bool_decide (local_size ≠ upstream_size)
    then mret [Entry (relstr f) BinaryChanged
                 ("Binary file changed: " +:+ pretty local_size +:+ " bytes → "
                  +:+ pretty upstream_size +:+ " bytes")]
    else
      lf ← read_bytes s local_path;
      uf ← read_bytes s upstream_path;
      if bool_decide (lf ≠ uf)
      then mret [Entry (relstr f) BinaryChanged
                   ("Binary file changed (same size: " +:+ pretty local_size +:+ " bytes)")]
      else mret []
  else
    d ← generate_diff s local_path upstream_path;
    if bool_decide (d ≠ "") then mret [Entry (relstr f) Modified d] else mret [].

(** The body of the second loop: a file of the upstream directory only. *)
Definition diff_new `{TextCodec} (s : fs) (upstream_dir f : path) : result (list entry) :=
  let upstream_path := upstream_dir ++ f in
  if is_binary_file s upstream_path
  then
    size ← getsize s upstream_path;
    mret [Entry (relstr f) BinaryNew ("New binary file: " +:+ pretty size +:+ " bytes")]
  else
    content ← read_text s upstream_path;
    mret [Entry (relstr f) New
            ("+++ new file: " +:+ relstr f +:+ String Text.LF EmptyString +:+ content)].

(** The body of the third loop: a file of the local directory only. *)
Definition diff_deleted (f : path) : result (list entry) :=
  mret [Entry (relstr f) Deleted ("--- deleted: " +:+ relstr f)].

(** [diff_directories(local_dir, upstream_dir)] *)
Definition diff_directories `{TextCodec, SequenceMatcher} (s : fs)
    (local_dir upstream_dir : path) : result (list entry) :=
  let local_files : gset path := list_to_set (walk_files local_dir s) in
  let upstream_files : gset path := list_to_set (walk_files upstream_dir s) in
  results ← for_each (diff_common s local_dir upstream_dir)
              (sorted (local_files ∩ upstream_files)) [];
  results ← for_each (diff_new s upstream_dir)
              (sorted (upstream_files ∖ local_files)) results;
  for_each diff_deleted (sorted (local_files ∖ upstream_files)) results.

End DiffGenerator.

(** ** upstream_check.py *)

(** Paths as the scripts write them. *)
Module PathString.

Fixpoint split_slash (s : string) : list string :=
  match s with
  | EmptyString => [EmptyString]
  | String c r =>
      if Ascii.eqb c "/" then EmptyString :: split_slash r
      else match split_slash r with
           | x :: xs => String c x :: xs
           | [] => [String c EmptyString]
           end
  end.

(** The components that a name resolves to, from the root: empty
    components and [.] are skipped, [..] goes up. *)
Definition resolve_step (acc : FS.path) (c : string) : FS.path :=
  if bool_decide (c = "" \/ c = ".") then acc
  else if bool_decide (c = "..") then take (length acc - 1) acc
  else acc ++ [c].
Definition parse_path (s : string) : FS.path :=
  foldl resolve_step [] (split_slash s).

(** [os.path.join(a, b)] *)
Definition join (a b : string) : string :=
  if String.prefix "/" b then b
  else if bool_decide (a = "") || String.prefix "/" (String.rev a) then a +:+ b
  else a +:+ "/" +:+ b.

(** [str.strip()], for the white space of ASCII. *)
Definition is_space (c : ascii) : bool :=
  let n := nat_of_ascii c in
  bool_decide (9 <= n <= 13 \/ 28 <= n <= 32).
Fixpoint lstrip (s : string) : string :=
  match s with
  | String c r => if is_space c then lstrip r else s
  | EmptyString => EmptyString
  end.
Definition strip (s : string) : string :=
  String.rev (lstrip (String.rev (lstrip s))).

End PathString.

(** The machine and the git client. *)
Module Machine.
Import FS PathString.

(** A commit, as [git log --oneline] shows it. *)
Record commit : Type := Commit { sha : string; subject : string }.

(** What a remote address serves: its history on the default branch,
    the newest commit first, and the files of its head. *)
Record remote_repo : Type := Remote { history : list commit; worktree : fs }.

(** The outcome of [git clone] for an address: the repository, or the
    error output of git. *)
Inductive clone_outcome : Type :=
| Served (r : remote_repo)
| Refused (stderr : string).

(** The machine the script runs on. *)
Record world : Type := World {
  files : fs;
  repos : gmap path (list commit);  (** the history that each clone holds *)
  remotes : string -> clone_outcome;
  gettempdir : string;              (** [tempfile.gettempdir()] *)
  candidates : list string          (** the random names [mkdtemp] draws *)
}.

Definition set_files (f : fs -> fs) (w : world) : world :=
  World (f (files w)) (repos w) (remotes w) (gettempdir w) (candidates w).
Definition set_repos (f : gmap path (list commit) -> gmap path (list commit))
    (w : world) : world :=
  World (files w) (f (repos w)) (remotes w) (gettempdir w) (candidates w).
Definition set_candidates (l : list string) (w : world) : world :=
  World (files w) (repos w) (remotes w) (gettempdir w) l.

(** A call runs on the machine and returns or raises. *)
Definition M (A : Type) : Type := world -> result A * world.

#[global] Instance M_ret : MRet M := fun A a w => (Ok a, w).
#[global] Instance M_bind : MBind M := fun A B k m w =>
  match m w with
  | (Ok a, w') => k a w'
  | (Raise e, w') => (Raise e, w')
  end.
Definition raise {A} (e : exn) : M A := fun w => (Raise e, w).
Definition get_world : M world := fun w => (Ok w, w).

(** [try: m  except CalledProcessError as e: handler e] *)
Definition try_except {A} (m : M A) (handler : string -> M A) : M A := fun w =>
  match m w with
  | (Raise (CalledProcessError stderr), w') => handler stderr w'
  | r => r
  end.

(** [tempfile.mkdtemp(prefix=...)]: the first candidate name that is
    free; the directory is made in the temporary directory. *)
Fixpoint mkdtemp_from (prefix : string) (names : list string) : M string :=
  match names with
  | [] => fun w => (Raise FileExistsError, set_candidates [] w)
  | name :: names' => fun w =>
      let dir := join (gettempdir w) (prefix +:+ name) in
      if exists_ (files w) (parse_path dir) then mkdtemp_from prefix names' w
      else if isdir (files w) (dirname (parse_path dir))
      then (Ok dir, set_candidates names' (set_files <[parse_path dir := Dir]> w))
      else (Raise FileNotFoundError, set_candidates names' w)
  end.
Definition mkdtemp (prefix : string) : M string := fun w =>
  mkdtemp_from prefix (candidates w) w.

(** [git clone --depth depth repo_url dir], with [check=True]. *)
Definition git_clone (depth : nat) (repo_url dir : string) : M unit := fun w =>
  match depth, remotes w repo_url with
  | 0, _ => (Raise (CalledProcessError "fatal: depth 0 is not a positive number"), w)
  | _, Refused stderr => (Raise (CalledProcessError stderr), w)
  | _, Served r =>
      (Ok tt,
       set_repos <[parse_path dir := take depth (history r)]>
         (set_files (fun s => graft (parse_path dir) (worktree r) ∪ s) w))
  end.

(** The history of the clone at [dir], if there is one. *)
Definition repo_at (w : world) (dir : string) : option (list commit) :=
  if isdir (files w) (parse_path dir) then repos w !! parse_path dir else None.

(** [git -C dir rev-parse HEAD], with [check=True]: the standard output. *)
Definition git_rev_parse_head (dir : string) : M string := fun w =>
  match repo_at w dir with
  | Some (c :: _) => (Ok (sha c +:+ String Text.LF EmptyString), w)
  | _ => (Raise (CalledProcessError "fatal: not a git repository, or no commit"), w)
  end.

(** One line of [git log --oneline]. *)
Definition oneline (c : commit) : string :=
  String.substring 0 7 (sha c) +:+ " " +:+ subject c +:+ String Text.LF EmptyString.
Definition render (log : list commit) : string := String.concat "" (oneline <$> log).

(** The commits before the one named [rev], if the history has it. *)
Fixpoint since (rev : string) (log : list commit) : option (list commit) :=
  match log with
  | [] => None
  | c :: log' =>
      if bool_decide (sha c = rev) then Some []
      else (fun l => c :: l) <$> since rev log'
  end.

(** [git -C dir log since_sha..HEAD --oneline], with [check=True]. *)
Definition git_log_range (dir since_sha : string) : M string := fun w =>
  match repo_at w dir with
  | Some (c :: log) =>
      match since since_sha (c :: log) with
      | Some l => (Ok (render l), w)
      | None => (Raise (CalledProcessError "fatal: bad revision"), w)
      end
  | _ => (Raise (CalledProcessError "fatal: not a git repository, or no commit"), w)
  end.

(** [git -C dir log --oneline], with [check=True]. *)
Definition git_log_all (dir : string) : M string := fun w =>
  match repo_at w dir with
  | Some (c :: log) => (Ok (render (c :: log)), w)
  | _ => (Raise (CalledProcessError "fatal: not a git repository, or no commit"), w)
  end.

(** [shutil.rmtree(dir)]; a clone goes with its directory. *)
Definition rmtree_dir (dir : string) : M unit := fun w =>
  match rmtree (parse_path dir) (files w) with
  | Ok s =>
      (Ok tt,
       set_repos (filter (fun kv => ¬ parse_path dir `prefix_of` kv.1))
         (set_files (fun _ => s) w))
  | Raise e => (Raise e, w)
  end.

(** [str(e)] of a [CalledProcessError]: Python names the command and
    its exit status. *)
Definition str_called_process_error : string :=
  "Command returned non-zero exit status.".

End Machine.

Module UpstreamCheck.
Import FS PathString Machine.

(** [clone_to_temp(repo_url, depth)] *)
Definition clone_to_temp (repo_url : string) (depth : nat) : M string :=
  tmp_dir ← mkdtemp "skill-sync-";
  _ ← git_clone depth repo_url tmp_dir;
  mret tmp_dir.

(** [get_head_sha(repo_path)] *)
Definition get_head_sha (repo_path : string) : M string :=
  stdout ← git_rev_parse_head repo_path;
  mret (strip stdout).

(** [get_commit_log(clone_path, since_sha)] *)
Definition get_commit_log (clone_path since_sha : string) : M string :=
  attempt ← try_except
    (stdout ← git_log_range clone_path since_sha;
     if bool_decide (strip stdout ≠ "") then mret (Some (strip stdout)) else mret None)
    (fun _ => mret None);
  match attempt with
  | Some log => mret log
  | None =>
      stdout ← git_log_all clone_path;
      mret (strip stdout)
  end.

(** [cleanup(clone_path)] *)
Definition cleanup (clone_path : string) : M unit :=
  w ← get_world;
  if bool_decide (clone_path ≠ "")
     && exists_ (files w) (parse_path clone_path)
     && String.prefix (gettempdir w) clone_path
  then rmtree_dir clone_path
  else mret tt.

(** The dictionary that [check_upstream] returns; a key that is absent
    or holds [None] is [None]. *)
Record check_result : Type := CheckResult {
  has_updates : option bool;
  old_sha : string;
  new_sha : option string;
  clone_path : option string;
  skill_path_in_clone : option string;
  commit_log : option string;
  error : option string
}.

Definition skill_path (clone_path repo_subpath : string) : string :=
  if bool_decide (repo_subpath ≠ "") then join clone_path repo_subpath else clone_path.

(** [check_upstream(repo_url, repo_subpath, last_checked_commit)] *)
Definition check_upstream (repo_url repo_subpath last_checked_commit : string)
  : M check_result :=
  attempt ← try_except
    (clone_path ← clone_to_temp repo_url 1; mret (inl clone_path))
    (fun stderr => mret (inr stderr));
  match attempt with
  | inr stderr =>
      mret (CheckResult None last_checked_commit None None None None
              (Some ("Failed to clone: "
                     +:+ (if bool_decide (stderr ≠ "") then stderr
                          else str_called_process_error))))
  | inl clone_path =>
      new_sha ← get_head_sha clone_path;
      let has_updates := bool_decide (new_sha ≠ last_checked_commit) in
      if has_updates
      then
        _ ← cleanup clone_path;
        try_except
          (clone_path ← clone_to_temp repo_url 50;
           log ← get_commit_log clone_path last_checked_commit;
           mret (CheckResult (Some has_updates) last_checked_commit (Some new_sha)
                   (Some clone_path) (Some (skill_path clone_path repo_subpath))
                   (Some log) None))
          (fun _ =>
           clone_path ← clone_to_temp repo_url 1;
           mret (CheckResult (Some has_updates) last_checked_commit (Some new_sha)
                   (Some clone_path) (Some (skill_path clone_path repo_subpath))
                   (Some "(could not retrieve commit log)") None))
      else
        mret (CheckResult (Some has_updates) last_checked_commit (Some new_sha)
                (Some clone_path) (Some (skill_path clone_path repo_subpath))
                None None)
  end.

(** [entry[key]] on an entry of the registry. *)
Definition entry_key (entry : gmap string string) (key : string) : M string :=
  match entry !! key with
  | Some v => mret v
  | None => raise (KeyError key)
  end.

(** A result of [check_all]: the dictionary of [check_upstream] with the
    keys "name" and "local_path" of the entry. *)
Record batch_result : Type := BatchResult {
  checked : check_result;
  entry_name : string;
  entry_local_path : string
}.

(** The loop of [check_all]. *)
Fixpoint check_all_loop (registry_entries : list (gmap string string))
    (results : list batch_result) : M (list batch_result) :=
  match registry_entries with
  | [] => mret results
  | entry :: rest =>
      github_repo ← entry_key entry "github_repo";
      last_checked_commit ← entry_key entry "last_checked_commit";
      result ← check_upstream github_repo (default "" (entry !! "repo_subpath"))
                 last_checked_commit;
      name ← entry_key entry "name";
      local_path ← entry_key entry "local_path";
      check_all_loop rest (results ++ [BatchResult result name local_path])
  end.

(** [check_all(registry_entries)] *)
Definition check_all (registry_entries : list (gmap string string))
  : M (list batch_result) :=
  check_all_loop registry_entries [].

End UpstreamCheck.

(** ** registry.py *)

Module Registry.

(** An entry of the registry: a JSON object whose values are strings. *)
Abbreviation entry := (gmap string string).

(** The document of the registry file. *)
Record data : Type := Data { version : Z; skills : list entry }.

(** The registry file at [self.path]: absent, or the document it holds. *)
Definition store : Type := option data.

Definition M (A : Type) : Type := store -> result A * store.

#[global] Instance M_ret : MRet M := fun A a st => (Ok a, st).
#[global] Instance M_bind : MBind M := fun A B k m st =>
  match m st with
  | (Ok a, st') => k a st'
  | (Raise e, st') => (Raise e, st')
  end.
Definition raise {A} (e : exn) : M A := fun st => (Raise e, st).
Definition lift {A} (r : result A) : M A := fun st => (r, st).

(** [Registry._read], [Registry._write] *)
Definition _read : M data := fun st =>
  match st with
  | None => (Ok (Data 1 []), st)
  | Some d => (Ok d, st)
  end.
Definition _write (d : data) : M unit := fun _ => (Ok tt, Some d).

(** [Registry.list] *)
Definition list_ : M (list entry) :=
  d ← _read;
  st ← (fun st => (Ok st, st));
  _ ← (if bool_decide (st = None :> store) then _write d else mret tt);
  mret (skills d).

(** The first entry whose ["name"] is [name]; an entry without a name
    stops the search with a [KeyError]. *)
Fixpoint find_named (name : string) (l : list entry) : result (option entry) :=
  match l with
  | [] => Ok None
  | e :: l' =>
      match e !! "name" with
      | None => Raise (KeyError "name")
      | Some n => if bool_decide (n = name) then Ok (Some e) else find_named name l'
      end
  end.

(** [Registry.get] *)
Definition get (name : string) : M (option entry) :=
  d ← _read;
  lift (find_named name (skills d)).

(** [Registry.add]; [now] is [datetime.now(timezone.utc).isoformat()]. *)
Definition add (now : string) (name github_repo repo_subpath local_path
    last_checked_commit baseline_commit adaptation_notes adaptation_diff : string)
  : M entry :=
  d ← _read;
  found ← lift (find_named name (skills d));
  match found with
  | Some _ => raise (ValueError ("Skill '" +:+ name +:+ "' is already registered"))
  | None =>
      let e : entry := list_to_map [
        ("name", name);
        ("github_repo", github_repo);
        ("repo_subpath", repo_subpath);
        ("local_path", local_path);
        ("last_checked_commit", last_checked_commit);
        ("baseline_commit", baseline_commit);
        ("adaptation_notes", adaptation_notes);
        ("adaptation_diff", adaptation_diff);
        ("registered_at", now);
        ("last_updated_at", now)] in
      _ ← _write (Data (version d) (skills d ++ [e]));
      mret e
  end.

(** The inner loop of [update]: each field must be a key of the entry. *)
Fixpoint apply_fields (fields : list (string * string)) (e : entry) : result entry :=
  match fields with
  | [] => Ok e
  | (k, v) :: fields' =>
      match e !! k with
      | None => Raise (KeyError ("Unknown field: " +:+ k))
      | Some _ => apply_fields fields' (<[k := v]> e)
      end
  end.

(** The outer loop of [update], at the entry after [before]. *)
Fixpoint update_loop (now name : string) (fields : list (string * string))
    (d : data) (before l : list entry) : M entry :=
  match l with
  | [] => raise (KeyError ("Skill '" +:+ name +:+ "' not found"))
  | e :: l' =>
      match e !! "name" with
      | None => raise (KeyError "name")
      | Some n =>
          if bool_decide (n = name)
          then
            e' ← lift (apply_fields fields e);
            let e' := <["last_updated_at" := now]> e' in
            _ ← _write (Data (version d) (before ++ e' :: l'));
            mret e'
          else update_loop now name fields d (before ++ [e]) l'
      end
  end.

(** The binding of the arguments of [update(self, name, **fields)], with
    [self] and [name] given by position: the first keyword that is called
    like one of them is refused, before the body runs. *)
Definition reserved (k : string) : bool :=
  bool_decide (k = "self") || bool_decide (k = "name").

Fixpoint bind_keywords (fields : list (string * string)) : result unit :=
  match fields with
  | [] => Ok tt
  | (k, _) :: fields' =>
      if reserved k
      then Raise (TypeError ("Registry.update() got multiple values for argument '"
                             +:+ k +:+ "'"))
      else bind_keywords fields'
  end.

(** [Registry.update]; [fields] are the keyword arguments, in their
    order. *)
Definition update (now name : string) (fields : list (string * string)) : M entry :=
  _ ← lift (bind_keywords fields);
  d ← _read;
  update_loop now name fields d [] (skills d).

(** The comprehension of [remove]. *)
Fixpoint without (name : string) (l : list entry) : result (list entry) :=
  match l with
  | [] => Ok []
  | e :: l' =>
      match e !! "name" with
      | None => Raise (KeyError "name")
      | Some n =>
          rest ← without name l';
          mret (if bool_decide (n ≠ name) then e :: rest else rest)
      end
  end.

(** [Registry.remove] *)
Definition remove (name : string) : M unit :=
  d ← _read;
  kept ← lift (without name (skills d));
  _write (Data (version d) kept).

End Registry.

(** ** Auxiliary definitions *)

Section Auxiliary.
Import FS DiffGenerator.

(** The order of Python on strings, character by character. *)
Definition string_le (x y : string) : Prop := Is_true (String.leb x y).

(** The directories that [makedirs p] may have to make. *)
Definition made_dirs (p : path) : fs :=
  list_to_map ((fun q => (q, Dir)) <$> (ancestors p ++ [p])).

(** What a copy of a tree looks like. *)
Definition copied (src dst : path) (s : fs) : fs :=
  graft dst (subtree src s) ∪ (s ∪ made_dirs dst).

(** When a file [f] of both directories counts as changed: with a
    binary file on one side, when the two sides are not the same bytes;
    for two text files, when they do not read as the same lines. *)
Definition content_differs `{TextCodec} (s : fs) (local_dir upstream_dir f : path) : Prop :=
  if is_binary_file s (local_dir ++ f) || is_binary_file s (upstream_dir ++ f)
  then s !! (local_dir ++ f) ≠ s !! (upstream_dir ++ f)
  else lines_of s (local_dir ++ f) ≠ lines_of s (upstream_dir ++ f).

#[global] Instance content_differs_dec `{TextCodec} (s : fs) (local_dir upstream_dir f : path) :
  Decision (content_differs s local_dir upstream_dir f).
Proof.
  unfold content_differs.
  destruct (is_binary_file s (local_dir ++ f) || is_binary_file s (upstream_dir ++ f));
    apply _.
Defined.

(** The status of a changed file of both directories. *)
Definition common_status (s : fs) (local_dir upstream_dir f : path) : status :=
  if is_binary_file s (local_dir ++ f) || is_binary_file s (upstream_dir ++ f)
  then BinaryChanged else Modified.

(** What a turn of the first loop gives: nothing for a file that has
    not changed, one entry for a file that has. *)
Definition common_exact `{TextCodec} (s : fs) (local_dir upstream_dir f : path)
    (r : list entry) : Prop :=
  (r = [] /\ ¬ content_differs s local_dir upstream_dir f)
  \/ exists e,
       r = [e] /\ file e = relstr f
       /\ entry_status e = common_status s local_dir upstream_dir f
       /\ content_differs s local_dir upstream_dir f
       /\ s !! (local_dir ++ f) ≠ s !! (upstream_dir ++ f).

(** What holds between two turns of the loop, [done] being the files
    copied so far. *)
Record copy_inv (upstream_dir local_dir : path) (s0 : fs) (done : list path) (s : fs)
  : Prop := {
  inv_frame : forall p n,
    s0 !! p = Some n -> (forall r, r ∈ done -> p ≠ local_dir ++ r) -> s !! p = Some n;
  inv_copied : forall r, r ∈ done -> s !! (local_dir ++ r) = s0 !! (upstream_dir ++ r);
  inv_dirs : forall p,
    s !! p = Some Dir ->
    s0 !! p = Some Dir
    \/ exists r, r ∈ done /\ p `prefix_of` dirname (local_dir ++ r)
}.

(** Well-formedness and agreement outside a directory, by computation. *)
Definition check_wf (s : FS.fs) : bool :=
  forallb (fun kv => match kv.1 with [] => true | _ => FS.isdir s (FS.dirname kv.1) end)
    (map_to_list s).

Definition outside (dir : FS.path) (s : FS.fs) : FS.fs :=
  filter (fun kv => ¬ dir `prefix_of` kv.1) s.

End Auxiliary.

(** What [_read] gives for a registry file: an absent file reads as the
    empty registry of version 1. *)
Definition registry_contents (st : Registry.store) : Registry.data :=
  match st with
  | None => Registry.Data 1 []
  | Some d => d
  end.

(** The entry that [add] makes. *)
Definition new_entry (now name github_repo repo_subpath local_path last_checked_commit
    baseline_commit adaptation_notes adaptation_diff : string) : Registry.entry :=
  list_to_map [
    ("name", name);
    ("github_repo", github_repo);
    ("repo_subpath", repo_subpath);
    ("local_path", local_path);
    ("last_checked_commit", last_checked_commit);
    ("baseline_commit", baseline_commit);
    ("adaptation_notes", adaptation_notes);
    ("adaptation_diff", adaptation_diff);
    ("registered_at", now);
    ("last_updated_at", now)].

(** The names of the entries that have one. *)
Definition entry_names (l : list Registry.entry) : list string :=
  omap (fun e : Registry.entry => e !! "name") l.

(** The entry after the assignments [entry[k] = v] of [fields], in
    their order. *)
Definition assign_fields (fields : list (string * string)) (e : Registry.entry)
  : Registry.entry :=
  foldl (fun acc kv => <[kv.1 := kv.2]> acc) e fields.

(** ** A reference matcher and a reference codec *)

(** A matcher that keeps the promises of the interface: it sees that two
    sequences are the same, and replaces everything when they are not. *)
Definition whole_opcodes (a b : list string) : list Difflib.opcode :=
  if decide (a = b)
  then match a with
       | [] => []
       | _ => [Difflib.Op Difflib.Equal 0 (length a) 0 (length b)]
       end
  else match a, b with
       | [], _ => [Difflib.Op Difflib.Insert 0 0 0 (length b)]
       | _, [] => [Difflib.Op Difflib.Delete 0 (length a) 0 0]
       | _, _ => [Difflib.Op Difflib.Replace 0 (length a) 0 (length b)]
       end.

Definition whole_matcher : SequenceMatcher.
Proof.
  refine (Build_SequenceMatcher whole_opcodes _ _ _ _); unfold whole_opcodes.
  - intros a b. case_decide as Hab.
    + subst b. destruct a; simpl; lia.
    + destruct a, b; simpl; lia.
  - intros a b. case_decide as Hab.
    + subst b. destruct a; constructor; [|done].
      unfold Difflib.op_ok. simpl. repeat split; lia.
    + destruct a, b; try done; (constructor; [|done]); unfold Difflib.op_ok; simpl; lia.
  - intros a b. case_decide; [destruct a|destruct a, b]; done.
  - intros a. rewrite decide_True by done. destruct a; [done|]. by constructor.
Defined.

(** The codec of a locale with one byte per character. *)
Definition latin_codec : TextCodec := string_of_list_byte.

(** ** Sample data *)

(** A registry with one entry, named [dup]. *)
Definition sample_entry : Registry.entry :=
  list_to_map [
    ("name", "dup"); ("github_repo", "https://github.com/a/b"); ("repo_subpath", "");
    ("local_path", "/tmp/dup"); ("last_checked_commit", "abc");
    ("baseline_commit", "abc"); ("adaptation_notes", ""); ("adaptation_diff", "");
    ("registered_at", "2026-01-01T00:00:00+00:00");
    ("last_updated_at", "2026-01-01T00:00:00+00:00")].

Definition sample_registry : Registry.data := Registry.Data 1 [sample_entry].

(** A file system from the list of its entries. *)
Definition sample_fs (l : list (FS.path * FS.node)) : FS.fs := list_to_map l.

(** A machine whose temporary directory is [/tmp], next to a directory
    [/tmpfoo] that is none of its business; the address [origin] serves
    two commits and every other address is refused. *)
Definition sample_world : Machine.world :=
  Machine.World
    (sample_fs [([], FS.Dir); (["tmp"], FS.Dir); (["tmp"; "clone"], FS.Dir);
                (["tmpfoo"], FS.Dir); (["tmpfoo"; "x"], FS.Dir)])
    {[ ["tmp"; "clone"] := [Machine.Commit "2222222bbbb" "feat: update to v2";
                            Machine.Commit "1111111aaaa" "init: first commit"] ]}
    (fun url =>
       if bool_decide (url = "origin")
       then Machine.Served
              (Machine.Remote [Machine.Commit "2222222bbbb" "feat: update to v2";
                               Machine.Commit "1111111aaaa" "init: first commit"] ∅)
       else Machine.Refused "fatal: repository not found")
    "/tmp"
    ["k3x9"; "p0q1"; "z8y7"].

(** A picture, a note in UTF-8 and a directory. *)
Definition classifier_fs : FS.fs :=
  sample_fs [([], FS.Dir);
             (["icon.png"], FS.File [x89; x50; x4e; x47; x0d; x0a; x1a; x0a; x00; x00]);
             (["note.md"], FS.File [x23; x20; xc3; xa9; x0a]);
             (["scripts"], FS.Dir)].

(** The end of a line. *)
Definition nl : string := String Text.LF EmptyString.

(** A local skill whose upstream copy has lost its [SKILL.md]. *)
Definition skill_fs : FS.fs :=
  sample_fs [([], FS.Dir);
             (["local"], FS.Dir);
             (["local"; "SKILL.md"],
              FS.File (list_byte_of_string ("# Skill" +:+ nl +:+ "v1" +:+ nl)));
             (["upstream"], FS.Dir)].

(** A local skill with a file of its own, and an upstream with a new
    file whose name comes later. *)
Definition drift_fs : FS.fs :=
  sample_fs [([], FS.Dir);
             (["local"], FS.Dir);
             (["local"; "a_old.txt"], FS.File (list_byte_of_string "mine"));
             (["upstream"], FS.Dir);
             (["upstream"; "b_new.txt"], FS.File (list_byte_of_string "theirs"))].

(** A skill, its snapshot, and the skill after an update went wrong:
    [SKILL.md] is overwritten, [old_file.txt] is gone and a stray file
    has appeared. *)
Definition demo_fs : FS.fs :=
  sample_fs [([], FS.Dir);
             (["skills"], FS.Dir);
             (["skills"; "demo"], FS.Dir);
             (["skills"; "demo"; "SKILL.md"], FS.File (list_byte_of_string "Local adapted"));
             (["skills"; "demo"; "old_file.txt"], FS.File (list_byte_of_string "local only"))].

Definition demo_snapshot : FS.fs :=
  FS.graft ["backups"; "demo-20260101-120000"] (FS.subtree ["skills"; "demo"] demo_fs)
  ∪ (demo_fs ∪ {[ ["backups"] := FS.Dir ]}).

Definition demo_broken : FS.fs :=
  <[ ["skills"; "demo"; "SKILL.md"] := FS.File (list_byte_of_string "BROKEN") ]>
    (<[ ["skills"; "demo"; "stray.tmp"] := FS.File [] ]>
       (delete ["skills"; "demo"; "old_file.txt"] demo_snapshot)).

(** An upstream with a file [notes], and a local skill where [notes] is
    a directory that holds a file of the same name. *)
Definition clash_fs : FS.fs :=
  sample_fs [([], FS.Dir);
             (["upstream"], FS.Dir);
             (["upstream"; "notes"], FS.File (list_byte_of_string "upstream notes"));
             (["local"], FS.Dir);
             (["local"; "notes"], FS.Dir);
             (["local"; "notes"; "notes"], FS.File (list_byte_of_string "local only"))].

(** The two directories of the tests of [patch_applier.py]. *)
Definition fixture_fs : FS.fs :=
  sample_fs [([], FS.Dir);
             (["local"], FS.Dir);
             (["local"; "SKILL.md"], FS.File (list_byte_of_string "Local adapted version"));
             (["local"; "old_file.txt"], FS.File (list_byte_of_string "this only exists locally"));
             (["upstream"], FS.Dir);
             (["upstream"; "SKILL.md"], FS.File (list_byte_of_string "New upstream version"));
             (["upstream"; "new_script.py"], FS.File (list_byte_of_string "print('new')"));
             (["upstream"; "scripts"], FS.Dir);
             (["upstream"; "scripts"; "helper.py"], FS.File (list_byte_of_string "# helper"))].

(** The entry of a file that only the local directory has. *)
Definition deleted_entry (f : FS.path) : DiffGenerator.entry :=
  DiffGenerator.Entry (DiffGenerator.relstr f) DiffGenerator.Deleted
    ("--- deleted: " +:+ DiffGenerator.relstr f).

(** The files below a directory, with their bytes. *)
Definition files_below (root : FS.path) (s : FS.fs) : gmap FS.path (list byte) :=
  omap (fun n => match n with FS.File data => Some data | FS.Dir => None end)
    (FS.subtree root s).

(** Two directories with the same file; the local one has an empty
    directory of its own. *)
Definition mirror_fs : FS.fs :=
  sample_fs [([], FS.Dir);
             (["local"], FS.Dir);
             (["local"; "SKILL.md"], FS.File (list_byte_of_string "same"));
             (["local"; "empty"], FS.Dir);
             (["upstream"], FS.Dir);
             (["upstream"; "SKILL.md"], FS.File (list_byte_of_string "same"))].

(** A note of 8191 letters and one accented letter, whose two bytes sit
    on both sides of byte 8192. *)
Definition boundary_fs : FS.fs :=
  sample_fs [([], FS.Dir);
             (["long.md"], FS.File (replicate (N.to_nat 8191) x41 ++ [xc3; xa9]))].

(** The three shapes of what [check_upstream] returns. *)
Inductive check_shape (repo_subpath last_checked_commit : string)
  : UpstreamCheck.check_result -> Prop :=
| shape_error (msg : string) :
    check_shape repo_subpath last_checked_commit
      (UpstreamCheck.CheckResult None last_checked_commit None None None None (Some msg))
| shape_same (dir : string) :
    check_shape repo_subpath last_checked_commit
      (UpstreamCheck.CheckResult (Some false) last_checked_commit (Some last_checked_commit)
         (Some dir) (Some (UpstreamCheck.skill_path dir repo_subpath)) None None)
| shape_updated (new dir log : string) :
    new ≠ last_checked_commit ->
    check_shape repo_subpath last_checked_commit
      (UpstreamCheck.CheckResult (Some true) last_checked_commit (Some new)
         (Some dir) (Some (UpstreamCheck.skill_path dir repo_subpath)) (Some log) None).

(** What a result of the batch has to do with its entry. *)
Definition result_of_entry (entry : gmap string string) (r : UpstreamCheck.batch_result)
  : Prop :=
  entry !! "name" = Some (UpstreamCheck.entry_name r)
  /\ entry !! "local_path" = Some (UpstreamCheck.entry_local_path r)
  /\ entry !! "last_checked_commit" = Some (UpstreamCheck.old_sha (UpstreamCheck.checked r)).

(** The sample registry after a second skill was added. *)
Definition grown_registry : Registry.data :=
  Registry.Data 1
    [sample_entry;
     new_entry "2026-01-02T00:00:00+00:00" "fresh" "https://github.com/x/y" "skills/fresh"
       "/tmp/fresh" "def456" "def456" "" ""].

(** What [check_upstream] returns on the sample machine for [origin],
    when the first commit is the one on record. *)
Definition updated_result : UpstreamCheck.check_result :=
  UpstreamCheck.CheckResult (Some true) "1111111aaaa" (Some "2222222bbbb")
    (Some "/tmp/skill-sync-p0q1") (Some "/tmp/skill-sync-p0q1/skills/demo")
    (Some "2222222 feat: update to v2") None.

(** The sample machine after [origin] was cloned. *)
Definition cloned_world : Machine.world :=
  (UpstreamCheck.clone_to_temp "origin" 1 sample_world).2.

(** The sample machine after a temporary directory was made. *)
Definition tmpdir_world : Machine.world :=
  Machine.set_candidates ["p0q1"; "z8y7"]
    (Machine.set_files <[ ["tmp"; "skill-sync-k3x9"] := FS.Dir ]> sample_world).

(** A machine for which every address serves a repository without a
    commit. *)
Definition bare_world : Machine.world :=
  Machine.World (sample_fs [([], FS.Dir); (["tmp"], FS.Dir)]) ∅
    (fun _ => Machine.Served (Machine.Remote [] ∅)) "/tmp" ["k3x9"].

(** * Properties *)

(** ** The registry *)

Section RegistryFacts.
Import Registry.

Lemma find_named_elem name (l : list entry) e :
  e ∈ l -> e !! "name" = Some name ->
  (exists e', find_named name l = Ok (Some e')) \/ find_named name l = Raise (KeyError "name").
Proof.
  induction l as [|e0 l IH]; intros Hin Hname.
  - by apply elem_of_nil in Hin.
  - simpl. destruct (e0 !! "name") as [n|] eqn:Hn; [|by right].
    case_bool_decide; [left; eauto|].
    apply elem_of_cons in Hin as [->|Hin]; [congruence|]. by apply IH.
Qed.

(** A field that the entry does not have stops [apply_fields], whatever
    the fields before it did to the entry in memory. *)
Lemma apply_fields_unknown (fields : list (string * string)) (e : entry) k :
  k ∈ fields.*1 -> e !! k = None ->
  exists k', apply_fields fields e = Raise (KeyError ("Unknown field: " +:+ k')).
Proof.
  revert e. induction fields as [|[k0 v0] fields IH]; intros e Hin Hk; simpl in *.
  - by apply elem_of_nil in Hin.
  - destruct (e !! k0) eqn:Hk0; [|eauto].
    apply elem_of_cons in Hin as [->|Hin]; [congruence|].
    apply IH; [done|]. rewrite lookup_insert_ne; [done|congruence].
Qed.

Lemma update_loop_unknown now name fields d (before pre post : list entry) e k st :
  (forall e', e' ∈ pre -> e' !! "name" ≠ Some name) ->
  e !! "name" = Some name ->
  k ∈ fields.*1 -> e !! k = None ->
  exists msg,
    update_loop now name fields d before (pre ++ e :: post) st = (Raise (KeyError msg), st).
Proof.
  intros Hpre Hname Hin Hk. revert before.
  induction pre as [|e0 pre IH]; intros before; simpl.
  - rewrite Hname, bool_decide_eq_true_2 by done.
    destruct (apply_fields_unknown fields e k Hin Hk) as [k' Hk'].
    unfold mbind, M_bind, lift. rewrite Hk'. eauto.
  - destruct (e0 !! "name") as [n|] eqn:Hn; [|unfold raise; eauto].
    rewrite bool_decide_eq_false_2.
    + apply IH. intros e' He'. apply Hpre. by right.
    + intros ->. eapply Hpre; [by left|done].
Qed.

(** The keywords are bound when none is called [self] or [name], and
    refused otherwise. *)
Lemma bind_keywords_Ok (fields : list (string * string)) :
  Forall (fun kv => kv.1 ≠ "self" /\ kv.1 ≠ "name") fields ->
  bind_keywords fields = Ok tt.
Proof.
  induction 1 as [|[k v] fields [Hself Hname] _ IH]; [done|]. simpl in *.
  unfold reserved. by rewrite !bool_decide_eq_false_2.
Qed.

Lemma bind_keywords_Raise (fields : list (string * string)) :
  Exists (fun kv => kv.1 = "self" \/ kv.1 = "name") fields ->
  exists msg, bind_keywords fields = Raise (TypeError msg).
Proof.
  induction fields as [|[k v] fields IH]; intros Hex; [by apply Exists_nil in Hex|].
  simpl. destruct (reserved k) eqn:Hk; [eauto|].
  apply Exists_cons in Hex as [Hres|Hex]; [|by apply IH].
  exfalso. simpl in Hres. unfold reserved in Hk.
  apply orb_false_iff in Hk as [Hself%bool_decide_eq_false Hname%bool_decide_eq_false].
  tauto.
Qed.

Lemma reserved_or_not (fields : list (string * string)) :
  Forall (fun kv => kv.1 ≠ "self" /\ kv.1 ≠ "name") fields
  \/ Exists (fun kv => kv.1 = "self" \/ kv.1 = "name") fields.
Proof.
  induction fields as [|[k v] fields [IH|IH]].
  - left. constructor.
  - destruct (decide (k = "self")) as [->|Hself]; [right; left; by left|].
    destruct (decide (k = "name")) as [->|Hname]; [right; left; by right|].
    left. by constructor.
  - right. by right.
Qed.

Lemma reserved_not_both (fields : list (string * string)) :
  Forall (fun kv => kv.1 ≠ "self" /\ kv.1 ≠ "name") fields ->
  Exists (fun kv => kv.1 = "self" \/ kv.1 = "name") fields ->
  False.
Proof.
  intros Hall (kv & Hin & Hres)%Exists_exists.
  rewrite Forall_forall in Hall. destruct (Hall kv Hin). tauto.
Qed.

(** A call whose keywords are bound is the body of the function. *)
Lemma update_bound now name (fields : list (string * string)) (st : store) :
  Forall (fun kv => kv.1 ≠ "self" /\ kv.1 ≠ "name") fields ->
  update now name fields st
  = update_loop now name fields (registry_contents st) []
      (skills (registry_contents st)) st.
Proof.
  intros Hbound. unfold update. unfold mbind at 1, M_bind at 1, lift.
  rewrite (bind_keywords_Ok fields Hbound).
  unfold mbind, M_bind. by destruct st.
Qed.

Lemma update_refused now name (fields : list (string * string)) (st : store) :
  Exists (fun kv => kv.1 = "self" \/ kv.1 = "name") fields ->
  exists msg, update now name fields st = (Raise (TypeError msg), st).
Proof.
  intros [msg Hmsg]%bind_keywords_Raise. exists msg.
  unfold update. unfold mbind at 1, M_bind at 1, lift. by rewrite Hmsg.
Qed.

End RegistryFacts.

(** C9: when the registry holds an entry named [name], [Registry.add]
    with that name raises (a [ValueError], or the [KeyError] of an
    earlier entry that has no name) and the registry file is what it was:
    no entry is changed and none is written. *)
Theorem add_duplicate_rejected (now name github_repo repo_subpath local_path
    last_checked_commit baseline_commit adaptation_notes adaptation_diff : string)
    (d : Registry.data) (e : Registry.entry) :
  e ∈ Registry.skills d ->
  e !! "name" = Some name ->
  exists err,
    Registry.add now name github_repo repo_subpath local_path last_checked_commit
      baseline_commit adaptation_notes adaptation_diff (Some d) = (Raise err, Some d)
    /\ (err = ValueError ("Skill '" +:+ name +:+ "' is already registered")
        \/ err = KeyError "name").
Proof.
  intros Hin Hname. unfold Registry.add, Registry._read, Registry.lift.
  unfold mbind, Registry.M_bind.
  destruct (find_named_elem name (Registry.skills d) e Hin Hname) as [[e' ->]| ->].
  - eexists. split; [reflexivity|]. by left.
  - eexists. split; [reflexivity|]. by right.
Qed.

(** C10: when the first entry named [name] lacks one of the keys of
    [fields], [Registry.update] raises and the registry file is what it
    was, also when fields that come before the unknown one are keys of
    the entry: nothing is written before every field has been applied.
    The exception is a [KeyError], unless a field is called [self] or
    [name]: then it is the [TypeError] of the call, which does not reach
    the body. *)
Theorem update_unknown_field_rejected (now name : string)
    (fields : list (string * string)) (d : Registry.data)
    (pre post : list Registry.entry) (e : Registry.entry) (k : string) :
  Registry.skills d = pre ++ e :: post ->
  (forall e', e' ∈ pre -> e' !! "name" ≠ Some name) ->
  e !! "name" = Some name ->
  k ∈ fields.*1 ->
  e !! k = None ->
  exists err,
    Registry.update now name fields (Some d) = (Raise err, Some d)
    /\ (Forall (fun kv => kv.1 ≠ "self" /\ kv.1 ≠ "name") fields ->
        exists msg, err = KeyError msg)
    /\ (Exists (fun kv => kv.1 = "self" \/ kv.1 = "name") fields ->
        exists msg, err = TypeError msg).
Proof.
  intros Hskills Hpre Hname Hin Hk.
  destruct (reserved_or_not fields) as [Hbound|Hrefused].
  - destruct (update_loop_unknown now name fields d [] pre post e k (Some d)
                Hpre Hname Hin Hk) as [msg Hmsg].
    exists (KeyError msg). split; [|split].
    + rewrite update_bound by done. cbn [registry_contents]. by rewrite Hskills.
    + eauto.
    + intros Hex. by destruct (reserved_not_both fields).
  - destruct (update_refused now name fields (Some d) Hrefused) as [msg Hmsg].
    exists (TypeError msg). split; [done|]. split; [|eauto].
    intros Hall. by destruct (reserved_not_both fields).
Qed.

Lemma add_duplicate_rejected_witness :
  exists err,
    Registry.add "2026-01-02T00:00:00+00:00" "dup" "https://github.com/a/b" ""
      "/tmp/dup" "abc" "abc" "" "" (Some sample_registry)
    = (Raise err, Some sample_registry)
    /\ (err = ValueError ("Skill '" +:+ "dup" +:+ "' is already registered")
        \/ err = KeyError "name").
Proof.
  apply (add_duplicate_rejected _ "dup" _ _ _ _ _ _ _ sample_registry sample_entry).
  - left.
  - reflexivity.
Defined.

Lemma update_unknown_field_rejected_witness :
  exists err,
    Registry.update "2026-01-02T00:00:00+00:00" "dup"
      [("adaptation_notes", "new notes"); ("no_such_field", "x")] (Some sample_registry)
    = (Raise err, Some sample_registry)
    /\ (Forall (fun kv => kv.1 ≠ "self" /\ kv.1 ≠ "name")
          [("adaptation_notes", "new notes"); ("no_such_field", "x")] ->
        exists msg, err = KeyError msg)
    /\ (Exists (fun kv => kv.1 = "self" \/ kv.1 = "name")
          [("adaptation_notes", "new notes"); ("no_such_field", "x")] ->
        exists msg, err = TypeError msg).
Proof.
  apply (update_unknown_field_rejected _ "dup" _ sample_registry [] [] sample_entry
           "no_such_field").
  - reflexivity.
  - intros e' He'. inversion He'.
  - reflexivity.
  - right. left.
  - reflexivity.
Defined.

(** ** The upstream checker *)

Section UpstreamFacts.
Import PathString Machine UpstreamCheck.


(** With the revision of the head, the range is empty and the whole log
    comes back. *)
Lemma since_head (c : commit) (log : list commit) : since (sha c) (c :: log) = Some [].
Proof. simpl. by rewrite bool_decide_eq_true_2. Qed.

End UpstreamFacts.



(** C7, at the head: when [since_sha] is the revision of the head of the
    clone, no commit lies between it and the head, and [get_commit_log]
    returns the whole log that the clone holds. *)
Theorem get_commit_log_at_head (w : Machine.world) (clone_path : string)
    (c : Machine.commit) (log : list Machine.commit) :
  Machine.repo_at w clone_path = Some (c :: log) ->
  UpstreamCheck.get_commit_log clone_path (Machine.sha c) w
  = (Ok (PathString.strip (Machine.render (c :: log))), w).
Proof.
  intros Hrepo. unfold UpstreamCheck.get_commit_log.
  unfold mbind at 1, Machine.M_bind at 1, Machine.try_except.
  unfold mbind at 1, Machine.M_bind at 1, Machine.git_log_range.
  rewrite Hrepo, since_head. simpl.
  unfold mbind, Machine.M_bind, Machine.git_log_all. rewrite Hrepo. reflexivity.
Qed.

Lemma get_commit_log_at_head_witness :
  Machine.since "2222222bbbb"
    [Machine.Commit "2222222bbbb" "feat: update to v2";
     Machine.Commit "1111111aaaa" "init: first commit"] = Some []
  /\ UpstreamCheck.get_commit_log "/tmp/clone" "2222222bbbb" sample_world
     = (Ok (PathString.strip
              (Machine.render [Machine.Commit "2222222bbbb" "feat: update to v2";
                               Machine.Commit "1111111aaaa" "init: first commit"])),
        sample_world)
  /\ PathString.strip
       (Machine.render [Machine.Commit "2222222bbbb" "feat: update to v2";
                        Machine.Commit "1111111aaaa" "init: first commit"]) ≠ "".
Proof.
  split; [reflexivity|]. split; [|discriminate].
  apply (get_commit_log_at_head sample_world "/tmp/clone"
           (Machine.Commit "2222222bbbb" "feat: update to v2")
           [Machine.Commit "1111111aaaa" "init: first commit"]).
  reflexivity.
Defined.

(** C8, next to the temporary directory: [/tmpfoo/x] is not under the
    temporary directory [/tmp], its name starts with the letters of
    [/tmp], and [cleanup] removes it. *)
Theorem cleanup_removes_sibling :
  ¬ PathString.parse_path (Machine.gettempdir sample_world)
      `prefix_of` PathString.parse_path "/tmpfoo/x"
  /\ Machine.files sample_world !! PathString.parse_path "/tmpfoo/x" = Some FS.Dir
  /\ exists w',
       UpstreamCheck.cleanup "/tmpfoo/x" sample_world = (Ok tt, w')
       /\ Machine.files w' !! PathString.parse_path "/tmpfoo/x" = None.
Proof.
  split; [|split].
  - intros [k Hk]. discriminate Hk.
  - reflexivity.
  - eexists. split; [vm_compute; reflexivity|]. reflexivity.
Qed.

(** What holds of [cleanup] and of [get_commit_log] besides. *)
Section UpstreamMore.
Import PathString Machine UpstreamCheck.

(** X15: [cleanup] leaves alone a path whose name does not start with
    the letters of the temporary directory: it returns and nothing on
    the machine has changed. *)
Lemma cleanup_other_name (w : world) (clone_path : string) :
  String.prefix (gettempdir w) clone_path = false ->
  cleanup clone_path w = (Ok tt, w).
Proof.
  intros Hpre. unfold cleanup, get_world. unfold mbind, M_bind.
  rewrite Hpre, andb_false_r. reflexivity.
Qed.


(** X13: for a revision that the history of the clone has, below the
    head, [get_commit_log] returns the lines of the commits above it
    and of no other. *)
Lemma get_commit_log_range (w : world) (clone_path since_sha : string)
    (c : commit) (log range : list commit) :
  repo_at w clone_path = Some (c :: log) ->
  since since_sha (c :: log) = Some range ->
  strip (render range) ≠ "" ->
  get_commit_log clone_path since_sha w = (Ok (strip (render range)), w).
Proof.
  intros Hrepo Hsince Hshown. unfold get_commit_log.
  unfold mbind at 1, M_bind at 1, try_except.
  unfold mbind at 1, M_bind at 1, git_log_range.
  rewrite Hrepo, Hsince, bool_decide_eq_true_2 by done. reflexivity.
Qed.

End UpstreamMore.

(** ** The classifier *)

(** C6: a file with a null byte among its first 8192 bytes is binary; a
    file of fewer than 8192 bytes that is well-formed UTF-8 without a
    null byte is not; a path that cannot be read is binary. *)
Theorem is_binary_file_classifies (s : FS.fs) (p : FS.path) :
  (forall data,
     s !! p = Some (FS.File data) ->
     x00 ∈ take DiffGenerator.check_bytes data ->
     DiffGenerator.is_binary_file s p = true)
  /\ (forall data,
        s !! p = Some (FS.File data) ->
        length data < DiffGenerator.check_bytes ->
        x00 ∉ data ->
        Text.utf8_valid data = true ->
        DiffGenerator.is_binary_file s p = false)
  /\ (forall e, FS.read_bytes s p = Raise e -> DiffGenerator.is_binary_file s p = true).
Proof.
  unfold DiffGenerator.is_binary_file, FS.read_bytes. split; [|split].
  - intros data -> Hnull. by rewrite bool_decide_eq_true_2.
  - intros data -> Hlen Hnull Hutf. rewrite take_ge by lia.
    by rewrite bool_decide_eq_false_2, Hutf.
  - intros e. destruct (s !! p) as [[data|]|]; [discriminate|done|done].
Qed.

Lemma is_binary_file_classifies_witness :
  DiffGenerator.is_binary_file classifier_fs ["icon.png"] = true
  /\ DiffGenerator.is_binary_file classifier_fs ["note.md"] = false
  /\ DiffGenerator.is_binary_file classifier_fs ["scripts"] = true
  /\ DiffGenerator.is_binary_file classifier_fs ["missing"] = true.
Proof.
  split; [|split; [|split]].
  - apply (proj1 (is_binary_file_classifies classifier_fs ["icon.png"])
             [x89; x50; x4e; x47; x0d; x0a; x1a; x0a; x00; x00]).
    + reflexivity.
    + vm_compute. do 8 right. left.
  - apply (proj1 (proj2 (is_binary_file_classifies classifier_fs ["note.md"]))
             [x23; x20; xc3; xa9; x0a]).
    + reflexivity.
    + vm_compute. lia.
    + intros Hnull. repeat (apply elem_of_cons in Hnull as [Hnull|Hnull]; [discriminate|]).
      by apply elem_of_nil in Hnull.
    + reflexivity.
  - apply (proj2 (proj2 (is_binary_file_classifies classifier_fs ["scripts"]))
             IsADirectoryError).
    reflexivity.
  - apply (proj2 (proj2 (is_binary_file_classifies classifier_fs ["missing"]))
             FileNotFoundError).
    reflexivity.
Defined.

(** ** Unified diffs *)

Section DifflibFacts.
Import Difflib UnifiedDiff.

Lemma slice_app {A} (l : list A) (i j k : nat) :
  i <= j -> j <= k -> slice l i j ++ slice l j k = slice l i k.
Proof.
  intros Hij Hjk. unfold slice.
  replace (drop j l) with (drop (j - i) (drop i l)) by (rewrite drop_drop; f_equal; lia).
  rewrite take_take_drop. f_equal. lia.
Qed.

Lemma slice_to_end {A} (l : list A) (i : nat) : slice l i (length l) = drop i l.
Proof. unfold slice. apply take_ge. rewrite length_drop. lia. Qed.

Lemma slice_all {A} (l : list A) : slice l 0 (length l) = l.
Proof. by rewrite slice_to_end. Qed.

(** Where a chain of opcodes starts and ends. *)
Lemma chained_le i j ops n m : chained i j ops n m -> i <= n /\ j <= m.
Proof.
  revert i j. induction ops as [|o ops IH]; simpl; intros i j.
  - lia.
  - intros (_ & _ & Hi & Hj & Hrest). apply IH in Hrest. lia.
Qed.

Lemma chained_last i j o ops n m :
  chained i j (o :: ops) n m ->
  exists o', last (o :: ops) = Some o' /\ i2 o' = n /\ j2 o' = m.
Proof.
  revert i j o. induction ops as [|o1 ops IH]; intros i j o.
  - simpl. intros (_ & _ & _ & _ & Hn & Hm). eauto.
  - intros (_ & _ & _ & _ & Hrest). apply IH in Hrest as (o' & Hlast & Hends).
    exists o'. split; [|done]. by rewrite last_cons_cons.
Qed.

(** Opcodes that only match say that the two sequences are the same. *)
Lemma chained_equal_same a b i j ops :
  chained i j ops (length a) (length b) ->
  Forall (op_ok a b) ops ->
  Forall (fun o => op_tag o = Equal) ops ->
  drop i a = drop j b.
Proof.
  revert i j. induction ops as [|o ops IH]; simpl; intros i j Hch Hok Heq.
  - destruct Hch as [-> ->]. by rewrite !drop_all.
  - destruct Hch as (Hi & Hj & Hle1 & Hle2 & Hrest).
    apply Forall_cons in Hok as [Ho Hok]. apply Forall_cons in Heq as [Htag Heq].
    unfold op_ok in Ho. rewrite Htag in Ho. destruct Ho as (_ & _ & Hsl).
    pose proof (chained_le _ _ _ _ _ Hrest) as [Hn Hm].
    specialize (IH _ _ Hrest Hok Heq). subst i j.
    rewrite <-(slice_to_end a), <-(slice_to_end b).
    rewrite <-(slice_app a (i1 o) (i2 o)), <-(slice_app b (j1 o) (j2 o)) by lia.
    by rewrite Hsl, !slice_to_end, IH.
Qed.

(** The trimming of the context touches no tag. *)
Lemma trim_first_tags n codes : op_tag <$> trim_first n codes = op_tag <$> codes.
Proof.
  destruct codes as [|o rest]; [done|]. simpl. unfold is_equal.
  case_bool_decide as Ho; [|done]. simpl. by rewrite Ho.
Qed.

Lemma trim_last_tags n codes : op_tag <$> trim_last n codes = op_tag <$> codes.
Proof.
  induction codes as [|o [|o1 rest] IH]; [done| |].
  - simpl. unfold is_equal. case_bool_decide as Ho; [|done]. simpl. by rewrite Ho.
  - change (trim_last n (o :: o1 :: rest)) with (o :: trim_last n (o1 :: rest)).
    rewrite !fmap_cons. f_equal. exact IH.
Qed.

Lemma all_equal_tags (codes : list opcode) :
  Forall (fun o => op_tag o = Equal) codes <-> Forall (eq Equal) (op_tag <$> codes).
Proof. rewrite Forall_fmap. apply Forall_proper; [|done]. intros o. simpl. split; auto. Qed.

(** A loop that yields nothing has seen matching blocks only. *)
Lemma group_loop_nil n codes group :
  group_loop n codes group = [] ->
  Forall (fun o => op_tag o = Equal) codes.
Proof.
  revert group. induction codes as [|o rest IH]; intros group; simpl; [done|].
  unfold is_equal. case_bool_decide as Ho; simpl.
  - case_bool_decide; [discriminate|]. intros Hnil. constructor; eauto.
  - intros Hnil. exfalso. clear IH. revert Hnil.
    assert (Hin : exists g1 g2, group ++ [o] = g1 ++ o :: g2) by (exists group, []; done).
    revert Hin. generalize (group ++ [o]) as g. clear group.
    induction rest as [|o1 rest IH]; intros g (g1 & g2 & ->); simpl.
    + destruct g1 as [|x [|y g1]]; simpl.
      * destruct g2; [|discriminate]. unfold is_equal.
        by rewrite bool_decide_eq_false_2.
      * destruct g2; discriminate.
      * discriminate.
    + destruct (is_equal o1 && bool_decide (n + n < i2 o1 - i1 o1)); [discriminate|].
      apply IH. exists g1, (g2 ++ [o1]). by rewrite <-app_assoc.
Qed.

Lemma grouped_nil_equal n codes :
  get_grouped_opcodes n codes = [] ->
  Forall (fun o => op_tag o = Equal) codes.
Proof.
  unfold get_grouped_opcodes. destruct codes as [|o rest]; [done|].
  intros Hnil%group_loop_nil. apply all_equal_tags.
  apply all_equal_tags in Hnil. by rewrite trim_last_tags, trim_first_tags in Hnil.
Qed.

(** Matching blocks that are merged and nothing else: one block at most. *)
Lemma merged_equal_short (codes : list opcode) :
  no_adjacent_equal codes ->
  Forall (fun o => op_tag o = Equal) codes ->
  codes = [] \/ exists o, codes = [o] /\ op_tag o = Equal.
Proof.
  destruct codes as [|o [|o1 rest]]; [by left| |].
  - intros _ [Ho _]%Forall_cons. right. eauto.
  - intros [Hadj _] (Ho & (Ho1 & _)%Forall_cons)%Forall_cons. by destruct Hadj.
Qed.

Lemma grouped_one_equal n o :
  op_tag o = Equal -> get_grouped_opcodes n [o] = [].
Proof.
  intros Ho. unfold get_grouped_opcodes. simpl. unfold is_equal at 1.
  rewrite bool_decide_eq_true_2 by done. simpl.
  by rewrite bool_decide_eq_false_2 by lia.
Qed.

(** Against an empty sequence there is nothing to do but delete. *)
Lemma chained_empty_deletes a i ops n :
  chained i 0 ops n 0 ->
  Forall (op_ok a []) ops ->
  Forall (fun o => op_tag o = Delete) ops.
Proof.
  revert i. induction ops as [|o ops IH]; simpl; intros i Hch Hok; [done|].
  destruct Hch as (Hi & Hj & Hle1 & Hle2 & Hrest).
  apply Forall_cons in Hok as [Ho Hok].
  pose proof (chained_le _ _ _ _ _ Hrest) as [_ Hm].
  assert (Hj2 : j2 o = 0) by lia. rewrite Hj2 in Hrest.
  constructor; [|by eapply IH].
  unfold op_ok in Ho. destruct (op_tag o); [lia|lia|done|lia].
Qed.

Lemma trim_last_changes n ops :
  Forall (fun o => is_equal o = false) ops -> trim_last n ops = ops.
Proof.
  induction ops as [|o [|o1 rest] IH]; [done| |].
  - intros [Ho _]%Forall_cons. simpl. by rewrite Ho.
  - intros [_ Hrest]%Forall_cons.
    change (trim_last n (o :: o1 :: rest)) with (o :: trim_last n (o1 :: rest)).
    by rewrite IH.
Qed.

Lemma group_loop_changes n ops group :
  Forall (fun o => is_equal o = false) ops ->
  ops ≠ [] ->
  group_loop n ops group = [group ++ ops].
Proof.
  revert group. induction ops as [|o ops IH]; intros group Hne Hnil; [done|].
  apply Forall_cons in Hne as [Ho Hne]. simpl. rewrite Ho. simpl.
  destruct ops as [|o1 ops].
  - simpl. destruct group as [|x [|y group]]; simpl; [by rewrite Ho|done|done].
  - rewrite IH by done. by rewrite <-app_assoc.
Qed.

Lemma grouped_changes n ops :
  Forall (fun o => is_equal o = false) ops ->
  ops ≠ [] ->
  get_grouped_opcodes n ops = [ops].
Proof.
  intros Hne Hnil. unfold get_grouped_opcodes.
  destruct ops as [|o ops]; [done|].
  assert (Htrim : trim_first n (o :: ops) = o :: ops).
  { simpl. apply Forall_cons in Hne as [-> _]. done. }
  rewrite Htrim, trim_last_changes by done. by apply group_loop_changes.
Qed.

Lemma delete_lines a b i j ops n m :
  chained i j ops n m ->
  Forall (fun o => op_tag o = Delete) ops ->
  concat (op_lines a b <$> ops) = String.append "-" <$> slice a i n.
Proof.
  revert i j. induction ops as [|o ops IH]; intros i j Hch Hdel; simpl in Hch.
  - destruct Hch as [-> _]. unfold slice. by rewrite Nat.sub_diag.
  - destruct Hch as (Hi & Hj & Hle1 & Hle2 & Hrest).
    apply Forall_cons in Hdel as [Ho Hdel].
    pose proof (chained_le _ _ _ _ _ Hrest) as [Hn _].
    rewrite fmap_cons. simpl concat.
    rewrite (IH _ _ Hrest Hdel). unfold op_lines. rewrite Ho, Hi.
    rewrite <-fmap_app. f_equal. apply slice_app; lia.
Qed.

Context `{SequenceMatcher}.

(** No hunk exactly when the two sequences are the same. *)
Lemma unified_diff_nil_iff (a b : list string) (fromfile tofile : string) :
  unified_diff a b fromfile tofile = [] <-> a = b.
Proof.
  unfold unified_diff. split.
  - destruct (get_grouped_opcodes 3 (get_opcodes a b)) eqn:Hgroups; [|discriminate].
    intros _. apply grouped_nil_equal in Hgroups.
    by apply (chained_equal_same a b 0 0 (get_opcodes a b));
      [apply opcodes_chained|apply opcodes_ok|].
  - intros <-.
    destruct (merged_equal_short (get_opcodes a a) (opcodes_merged a a) (opcodes_refl a))
      as [->|(o & -> & Ho)].
    + reflexivity.
    + by rewrite grouped_one_equal.
Qed.

(** Against an empty sequence: one hunk that deletes every line. *)
Lemma unified_diff_deletions (a : list string) (fromfile tofile : string) :
  a ≠ [] ->
  unified_diff a [] fromfile tofile
  = ("--- " +:+ fromfile) :: ("+++ " +:+ tofile)
    :: ("@@ -" +:+ format_range_unified 0 (length a) +:+ " +0,0 @@")
    :: (String.append "-" <$> a).
Proof.
  intros Ha. unfold unified_diff.
  pose proof (opcodes_chained a []) as Hch. simpl in Hch.
  pose proof (chained_empty_deletes a 0 _ _ Hch (opcodes_ok a [])) as Hdel.
  destruct (get_opcodes a []) as [|o ops] eqn:Hops.
  { destruct Hch as [Hlen _]. by destruct a. }
  rewrite grouped_changes; [|by eapply Forall_impl; [exact Hdel|];
    intros o' Ho'; unfold is_equal; rewrite Ho'|done].
  change (concat (hunk a [] <$> [o :: ops])) with (hunk a [] (o :: ops) ++ []).
  rewrite app_nil_r. unfold hunk.
  destruct (chained_last _ _ _ _ _ _ Hch) as (o' & -> & Hi2 & Hj2).
  pose proof Hch as (Hi1 & Hj1 & _).
  rewrite Hi1, Hj1, Hi2, Hj2, (delete_lines a [] 0 0 (o :: ops) (length a) 0 Hch Hdel).
  by rewrite slice_all.
Qed.

End DifflibFacts.

Section GenerateDiff.
Context `{TextCodec} `{SequenceMatcher}.
Import FS DiffGenerator.

Lemma join_header (sep x y : string) (l : list string) :
  Text.join sep (("--- " +:+ x) :: y :: l) ≠ "".
Proof. unfold Text.join. simpl. discriminate. Qed.

Lemma lines_of_missing (s : fs) (p : path) : s !! p = None -> lines_of s p = Ok [].
Proof. intros Hp. unfold lines_of, exists_. by rewrite Hp. Qed.

(** [generate_diff] returns for files and for missing paths, and its
    text is empty exactly when the lines are the same. *)
Lemma generate_diff_lines (s : fs) (local_file upstream_file : path)
    (la lb : list string) :
  lines_of s local_file = Ok la ->
  lines_of s upstream_file = Ok lb ->
  generate_diff s local_file upstream_file
  = Ok (Text.join (String Text.LF EmptyString)
          (UnifiedDiff.unified_diff la lb ("local/" +:+ basename local_file)
             ("upstream/" +:+ basename upstream_file))).
Proof. intros Ha Hb. unfold generate_diff. by rewrite Ha, Hb. Qed.

Lemma generate_diff_empty (s : fs) (local_file upstream_file : path)
    (la lb : list string) (d : string) :
  lines_of s local_file = Ok la ->
  lines_of s upstream_file = Ok lb ->
  generate_diff s local_file upstream_file = Ok d ->
  d = "" <-> la = lb.
Proof.
  intros Ha Hb. rewrite (generate_diff_lines s _ _ la lb Ha Hb). intros [= <-].
  rewrite <-(unified_diff_nil_iff la lb ("local/" +:+ basename local_file)
               ("upstream/" +:+ basename upstream_file)).
  split; [|by intros ->].
  unfold UnifiedDiff.unified_diff.
  destruct (UnifiedDiff.get_grouped_opcodes 3 (get_opcodes la lb)); [done|].
  intros Hjoin. by apply join_header in Hjoin.
Qed.

End GenerateDiff.

(** C5: for two paths that are text files or missing (a missing file
    has no lines), [generate_diff] returns a text, which is empty exactly
    when the two files have the same lines; and against a missing path
    the text is the two header lines, one range line and every line of
    the local file with a minus sign. *)
Theorem generate_diff_empty_iff `{TextCodec} `{SequenceMatcher} (s : FS.fs)
    (local_file upstream_file : FS.path) (la lb : list string) :
  DiffGenerator.lines_of s local_file = Ok la ->
  DiffGenerator.lines_of s upstream_file = Ok lb ->
  exists d,
    DiffGenerator.generate_diff s local_file upstream_file = Ok d
    /\ (d = "" <-> la = lb)
    /\ (s !! upstream_file = None -> la ≠ [] ->
        d = Text.join (String Text.LF EmptyString)
              (("--- local/" +:+ FS.basename local_file)
               :: ("+++ upstream/" +:+ FS.basename upstream_file)
               :: ("@@ -" +:+ UnifiedDiff.format_range_unified 0 (length la) +:+ " +0,0 @@")
               :: (String.append "-" <$> la))).
Proof.
  intros Ha Hb. eexists. split; [by apply generate_diff_lines|]. split.
  - eapply generate_diff_empty; [exact Ha|exact Hb|by apply generate_diff_lines].
  - intros Hmissing Hla. rewrite (lines_of_missing s _ Hmissing) in Hb.
    injection Hb as <-. by rewrite unified_diff_deletions.
Qed.

Lemma generate_diff_empty_iff_witness :
  exists d,
    @DiffGenerator.generate_diff latin_codec whole_matcher skill_fs
      ["local"; "SKILL.md"] ["upstream"; "SKILL.md"] = Ok d
    /\ (d = "" <-> ["# Skill" +:+ nl; "v1" +:+ nl] = [])
    /\ (skill_fs !! ["upstream"; "SKILL.md"] = None ->
        ["# Skill" +:+ nl; "v1" +:+ nl] ≠ [] ->
        d = Text.join nl
              ["--- local/SKILL.md"; "+++ upstream/SKILL.md"; "@@ -1,2 +0,0 @@";
               "-# Skill" +:+ nl; "-v1" +:+ nl]).
Proof.
  apply (@generate_diff_empty_iff latin_codec whole_matcher skill_fs
           ["local"; "SKILL.md"] ["upstream"; "SKILL.md"]
           ["# Skill" +:+ nl; "v1" +:+ nl] []).
  - reflexivity.
  - reflexivity.
Defined.

(** ** The file system *)

Section FSFacts.
Import FS.
Implicit Types (s t : fs) (p q r root src dst : path) (n : node).

Lemma strip_prefix_Some root p r : strip_prefix root p = Some r <-> p = root ++ r.
Proof.
  unfold strip_prefix. case_decide as Hpre.
  - destruct Hpre as [k ->]. rewrite drop_app_length. split.
    + by intros [= ->].
    + by intros ->%(inj (app root)).
  - split; [done|]. intros ->. destruct Hpre. by exists r.
Qed.

Lemma strip_prefix_app root r : strip_prefix root (root ++ r) = Some r.
Proof. by apply strip_prefix_Some. Qed.

Lemma strip_prefix_None root p : strip_prefix root p = None <-> ¬ root `prefix_of` p.
Proof. unfold strip_prefix. case_decide; split; done. Qed.

(** [rekey] with names that do not collide. *)
Lemma lookup_rekey (f : path -> option path) s r n :
  (forall p p' r', f p = Some r' -> f p' = Some r' -> p = p') ->
  rekey f s !! r = Some n <-> exists p, f p = Some r /\ s !! p = Some n.
Proof.
  intros Hinj. unfold rekey. split.
  - intros Hin%elem_of_list_to_map_2.
    apply list_elem_of_omap in Hin as ([p n'] & Hin & Hf). simpl in Hf.
    destruct (f p) as [r'|] eqn:Hp; [|done]. injection Hf as -> ->.
    exists p. split; [done|]. by apply elem_of_map_to_list.
  - intros (p & Hp & Hs). apply elem_of_list_to_map_1'.
    + intros n' Hin. apply list_elem_of_omap in Hin as ([p' n''] & Hin & Hf).
      simpl in Hf. destruct (f p') as [r'|] eqn:Hp'; [|done]. injection Hf as -> ->.
      apply elem_of_map_to_list in Hin. rewrite (Hinj _ _ _ Hp Hp') in Hs. congruence.
    + apply list_elem_of_omap. exists (p, n). split; [by apply elem_of_map_to_list|].
      simpl. by rewrite Hp.
Qed.

(** The tree at [root] is what the file system holds below [root]. *)
Lemma lookup_subtree root s r : subtree root s !! r = s !! (root ++ r).
Proof.
  apply option_eq. intros n. unfold subtree. rewrite lookup_rekey.
  - split.
    + by intros (p & ->%strip_prefix_Some & Hs).
    + intros Hs. exists (root ++ r). by rewrite strip_prefix_app.
  - intros p p' r' ->%strip_prefix_Some ->%strip_prefix_Some. done.
Qed.

Lemma lookup_graft dst t r : graft dst t !! (dst ++ r) = t !! r.
Proof. unfold graft. apply (lookup_kmap (app dst)). Qed.

Lemma lookup_graft_outside dst t q : ¬ dst `prefix_of` q -> graft dst t !! q = None.
Proof.
  intros Hpre. unfold graft. apply (lookup_kmap_None (app dst)).
  intros r ->. destruct Hpre. by exists r.
Qed.

(** What the walk of a directory lists. *)
Lemma elem_of_walk_files root s r :
  r ∈ walk_files root s <->
  s !! root = Some Dir /\ exists data, s !! (root ++ r) = Some (File data).
Proof.
  unfold walk_files, isdir. split.
  - destruct (s !! root) as [[|]|]; try (by intros ?%elem_of_nil).
    intros ([r' n] & Hin & Hfile)%list_elem_of_omap. split; [done|].
    apply elem_of_map_to_list in Hin. rewrite lookup_subtree in Hin. simpl in Hfile.
    destruct n as [data|]; [|done]. injection Hfile as ->. eauto.
  - intros [-> [data Hdata]]. apply list_elem_of_omap.
    exists (r, File data). split; [|done].
    apply elem_of_map_to_list. by rewrite lookup_subtree.
Qed.

Lemma NoDup_walk_files root s : NoDup (walk_files root s).
Proof.
  unfold walk_files. destruct (isdir s root); [|constructor].
  pose proof (NoDup_fst_map_to_list (subtree root s)) as Hnd.
  induction (map_to_list (subtree root s)) as [|[r n] l IH]; [constructor|].
  rewrite fmap_cons in Hnd. apply NoDup_cons in Hnd as [Hr Hnd].
  simpl. destruct n as [data|]; [|by apply IH].
  apply NoDup_cons. split; [|by apply IH].
  intros ([r' n'] & Hin & Hfile)%list_elem_of_omap. simpl in Hfile.
  destruct n' as [data'|]; [|done]. injection Hfile as ->.
  apply Hr. apply list_elem_of_fmap. by exists (r, File data').
Qed.

End FSFacts.

(** ** The order of [sorted] *)

Section Order.
Import DiffGenerator.

Lemma string_compare_trans (s1 s2 s3 : string) :
  String.compare s1 s2 ≠ Gt -> String.compare s2 s3 ≠ Gt -> String.compare s1 s3 ≠ Gt.
Proof.
  revert s2 s3. induction s1 as [|c1 s1 IH]; intros [|c2 s2] [|c3 s3]; simpl; try done.
  unfold Ascii.compare.
  destruct (N.compare_spec (N_of_ascii c1) (N_of_ascii c2)) as [H12|H12|H12];
    destruct (N.compare_spec (N_of_ascii c2) (N_of_ascii c3)) as [H23|H23|H23];
    try done.
  - rewrite H12, H23, N.compare_refl. apply IH.
  - intros _ _. rewrite H12. by rewrite (proj2 (N.compare_lt_iff _ _) H23).
  - intros _ _. rewrite <-H23. by rewrite (proj2 (N.compare_lt_iff _ _) H12).
  - intros _ _. by rewrite (proj2 (N.compare_lt_iff _ _) (N.lt_trans _ _ _ H12 H23)).
Qed.

Lemma string_leb_compare (x y : string) : string_le x y <-> String.compare x y ≠ Gt.
Proof. unfold string_le, String.leb. destruct (String.compare x y); simpl; split; done. Qed.

#[local] Instance string_le_trans : Transitive string_le.
Proof.
  intros x y z. rewrite !string_leb_compare. apply string_compare_trans.
Qed.

#[local] Instance string_le_total : Total string_le.
Proof.
  intros x y. unfold string_le. destruct (String.leb_total x y) as [->| ->]; simpl; auto.
Qed.

#[local] Instance path_le_trans : Transitive path_le.
Proof. intros x y z. apply string_le_trans. Qed.

#[local] Instance path_le_total : Total path_le.
Proof. intros x y. apply string_le_total. Qed.

Lemma sorted_strongly (files : gset FS.path) : StronglySorted path_le (sorted files).
Proof. apply StronglySorted_merge_sort; apply _. Qed.

Lemma elem_of_sorted (files : gset FS.path) (f : FS.path) : f ∈ sorted files <-> f ∈ files.
Proof. unfold sorted. by rewrite merge_sort_Permutation, elem_of_elements. Qed.

Lemma StronglySorted_sublist {A} (R : relation A) (l k : list A) :
  l `sublist_of` k -> StronglySorted R k -> StronglySorted R l.
Proof.
  induction 1 as [|x l k Hsub IH|x l k Hsub IH]; intros Hk; [done| |].
  - apply StronglySorted_inv in Hk as [Hk Hx]. constructor; [by apply IH|].
    eapply Forall_forall. intros y Hy. eapply Forall_forall; [exact Hx|].
    by eapply sublist_subseteq.
  - apply StronglySorted_inv in Hk as [Hk _]. by apply IH.
Qed.

(** The names of a list of paths in order are in order. *)
Lemma relstr_sorted (l : list FS.path) :
  StronglySorted path_le l -> StronglySorted string_le (relstr <$> l).
Proof.
  induction 1 as [|f l Hl IH Hf]; [constructor|].
  rewrite fmap_cons. constructor; [done|].
  apply Forall_fmap. eapply Forall_impl; [exact Hf|]. by intros g Hg.
Qed.

End Order.

(** ** The comparison of two directories *)

Section DiffDirectories.
Context `{TextCodec} `{SequenceMatcher}.
Import FS DiffGenerator.

(** A loop whose body always returns appends what each turn gives. *)
Lemma for_each_ok {A B} (P : A -> list B -> Prop) (body : A -> result (list B))
    (l : list A) (results : list B) :
  (forall x, x ∈ l -> exists r, body x = Ok r /\ P x r) ->
  exists rs,
    Forall2 P l rs /\ for_each body l results = Ok (results ++ concat rs).
Proof.
  revert results. induction l as [|x l IH]; intros results Hbody.
  - exists []. split; [constructor|]. simpl. by rewrite app_nil_r.
  - destruct (Hbody x) as (r & Hr & HP); [by left|].
    destruct (IH (results ++ r)) as (rs & Hrs & Hloop).
    { intros y Hy. apply Hbody. by right. }
    exists (r :: rs). split; [by constructor|].
    simpl. rewrite Hr. simpl. by rewrite Hloop, <-app_assoc.
Qed.

Lemma lines_of_file (s : fs) (p : path) (data : list byte) :
  s !! p = Some (File data) ->
  lines_of s p = Ok (Text.readlines (Text.translate_newlines (decode_replace data))).
Proof. intros Hp. unfold lines_of, exists_, read_text, read_bytes. by rewrite Hp. Qed.

Lemma diff_common_exact (s : fs) (local_dir upstream_dir f : path) (ld ud : list byte) :
  s !! (local_dir ++ f) = Some (File ld) ->
  s !! (upstream_dir ++ f) = Some (File ud) ->
  exists r,
    diff_common s local_dir upstream_dir f = Ok r
    /\ common_exact s local_dir upstream_dir f r.
Proof.
  intros Hl Hu.
  pose proof (lines_of_file s _ _ Hl) as Hla. pose proof (lines_of_file s _ _ Hu) as Hlb.
  enough (Hr : match diff_common s local_dir upstream_dir f with
               | Ok r => common_exact s local_dir upstream_dir f r
               | Raise _ => False
               end).
  { destruct (diff_common s local_dir upstream_dir f) as [r|]; [eauto|done]. }
  unfold diff_common, common_exact, content_differs, common_status. cbv zeta.
  destruct (is_binary_file s (local_dir ++ f) || is_binary_file s (upstream_dir ++ f)).
  - unfold getsize, read_bytes. rewrite Hl, Hu. simpl.
    case_bool_decide as Hsize; simpl.
    + right. eexists. repeat split; intros [= ->]; by apply Hsize.
    + case_bool_decide as Hdata; simpl.
      * right. eexists. repeat split; intros [= ->]; by apply Hdata.
      * left. split; [done|]. intros Hne. apply Hne. by rewrite Hdata.
  - rewrite (generate_diff_lines s _ _ _ _ Hla Hlb), Hla, Hlb.
    simpl. case_bool_decide as Hd; simpl.
    + assert (Hlines : Text.readlines (Text.translate_newlines (decode_replace ld))
                       ≠ Text.readlines (Text.translate_newlines (decode_replace ud))).
      { intros Heq. apply Hd. rewrite Heq.
        by rewrite (proj2 (unified_diff_nil_iff _ _ _ _) eq_refl). }
      right. eexists. repeat split; [congruence|]. rewrite Hl, Hu. congruence.
    + left. split; [done|]. intros Hne. apply Hne. f_equal.
      apply (generate_diff_empty s (local_dir ++ f) (upstream_dir ++ f) _ _ _ Hla Hlb
               (generate_diff_lines s _ _ _ _ Hla Hlb)).
      exact Hd.
Qed.

Lemma diff_new_outcome (s : fs) (upstream_dir f : path) (ud : list byte) :
  s !! (upstream_dir ++ f) = Some (File ud) ->
  exists e,
    diff_new s upstream_dir f = Ok [e] /\ file e = relstr f
    /\ (entry_status e = New \/ entry_status e = BinaryNew).
Proof.
  intros Hu.
  enough (Hr : match diff_new s upstream_dir f with
               | Ok [e] => file e = relstr f
                           /\ (entry_status e = New \/ entry_status e = BinaryNew)
               | _ => False
               end).
  { destruct (diff_new s upstream_dir f) as [[|e [|]]|]; try done. eauto. }
  unfold diff_new. destruct (is_binary_file s (upstream_dir ++ f)).
  - unfold getsize. rewrite Hu. simpl. split; [done|by right].
  - unfold read_text, read_bytes. rewrite Hu. simpl. split; [done|by left].
Qed.

(** The entries of turns that give one entry each. *)
Lemma concat_singletons {A} (P : A -> entry -> Prop) (l : list A) (rs : list (list entry)) :
  Forall2 (fun x r => exists e, r = [e] /\ P x e) l rs ->
  Forall2 P l (concat rs).
Proof.
  induction 1 as [|x r l rs (e & -> & He) Hrest IH]; [constructor|].
  simpl. by constructor.
Qed.

(** The entries of the first loop: one for each file that has changed,
    in the order of the loop. *)
Lemma concat_common (s : fs) (local_dir upstream_dir : path) (l : list path)
    (rs : list (list entry)) :
  Forall2 (common_exact s local_dir upstream_dir) l rs ->
  Forall2 (fun f e => file e = relstr f
                      /\ entry_status e = common_status s local_dir upstream_dir f)
    (filter (content_differs s local_dir upstream_dir) l) (concat rs)
  /\ (forall f, f ∈ filter (content_differs s local_dir upstream_dir) l ->
        s !! (local_dir ++ f) ≠ s !! (upstream_dir ++ f)).
Proof.
  induction 1 as [|f r l rs Hr Hrest [IHentries IHdiff]].
  - split; [constructor|]. by intros f ?%elem_of_nil.
  - destruct Hr as [[-> Hsame]|(e & -> & He & Hs & Hchanged & Hne)].
    + by rewrite filter_cons_False.
    + rewrite filter_cons_True by done. split.
      * change (concat ([e] :: rs)) with (e :: concat rs). by constructor.
      * intros g [->|Hg]%elem_of_cons; [done|by apply IHdiff].
Qed.

Lemma entries_of_common (s : fs) (local_dir upstream_dir : path) (l : list path)
    (es : list entry) :
  Forall2 (fun f e => file e = relstr f
                      /\ entry_status e = common_status s local_dir upstream_dir f) l es ->
  file <$> es = relstr <$> l
  /\ Forall (fun e => entry_status e = Modified \/ entry_status e = BinaryChanged) es.
Proof.
  induction 1 as [|f e l es [Hf Hs] Hrest [IHf IHs]]; [done|].
  rewrite !fmap_cons, Hf, IHf. split; [done|]. constructor; [|done].
  rewrite Hs. unfold common_status.
  destruct (is_binary_file s (local_dir ++ f) || is_binary_file s (upstream_dir ++ f)); auto.
Qed.

Lemma entries_named (P : entry -> Prop) (l : list path) (es : list entry) :
  Forall2 (fun f e => file e = relstr f /\ P e) l es ->
  file <$> es = relstr <$> l /\ Forall P es.
Proof.
  induction 1 as [|f e l es [Hf HP] Hrest [IHf IHP]]; [done|].
  rewrite !fmap_cons, Hf, IHf. split; [done|by constructor].
Qed.

Lemma walked_file (s : fs) (root f : path) (files : gset path) :
  files = list_to_set (walk_files root s) ->
  f ∈ files -> exists data, s !! (root ++ f) = Some (File data).
Proof. intros -> Hf%elem_of_list_to_set%elem_of_walk_files. tauto. Qed.

(** The result of [diff_directories]: three groups, one after the
    other. *)
Lemma diff_directories_groups (s : fs) (local_dir upstream_dir : path)
    (local_files upstream_files : gset path) :
  local_files = list_to_set (walk_files local_dir s) ->
  upstream_files = list_to_set (walk_files upstream_dir s) ->
  exists changed r1 r2 r3,
    diff_directories s local_dir upstream_dir = Ok (r1 ++ r2 ++ r3)
    /\ changed `sublist_of` sorted (local_files ∩ upstream_files)
    /\ (forall f, f ∈ changed -> s !! (local_dir ++ f) ≠ s !! (upstream_dir ++ f))
    /\ file <$> r1 = relstr <$> changed
    /\ file <$> r2 = relstr <$> sorted (upstream_files ∖ local_files)
    /\ file <$> r3 = relstr <$> sorted (local_files ∖ upstream_files)
    /\ Forall (fun e => entry_status e = Modified \/ entry_status e = BinaryChanged) r1
    /\ Forall (fun e => entry_status e = New \/ entry_status e = BinaryNew) r2
    /\ Forall (fun e => entry_status e = Deleted) r3
    /\ changed = filter (content_differs s local_dir upstream_dir)
                   (sorted (local_files ∩ upstream_files))
    /\ Forall2 (fun f e => file e = relstr f
                           /\ entry_status e = common_status s local_dir upstream_dir f)
         changed r1.
Proof.
  intros HL HU. unfold diff_directories. rewrite <-HL, <-HU.
  destruct (for_each_ok (common_exact s local_dir upstream_dir)
              (diff_common s local_dir upstream_dir)
              (sorted (local_files ∩ upstream_files)) []) as (rs1 & Hrs1 & ->).
  { intros f [Hl Hu]%elem_of_sorted%elem_of_intersection.
    destruct (walked_file s _ _ _ HL Hl) as [ld Hld].
    destruct (walked_file s _ _ _ HU Hu) as [ud Hud].
    by eapply diff_common_exact. }
  simpl.
  destruct (for_each_ok
              (fun f r => exists e, r = [e] /\ file e = relstr f
                          /\ (entry_status e = New \/ entry_status e = BinaryNew))
              (diff_new s upstream_dir)
              (sorted (upstream_files ∖ local_files)) (concat rs1)) as (rs2 & Hrs2 & ->).
  { intros f [Hu _]%elem_of_sorted%elem_of_difference.
    destruct (walked_file s _ _ _ HU Hu) as [ud Hud].
    destruct (diff_new_outcome s upstream_dir f ud Hud) as (e & He & Hfe). eauto. }
  simpl.
  destruct (for_each_ok
              (fun f r => exists e, r = [e] /\ file e = relstr f /\ entry_status e = Deleted)
              diff_deleted
              (sorted (local_files ∖ upstream_files)) (concat rs1 ++ concat rs2))
    as (rs3 & Hrs3 & ->).
  { intros f _. eexists. split; [reflexivity|]. eauto. }
  destruct (concat_common s _ _ _ _ Hrs1) as [Hentries Hdiff].
  destruct (entries_of_common s _ _ _ _ Hentries) as [Hfiles Hst1].
  apply concat_singletons, entries_named in Hrs2 as [Hf2 Hst2].
  apply concat_singletons, entries_named in Hrs3 as [Hf3 Hst3].
  exists (filter (content_differs s local_dir upstream_dir)
            (sorted (local_files ∩ upstream_files))),
    (concat rs1), (concat rs2), (concat rs3).
  rewrite <-app_assoc. repeat split; try done. apply sublist_filter.
Qed.

End DiffDirectories.

(** C4, as the code has it: [diff_directories] returns three groups one
    after the other, the files of both directories that have changed,
    the files of the upstream directory only and the files of the local
    directory only.  Each group is in the order of the relative paths.
    The first group names exactly the files of both directories that
    have changed: with a binary file on one side, those whose bytes
    are not the same (status [binary_changed]); for two text files,
    those that do not read as the same lines (status [modified]); so it
    names no file whose content is the same on both sides.  The second
    and the third group name every file that is in one directory
    only. *)
Theorem diff_directories_grouped `{TextCodec} `{SequenceMatcher} (s : FS.fs)
    (local_dir upstream_dir : FS.path) :
  let local_files : gset FS.path := list_to_set (FS.walk_files local_dir s) in
  let upstream_files : gset FS.path := list_to_set (FS.walk_files upstream_dir s) in
  exists changed r1 r2 r3,
    DiffGenerator.diff_directories s local_dir upstream_dir = Ok (r1 ++ r2 ++ r3)
    /\ StronglySorted string_le (DiffGenerator.file <$> r1)
    /\ StronglySorted string_le (DiffGenerator.file <$> r2)
    /\ StronglySorted string_le (DiffGenerator.file <$> r3)
    /\ DiffGenerator.file <$> r1 = DiffGenerator.relstr <$> changed
    /\ changed `sublist_of` DiffGenerator.sorted (local_files ∩ upstream_files)
    /\ (forall f, f ∈ changed -> s !! (local_dir ++ f) ≠ s !! (upstream_dir ++ f))
    /\ DiffGenerator.file <$> r2
       = DiffGenerator.relstr <$> DiffGenerator.sorted (upstream_files ∖ local_files)
    /\ DiffGenerator.file <$> r3
       = DiffGenerator.relstr <$> DiffGenerator.sorted (local_files ∖ upstream_files)
    /\ Forall (fun e => DiffGenerator.entry_status e = DiffGenerator.Modified
                        \/ DiffGenerator.entry_status e = DiffGenerator.BinaryChanged) r1
    /\ Forall (fun e => DiffGenerator.entry_status e = DiffGenerator.New
                        \/ DiffGenerator.entry_status e = DiffGenerator.BinaryNew) r2
    /\ Forall (fun e => DiffGenerator.entry_status e = DiffGenerator.Deleted) r3
    /\ changed = filter (content_differs s local_dir upstream_dir)
                   (DiffGenerator.sorted (local_files ∩ upstream_files))
    /\ (forall f, f ∈ changed <->
          f ∈ local_files ∩ upstream_files /\ content_differs s local_dir upstream_dir f)
    /\ Forall2 (fun f e => DiffGenerator.file e = DiffGenerator.relstr f
                           /\ DiffGenerator.entry_status e
                              = common_status s local_dir upstream_dir f)
         changed r1.
Proof.
  intros local_files upstream_files.
  destruct (diff_directories_groups s local_dir upstream_dir local_files upstream_files
              eq_refl eq_refl)
    as (changed & r1 & r2 & r3 & Hret & Hsub & Hdiff & Hf1 & Hf2 & Hf3 & Hs1 & Hs2 & Hs3
        & Hchanged & Hentries).
  assert (Hexact : forall f, f ∈ changed <->
            f ∈ local_files ∩ upstream_files /\ content_differs s local_dir upstream_dir f).
  { intros f. rewrite Hchanged, list_elem_of_filter, elem_of_sorted. tauto. }
  exists changed, r1, r2, r3. rewrite Hf1, Hf2, Hf3.
  split; [done|]. split; [|split; [|split]].
  - apply relstr_sorted. eapply StronglySorted_sublist; [exact Hsub|apply sorted_strongly].
  - apply relstr_sorted, sorted_strongly.
  - apply relstr_sorted, sorted_strongly.
  - done.
Qed.

(** C4, as it is stated: the list as a whole is not in the order of the
    relative paths, the new file [b_new.txt] comes before the deleted
    file [a_old.txt]. *)
Lemma diff_directories_not_sorted :
  exists r,
    @DiffGenerator.diff_directories latin_codec whole_matcher drift_fs ["local"] ["upstream"]
    = Ok r
    /\ DiffGenerator.file <$> r = ["b_new.txt"; "a_old.txt"]
    /\ ¬ Sorted string_le (DiffGenerator.file <$> r).
Proof.
  eexists. split; [vm_compute; reflexivity|]. split; [reflexivity|].
  intros Hsorted. apply Sorted_inv in Hsorted as [_ Hhd].
  apply HdRel_inv in Hhd. exact Hhd.
Qed.

(** ** Trees that are copied and removed *)

Section CopyFacts.
Import FS.
Implicit Types (s t : fs) (p q r root src dst : path) (n : node).

Lemma elem_of_ancestors q p :
  q ∈ ancestors p <-> q `prefix_of` p /\ length q < length p.
Proof.
  unfold ancestors. rewrite list_elem_of_fmap. split.
  - intros (k & -> & Hk%elem_of_seq). split; [apply prefix_take|].
    rewrite length_take. lia.
  - intros [[r ->] Hlen]. exists (length q). split.
    + by rewrite take_app_length.
    + apply elem_of_seq. lia.
Qed.

Lemma lookup_made_dirs p q :
  made_dirs p !! q = if decide (q `prefix_of` p) then Some Dir else None.
Proof.
  unfold made_dirs. case_decide as Hpre.
  - apply elem_of_list_to_map_1'.
    + intros n (q' & Heq & _)%list_elem_of_fmap. by injection Heq as _ ->.
    + apply list_elem_of_fmap. exists q. split; [done|].
      apply elem_of_app. destruct (decide (length q < length p)) as [Hlt|Hge].
      * left. by apply elem_of_ancestors.
      * right. apply list_elem_of_singleton. apply prefix_length_eq; [done|lia].
  - apply not_elem_of_list_to_map. rewrite <-list_fmap_compose.
    intros (q' & -> & Hin)%list_elem_of_fmap. simpl in Hpre. apply Hpre.
    apply elem_of_app in Hin as [Hin%elem_of_ancestors|Hin%list_elem_of_singleton];
      [tauto|by subst].
Qed.

Lemma makedirs_fresh exist_ok p s :
  (forall q, q ∈ ancestors p -> isfile s q = false) ->
  s !! p = None ->
  makedirs exist_ok p s = Ok (s ∪ made_dirs p).
Proof.
  intros Hanc Hp. unfold makedirs. rewrite Hp.
  destruct (existsb (isfile s) (ancestors p)) eqn:Hex; [|done].
  apply existsb_exists in Hex as (q & Hq%list_elem_of_In & Hfile).
  by rewrite Hanc in Hfile.
Qed.

Lemma makedirs_Ok_inv exist_ok p s s' :
  makedirs exist_ok p s = Ok s' ->
  (forall q, q ∈ ancestors p -> isfile s q = false)
  /\ (exist_ok = true /\ s !! p = Some Dir /\ s' = s
      \/ s !! p = None /\ s' = s ∪ made_dirs p).
Proof.
  unfold makedirs. destruct (existsb (isfile s) (ancestors p)) eqn:Hex; [done|].
  intros Hret. split.
  - intros q Hq. destruct (isfile s q) eqn:Hfile; [|done].
    rewrite <-Hex. symmetry. apply existsb_exists. exists q.
    by rewrite <-list_elem_of_In.
  - destruct (s !! p) as [[|]|]; [done| |].
    + destruct exist_ok; [|done]. injection Hret as <-. by left.
    + injection Hret as <-. by right.
Qed.

(** In a well-formed file system the ancestors of an entry are
    directories, and nothing lies below a path that is free. *)
Lemma wf_ancestor s q r :
  wf s -> is_Some (s !! (q ++ r)) -> r ≠ [] -> s !! q = Some Dir.
Proof.
  intros Hwf. induction r as [|x r IH] using rev_ind; [done|].
  intros Hsome _. rewrite app_assoc in Hsome. apply Hwf in Hsome.
  destruct r as [|y r]; [by rewrite app_nil_r in Hsome|].
  apply IH; [by rewrite Hsome|done].
Qed.

Lemma wf_free_below s p r : wf s -> s !! p = None -> s !! (p ++ r) = None.
Proof.
  intros Hwf Hp. destruct r as [|x r]; [by rewrite app_nil_r|].
  destruct (s !! (p ++ x :: r)) eqn:Hr; [|done].
  rewrite (wf_ancestor s p (x :: r)) in Hp; [done..|by rewrite Hr|done].
Qed.

Lemma copytree_Ok_inv src dst s s' :
  copytree src dst s = Ok s' ->
  s !! src = Some Dir /\ s !! dst = None
  /\ (forall q, q ∈ ancestors dst -> isfile s q = false)
  /\ s' = copied src dst s.
Proof.
  unfold copytree. destruct (s !! src) as [[|]|] eqn:Hsrc; [done| |done].
  destruct (makedirs false dst s) as [s1|] eqn:Hmk; [|done]. simpl.
  apply makedirs_Ok_inv in Hmk as [Hanc [[? _]|[Hdst ->]]]; [done|].
  intros Hret. repeat split; [done..|]. unfold copied.
  destruct (strip_prefix src dst) as [[|c r]|]; [congruence| |congruence].
  destruct (exists_ s (src ++ [c])); [done|congruence].
Qed.

Lemma copytree_apart src dst s :
  s !! src = Some Dir ->
  s !! dst = None ->
  (forall q, q ∈ ancestors dst -> isfile s q = false) ->
  ¬ src `prefix_of` dst ->
  copytree src dst s = Ok (copied src dst s).
Proof.
  intros Hsrc Hdst Hanc Hpre. unfold copytree.
  rewrite Hsrc, (makedirs_fresh false dst s Hanc Hdst). simpl.
  by rewrite (proj2 (strip_prefix_None src dst) Hpre).
Qed.

Lemma lookup_copied_below src dst s r :
  s !! src = Some Dir ->
  (forall r', s !! (dst ++ r') = None) ->
  copied src dst s !! (dst ++ r) = s !! (src ++ r).
Proof.
  intros Hsrc Hfree. unfold copied.
  destruct (s !! (src ++ r)) as [n|] eqn:Hr.
  - apply lookup_union_Some_l. by rewrite lookup_graft, lookup_subtree.
  - apply lookup_union_None. split; [by rewrite lookup_graft, lookup_subtree|].
    apply lookup_union_None. split; [done|].
    rewrite lookup_made_dirs. case_decide as Hpre; [|done].
    apply prefix_length in Hpre. rewrite length_app in Hpre.
    destruct r; [|simpl in Hpre; lia]. rewrite app_nil_r in Hr. congruence.
Qed.

Lemma lookup_copied_outside src dst s p :
  ¬ dst `prefix_of` p ->
  copied src dst s !! p = (s ∪ made_dirs dst) !! p.
Proof.
  intros Hpre. unfold copied.
  by rewrite lookup_union_r by by apply lookup_graft_outside.
Qed.

Lemma lookup_rmtree p s s' q :
  rmtree p s = Ok s' ->
  s' !! q = if decide (p `prefix_of` q) then None else s !! q.
Proof.
  unfold rmtree. destruct (s !! p) as [[|]|]; [done| |done]. intros [= <-].
  case_decide as Hpre.
  - apply map_lookup_filter_None. right. intros n _. simpl. tauto.
  - destruct (s !! q) as [n|] eqn:Hq.
    + by apply map_lookup_filter_Some.
    + apply map_lookup_filter_None. by left.
Qed.

End CopyFacts.

(** ** Backup and rollback *)

Section Rollback.
Import FS PatchApplier.
Implicit Types (s : fs) (p q r : path).

(** Two directories of which none is inside the other have no entry in
    common. *)
Lemma apart_below (a b r : path) :
  ¬ a `prefix_of` b -> ¬ b `prefix_of` a -> ¬ a `prefix_of` b ++ r.
Proof.
  intros Hab Hba Hpre.
  destruct (prefix_weak_total a b (b ++ r)); [done|by apply prefix_app_r|done..].
Qed.

(** The optional [rmtree] of [restore_backup] leaves nothing at or below
    the directory, and touches nothing else. *)
Lemma restore_clears (local_dir : path) s :
  wf s ->
  (forall data, s !! local_dir ≠ Some (File data)) ->
  exists s',
    (if exists_ s local_dir then rmtree local_dir s else Ok s) = Ok s'
    /\ forall q, s' !! q = if decide (local_dir `prefix_of` q) then None else s !! q.
Proof.
  intros Hwf Hnofile. unfold exists_.
  destruct (s !! local_dir) as [[data|]|] eqn:Hdir.
  - by destruct (Hnofile data).
  - destruct (rmtree local_dir s) as [s'|e] eqn:Hrm.
    + exists s'. split; [done|]. intros q. by apply lookup_rmtree.
    + unfold rmtree in Hrm. by rewrite Hdir in Hrm.
  - exists s. split; [done|]. intros q. case_decide as Hpre; [|done].
    destruct Hpre as [r ->]. by apply wf_free_below.
Qed.

End Rollback.

(** C1: in a well-formed file system, take a snapshot of [local_dir]
    with [backup_local], kept outside [local_dir]; change the file
    system at will at and below [local_dir] (files changed, added or
    removed; the directory itself is still a directory, or is gone).
    Then [restore_backup] returns, every path below [local_dir] holds
    what it held when the snapshot was taken, nothing else is below
    [local_dir], and the rest of the file system is as the changes left
    it. *)
Theorem restore_after_backup (timestamp : string)
    (local_dir backup_base backup_path : FS.path) (s s1 s2 : FS.fs) :
  FS.wf s ->
  PatchApplier.backup_local timestamp local_dir backup_base s = Ok (backup_path, s1) ->
  ¬ local_dir `prefix_of` backup_path ->
  (forall p, ¬ local_dir `prefix_of` p -> s2 !! p = s1 !! p) ->
  FS.wf s2 ->
  (forall data, s2 !! local_dir ≠ Some (FS.File data)) ->
  exists s3,
    PatchApplier.restore_backup backup_path local_dir s2 = Ok s3
    /\ (forall r, s3 !! (local_dir ++ r) = s !! (local_dir ++ r))
    /\ (forall p, ¬ local_dir `prefix_of` p -> s3 !! p = s2 !! p).
Proof.
  intros Hwf Hbackup Hkept Hmut Hwf2 Hnofile.
  unfold PatchApplier.backup_local in Hbackup.
  destruct (FS.copytree local_dir _ s) as [s'|] eqn:Hcopy; [|done].
  simpl in Hbackup. injection Hbackup as Hpath <-.
  rewrite Hpath in Hcopy. clear Hpath.
  apply copytree_Ok_inv in Hcopy as (Hdir & Hfresh & _ & ->).
  assert (Hapart : ¬ backup_path `prefix_of` local_dir).
  { intros [r ->]. by rewrite (wf_free_below s backup_path r) in Hdir. }
  assert (Hsnap : forall r, s2 !! (backup_path ++ r) = s !! (local_dir ++ r)).
  { intros r. rewrite Hmut by by apply apart_below.
    apply lookup_copied_below; [done|]. intros r'. by apply wf_free_below. }
  assert (Hanc : forall q, q ∈ FS.ancestors local_dir -> s2 !! q = Some FS.Dir).
  { intros q [[r ->] Hlen]%elem_of_ancestors.
    assert (Hr : r ≠ []) by (intros ->; rewrite app_nil_r in Hlen; lia).
    rewrite Hmut.
    - rewrite lookup_copied_outside.
      + apply lookup_union_Some_l. apply (wf_ancestor s q r); [done|by rewrite Hdir|done].
      + intros Hpre. apply Hapart. by apply prefix_app_r.
    - intros Hpre%prefix_length. rewrite length_app in Hpre. destruct r; [done|].
      simpl in Hpre. lia. }
  destruct (restore_clears local_dir s2 Hwf2 Hnofile) as (s2' & Hclear & Hs2').
  assert (Hsrc : s2' !! backup_path = Some FS.Dir).
  { rewrite Hs2', decide_False by done.
    specialize (Hsnap []). rewrite !app_nil_r in Hsnap. by rewrite Hsnap. }
  assert (Hdst : forall r, s2' !! (local_dir ++ r) = None).
  { intros r. rewrite Hs2', decide_True; [done|by apply prefix_app_r]. }
  exists (copied backup_path local_dir s2'). split; [|split].
  - unfold PatchApplier.restore_backup. rewrite Hclear. simpl.
    apply copytree_apart; [done| |  |done].
    + specialize (Hdst []). by rewrite app_nil_r in Hdst.
    + intros q Hq. unfold FS.isfile. rewrite Hs2'. case_decide; [done|].
      by rewrite (Hanc q Hq).
  - intros r. rewrite lookup_copied_below by done.
    rewrite Hs2', decide_False by by apply apart_below. apply Hsnap.
  - intros p Hp. rewrite lookup_copied_outside by done.
    rewrite lookup_union, Hs2', decide_False by done.
    destruct (s2 !! p) as [n|] eqn:Hs2p; [by destruct (made_dirs local_dir !! p)|].
    rewrite lookup_made_dirs. case_decide as Hpre; [exfalso|done].
    enough (s2 !! p = Some FS.Dir) by congruence.
    apply Hanc. apply elem_of_ancestors. split; [done|].
    destruct (decide (length p < length local_dir)) as [|Hge]; [done|].
    destruct Hp. rewrite (prefix_length_eq p local_dir Hpre); [done|lia].
Qed.

Lemma check_wf_sound (s : FS.fs) : check_wf s = true -> FS.wf s.
Proof.
  intros Hcheck p x [n Hn]. unfold check_wf in Hcheck.
  rewrite forallb_forall in Hcheck.
  specialize (Hcheck (p ++ [x], n)). simpl in Hcheck.
  assert (Hdirname : FS.dirname (p ++ [x]) = p).
  { unfold FS.dirname. rewrite length_app. simpl.
    replace (length p + 1 - 1) with (length p) by lia. apply take_app_length. }
  rewrite Hdirname in Hcheck. unfold FS.isdir in Hcheck.
  destruct (p ++ [x]) eqn:Hpx; [by destruct p|].
  destruct (s !! p) as [[|]|]; try done;
    by (discriminate Hcheck; [apply list_elem_of_In, elem_of_map_to_list]).
Qed.

Lemma outside_agree (dir : FS.path) (s s' : FS.fs) :
  outside dir s' = outside dir s ->
  forall p, ¬ dir `prefix_of` p -> s' !! p = s !! p.
Proof.
  intros Heq p Hp.
  assert (Hlook : forall t : FS.fs, outside dir t !! p = t !! p).
  { intros t. unfold outside. destruct (t !! p) as [n|] eqn:Ht.
    - by apply map_lookup_filter_Some.
    - apply map_lookup_filter_None. by left. }
  by rewrite <-(Hlook s'), Heq, Hlook.
Qed.

Lemma restore_after_backup_witness :
  exists s3,
    PatchApplier.restore_backup ["backups"; "demo-20260101-120000"] ["skills"; "demo"]
      demo_broken = Ok s3
    /\ (forall r, s3 !! (["skills"; "demo"] ++ r) = demo_fs !! (["skills"; "demo"] ++ r))
    /\ (forall p, ¬ ["skills"; "demo"] `prefix_of` p -> s3 !! p = demo_broken !! p).
Proof.
  apply (restore_after_backup "20260101-120000" ["skills"; "demo"] ["backups"]
           ["backups"; "demo-20260101-120000"] demo_fs demo_snapshot demo_broken).
  - apply check_wf_sound. vm_compute. reflexivity.
  - apply (bool_decide_unpack _). vm_compute. exact I.
  - intros [k Hk]. discriminate Hk.
  - apply outside_agree. apply (bool_decide_unpack _). vm_compute. exact I.
  - apply check_wf_sound. vm_compute. reflexivity.
  - intros data Hdata.
    assert (Hdir : demo_broken !! ["skills"; "demo"] = Some FS.Dir) by reflexivity.
    congruence.
Defined.

(** ** Copying the upstream files *)

(** C2, where a directory is in the way: [copy_upstream_files] returns
    and lists [notes], but [local/notes] does not hold the upstream
    file, and [local/notes/notes], a file that the upstream does not
    have, has lost its content to it. *)
Theorem copy_upstream_files_into_directory :
  FS.walk_files ["upstream"] clash_fs = [["notes"]]
  /\ FS.walk_files ["local"] clash_fs = [["notes"; "notes"]]
  /\ PatchApplier.copy_upstream_files ["upstream"] ["local"] clash_fs
     = Ok ([["notes"]],
           <[ ["local"; "notes"; "notes"]
              := FS.File (list_byte_of_string "upstream notes") ]> clash_fs)
  /\ clash_fs !! ["local"; "notes"] = Some FS.Dir
  /\ clash_fs !! ["local"; "notes"; "notes"]
     = Some (FS.File (list_byte_of_string "local only")).
Proof.
  split; [reflexivity|]. split; [reflexivity|].
  split; [apply (bool_decide_unpack _); vm_compute; exact I|].
  split; reflexivity.
Qed.

(** Where no directory is in the way, the copy is what its docstring
    says. *)
Section Additive.
Import FS PatchApplier.
Implicit Types (s : fs) (p q r : path).

Lemma makedirs_frame exist_ok p s s' q :
  makedirs exist_ok p s = Ok s' ->
  s' !! q = s !! q \/ (s !! q = None /\ s' !! q = Some Dir /\ q `prefix_of` p).
Proof.
  intros [_ [(_ & _ & ->)|[_ ->]]]%makedirs_Ok_inv; [by left|].
  destruct (s !! q) as [n|] eqn:Hq.
  - left. by apply lookup_union_Some_l.
  - rewrite lookup_union_r, lookup_made_dirs by done.
    case_decide; [right|left]; done.
Qed.

Lemma copy2_Ok_inv src dst s s' :
  copy2 src dst s = Ok s' ->
  isdir s dst = false ->
  exists data, s !! src = Some (File data) /\ s' = <[dst := File data]> s.
Proof.
  unfold copy2. intros Hret Hdst. rewrite Hdst in Hret.
  destruct (exists_ s src && bool_decide (src = dst)); [done|].
  destruct (s !! src) as [[data|]|]; [|done..].
  exists data. split; [done|].
  destruct (s !! dst) as [[|]|]; [|done|];
    (destruct (isdir s (dirname dst)); [|done]); congruence.
Qed.

Variables (upstream_dir local_dir : path) (s0 : fs).
Hypothesis s0_wf : wf s0.
Hypothesis apart_ul : ¬ upstream_dir `prefix_of` local_dir.
Hypothesis apart_lu : ¬ local_dir `prefix_of` upstream_dir.
Hypothesis no_dir_in_the_way :
  forall r, r ∈ walk_files upstream_dir s0 -> s0 !! (local_dir ++ r) ≠ Some Dir.

Lemma walked_nonempty r : r ∈ walk_files upstream_dir s0 -> r ≠ [].
Proof.
  intros [Hdir [data Hfile]]%elem_of_walk_files ->. rewrite app_nil_r in Hfile. congruence.
Qed.

Lemma dirname_shorter p : p ≠ [] -> length (dirname p) < length p.
Proof. intros Hp. unfold dirname. rewrite length_take. destruct p; [done|]. simpl. lia. Qed.

Lemma upstream_not_local r r' : upstream_dir ++ r ≠ local_dir ++ r'.
Proof.
  intros Heq.
  destruct (prefix_weak_total upstream_dir local_dir (upstream_dir ++ r)); try done.
  - by apply prefix_app_r.
  - rewrite Heq. by apply prefix_app_r.
Qed.

(** No file of the walk lies below another one. *)
Lemma walked_not_below r r' :
  r ∈ walk_files upstream_dir s0 -> r' ∈ walk_files upstream_dir s0 ->
  ¬ local_dir ++ r `prefix_of` dirname (local_dir ++ r').
Proof.
  intros [_ [data Hr]]%elem_of_walk_files Hr' Hpre.
  pose proof (walked_nonempty r' Hr') as Hne.
  apply elem_of_walk_files in Hr' as [_ [data' Hr']].
  assert (Hlt : length (local_dir ++ r) < length (local_dir ++ r')).
  { apply prefix_length in Hpre.
    assert (Hne' : local_dir ++ r' ≠ []) by (by intros [_ ?]%app_eq_nil).
    pose proof (dirname_shorter _ Hne'). lia. }
  assert (Hpre' : local_dir ++ r `prefix_of` local_dir ++ r').
  { etrans; [exact Hpre|]. apply prefix_take. }
  apply prefix_app_inv in Hpre' as [k ->].
  rewrite !length_app in Hlt.
  assert (Hk : k ≠ []) by (intros ->; simpl in Hlt; lia).
  rewrite app_assoc in Hr'.
  rewrite (wf_ancestor s0 (upstream_dir ++ r) k) in Hr; [done..|by rewrite Hr'|done].
Qed.

Lemma copy_one_inv (done : list path) r s s' :
  r ∈ walk_files upstream_dir s0 ->
  (forall r', r' ∈ done -> r' ∈ walk_files upstream_dir s0) ->
  r ∉ done ->
  copy_inv upstream_dir local_dir s0 done s ->
  copy_one upstream_dir local_dir r s = Ok s' ->
  copy_inv upstream_dir local_dir s0 (done ++ [r]) s'.
Proof.
  intros Hr Hdone Hfresh [Hframe Hcopied Hdirs]. unfold copy_one.
  destruct (makedirs true (dirname (local_dir ++ r)) s) as [s1|] eqn:Hmk; [|done].
  simpl. intros Hcopy.
  pose proof (fun q => makedirs_frame _ _ _ _ q Hmk) as Hs1.
  pose proof Hr as [_ [data Hdata]]%elem_of_walk_files.
  assert (Hnodir : isdir s1 (local_dir ++ r) = false).
  { unfold isdir. destruct (s1 !! (local_dir ++ r)) as [[|]|] eqn:Htarget; try done.
    exfalso. destruct (Hs1 (local_dir ++ r)) as [Hsame|(_ & _ & Hpre)].
    - rewrite Htarget in Hsame. symmetry in Hsame.
      apply Hdirs in Hsame as [Hin0|(r' & Hr' & Hpre)].
      + by apply (no_dir_in_the_way r).
      + by apply (walked_not_below r r'); [|apply Hdone|].
    - by apply (walked_not_below r r). }
  apply copy2_Ok_inv in Hcopy as (data' & Hsrc & ->); [|done].
  assert (Hsrc0 : s !! (upstream_dir ++ r) = Some (File data)).
  { apply Hframe; [done|]. intros r' _. apply upstream_not_local. }
  assert (data' = data) as ->.
  { destruct (Hs1 (upstream_dir ++ r)) as [Hsame|(Hnone & _)]; congruence. }
  split.
  - intros p n Hp Hother.
    rewrite lookup_insert_ne by (intros <-; eapply Hother; [|done]; set_solver).
    assert (Hsp : s !! p = Some n) by (apply Hframe; [done|]; intros r' ?; apply Hother; set_solver).
    destruct (Hs1 p) as [Hsame|(Hnone & _)]; congruence.
  - intros r' [Hr'|Heq%list_elem_of_singleton]%elem_of_app; [|subst r'].
    + rewrite lookup_insert_ne by (intros Heq%(inj (app local_dir)); set_solver).
      pose proof (Hcopied r' Hr') as Hc.
      pose proof (Hdone r' Hr') as [_ [d' Hd']]%elem_of_walk_files.
      destruct (Hs1 (local_dir ++ r')) as [Hsame|(Hnone & _)]; congruence.
    + by rewrite lookup_insert_eq.
  - intros p Hp. destruct (decide (p = local_dir ++ r)) as [->|Hne].
    { by rewrite lookup_insert_eq in Hp. }
    rewrite lookup_insert_ne in Hp by done.
    destruct (Hs1 p) as [Hsame|(_ & _ & Hpre)].
    + rewrite Hsame in Hp. apply Hdirs in Hp as [Hp|(r' & Hr' & Hpre)]; [by left|].
      right. exists r'. split; [set_solver|done].
    + right. exists r. split; [set_solver|done].
Qed.

Lemma copy_loop_inv (rels done : list path) s copied s' :
  NoDup (done ++ rels) ->
  (forall r, r ∈ done ++ rels -> r ∈ walk_files upstream_dir s0) ->
  copy_inv upstream_dir local_dir s0 done s ->
  copy_loop upstream_dir local_dir rels done s = Ok (copied, s') ->
  copied = done ++ rels /\ copy_inv upstream_dir local_dir s0 (done ++ rels) s'.
Proof.
  revert done s. induction rels as [|r rels IH]; intros done s Hnd Hwalk Hinv; simpl.
  - intros [= <- <-]. by rewrite app_nil_r.
  - destruct (copy_one upstream_dir local_dir r s) as [s1|] eqn:Hone; [|done]. simpl.
    intros Hloop.
    replace (done ++ r :: rels) with ((done ++ [r]) ++ rels) in *
      by (by rewrite <-app_assoc).
    apply (IH (done ++ [r]) s1); [done..| |done]. clear IH Hloop.
    apply NoDup_app in Hnd as [[_ [Hfresh _]]%NoDup_app _].
    apply (copy_one_inv done r s); [| | |done..].
    + apply Hwalk, elem_of_app. left. apply elem_of_app. right. by left.
    + intros r' Hr'. apply Hwalk, elem_of_app. left. apply elem_of_app. by left.
    + intros Hr. apply (Hfresh r Hr). by left.
Qed.

(** X18: in a well-formed file system, with the two directories apart
    and no directory of the local side at the relative path of an
    upstream file, a call of [copy_upstream_files] that returns has
    returned the list of the upstream files, every upstream file is in
    the local directory at its relative path with its content, and every
    entry that is not the target of a copy (the local-only files among
    them) is what it was. *)
Lemma copy_upstream_files_additive (copied : list path) s' :
  copy_upstream_files upstream_dir local_dir s0 = Ok (copied, s') ->
  copied = walk_files upstream_dir s0
  /\ (forall r, r ∈ walk_files upstream_dir s0 ->
        s' !! (local_dir ++ r) = s0 !! (upstream_dir ++ r))
  /\ (forall p n,
        s0 !! p = Some n ->
        (forall r, r ∈ walk_files upstream_dir s0 -> p ≠ local_dir ++ r) ->
        s' !! p = Some n).
Proof.
  intros Hret. unfold copy_upstream_files in Hret.
  apply (copy_loop_inv _ [] s0) in Hret as [-> [Hframe Hcopied _]].
  - done.
  - apply NoDup_walk_files.
  - done.
  - split; [done|by intros r ?%elem_of_nil|]. intros p Hp. by left.
Qed.

End Additive.

(** The directories of the tests: the three upstream files arrive, and
    the file that only the local directory has stays as it is. *)
Lemma copy_upstream_files_fixture :
  exists copied s',
    PatchApplier.copy_upstream_files ["upstream"] ["local"] fixture_fs = Ok (copied, s')
    /\ copied = FS.walk_files ["upstream"] fixture_fs
    /\ s' !! ["local"; "SKILL.md"] = fixture_fs !! ["upstream"; "SKILL.md"]
    /\ s' !! ["local"; "new_script.py"] = fixture_fs !! ["upstream"; "new_script.py"]
    /\ s' !! ["local"; "scripts"; "helper.py"]
       = fixture_fs !! ["upstream"; "scripts"; "helper.py"]
    /\ s' !! ["local"; "old_file.txt"] = fixture_fs !! ["local"; "old_file.txt"].
Proof.
  assert (Hwalk : FS.walk_files ["upstream"] fixture_fs
                  = [["new_script.py"]; ["scripts"; "helper.py"]; ["SKILL.md"]])
    by (vm_compute; reflexivity).
  destruct (PatchApplier.copy_upstream_files ["upstream"] ["local"] fixture_fs)
    as [[copied s']|e] eqn:Hret.
  - exists copied, s'. split; [done|].
    apply copy_upstream_files_additive in Hret as (Hcopied & Hthere & Hframe).
    + split; [done|]. rewrite Hwalk in Hthere, Hframe.
      split; [exact (Hthere ["SKILL.md"] ltac:(repeat constructor))|].
      split; [exact (Hthere ["new_script.py"] ltac:(repeat constructor))|].
      split; [exact (Hthere ["scripts"; "helper.py"] ltac:(repeat constructor))|].
      assert (Hold : fixture_fs !! ["local"; "old_file.txt"]
                     = Some (FS.File (list_byte_of_string "this only exists locally")))
        by (vm_compute; reflexivity).
      rewrite Hold. apply Hframe; [exact Hold|].
      intros r Hr Heq. apply (inj (app ["local"]) _ r) in Heq. subst r.
      repeat (apply elem_of_cons in Hr as [Hr|Hr]; [discriminate Hr|]).
      by apply elem_of_nil in Hr.
    + apply check_wf_sound. vm_compute. reflexivity.
    + intros [k Hk]. discriminate Hk.
    + intros [k Hk]. discriminate Hk.
    + rewrite Hwalk. intros r Hr Hdir.
      repeat (apply elem_of_cons in Hr as [->|Hr]; [discriminate Hdir|]).
      by apply elem_of_nil in Hr.
  - assert (Hok : returns (PatchApplier.copy_upstream_files ["upstream"] ["local"] fixture_fs)
                  = true) by (vm_compute; reflexivity).
    by rewrite Hret in Hok.
Defined.

(** * Further properties *)

(** ** The registry, entry by entry *)

Section RegistryMore.
Import Registry.

Lemma find_named_app name (l l' : list entry) :
  find_named name (l ++ l')
  = match find_named name l with
    | Ok None => find_named name l'
    | r => r
    end.
Proof.
  induction l as [|e l IH]; simpl; [done|].
  destruct (e !! "name") as [n|]; [|done]. by case_bool_decide.
Qed.

(** A search that finds nothing has seen a name on every entry, and
    never the name it looks for. *)
Lemma find_named_None name (l : list entry) :
  find_named name l = Ok None <->
  Forall (fun e : entry => exists n, e !! "name" = Some n /\ n ≠ name) l.
Proof.
  induction l as [|e l IH]; simpl; [by split|].
  rewrite Forall_cons. destruct (e !! "name") as [n|] eqn:Hn.
  - case_bool_decide as Hname.
    + split; [done|]. intros [(n' & [= <-] & Hne) _]. done.
    + rewrite IH. split; [eauto|tauto].
  - split; [done|]. by intros [(n' & ? & _) _].
Qed.

Lemma find_named_Some name (l : list entry) e :
  find_named name l = Ok (Some e) -> e ∈ l /\ e !! "name" = Some name.
Proof.
  induction l as [|e0 l IH]; simpl; [done|].
  destruct (e0 !! "name") as [n|] eqn:Hn; [|done]. case_bool_decide as Hname.
  - intros [= ->]. split; [by left|congruence].
  - intros [Hin He]%IH. split; [by right|done].
Qed.

Lemma not_elem_of_entry_names name (l : list entry) :
  find_named name l = Ok None -> name ∉ entry_names l.
Proof.
  rewrite find_named_None. unfold entry_names. intros Hall Hin.
  apply list_elem_of_omap in Hin as (e & He & Hname).
  rewrite Forall_forall in Hall. destruct (Hall e He) as (n & Hn & Hne). congruence.
Qed.

(** What the comprehension of [remove] keeps. *)
Lemma without_spec name (l kept : list entry) :
  without name l = Ok kept ->
  kept = filter (fun e : entry => e !! "name" ≠ Some name) l
  /\ Forall (fun e : entry => is_Some (e !! "name")) l.
Proof.
  revert kept. induction l as [|e l IH]; intros kept; simpl.
  - intros [= <-]. done.
  - destruct (e !! "name") as [n|] eqn:Hn; [|done].
    destruct (without name l) as [rest|] eqn:Hrest; [|done]. simpl.
    destruct (IH rest eq_refl) as [-> Hall]. intros [= <-]. split.
    + rewrite filter_cons, Hn. case_bool_decide as Hname.
      * rewrite decide_True; [done|congruence].
      * rewrite decide_False; [done|]. intros Hne. apply Hne. congruence.
    + constructor; [by rewrite Hn|done].
Qed.

Lemma without_absent name (l : list entry) :
  find_named name l = Ok None -> without name l = Ok l.
Proof.
  rewrite find_named_None. induction 1 as [|e l (n & Hn & Hne) Hall IH]; simpl; [done|].
  rewrite Hn, IH. simpl. by rewrite bool_decide_eq_true_2.
Qed.

Lemma find_named_filter name other (l : list entry) :
  Forall (fun e : entry => is_Some (e !! "name")) l ->
  find_named other (filter (fun e : entry => e !! "name" ≠ Some name) l)
  = if decide (other = name) then Ok None else find_named other l.
Proof.
  induction 1 as [|e l [n Hn] Hall IH]; [by case_decide|].
  rewrite filter_cons. destruct (decide (e !! "name" ≠ Some name)) as [Hkeep|Hdrop].
  - simpl. rewrite !Hn, IH. case_bool_decide as Hname; [|done].
    case_decide as Hother; [|done]. subst. by rewrite Hn in Hkeep.
  - rewrite IH. simpl. rewrite Hn.
    assert (n = name) as ->.
    { destruct (decide (n = name)) as [|Hne]; [done|]. destruct Hdrop. congruence. }
    case_decide as Hother; [done|]. by rewrite bool_decide_eq_false_2.
Qed.

(** Fields that are all keys of the entry are assigned one after the
    other. *)
Lemma apply_fields_known (fields : list (string * string)) (e : entry) :
  Forall (fun kv => is_Some (e !! kv.1)) fields ->
  apply_fields fields e = Ok (assign_fields fields e).
Proof.
  revert e. induction fields as [|[k v] fields IH]; intros e Hall; [done|].
  apply Forall_cons in Hall as [[x Hx] Hall]. simpl in *. rewrite Hx.
  apply IH. eapply Forall_impl; [exact Hall|]. intros [k' v'] [y Hy]. simpl.
  destruct (decide (k = k')) as [->|Hne].
  - rewrite lookup_insert_eq. eauto.
  - rewrite lookup_insert_ne by done. eauto.
Qed.

Lemma assign_fields_other (fields : list (string * string)) (e : entry) k :
  k ∉ fields.*1 -> assign_fields fields e !! k = e !! k.
Proof.
  revert e. induction fields as [|[k0 v0] fields IH]; intros e Hk; [done|].
  rewrite fmap_cons, not_elem_of_cons in Hk. destruct Hk as [Hne Hk].
  unfold assign_fields in *. simpl. rewrite IH by done. by rewrite lookup_insert_ne.
Qed.

Lemma assign_fields_set (fields : list (string * string)) (e : entry) k v :
  NoDup fields.*1 -> (k, v) ∈ fields -> assign_fields fields e !! k = Some v.
Proof.
  revert e. induction fields as [|[k0 v0] fields IH]; intros e Hnd Hin.
  - by apply elem_of_nil in Hin.
  - rewrite fmap_cons in Hnd. apply NoDup_cons in Hnd as [Hk0 Hnd].
    apply elem_of_cons in Hin as [[= -> ->]|Hin].
    + change (assign_fields fields (<[k0 := v0]> e) !! k0 = Some v0).
      rewrite assign_fields_other by done. apply lookup_insert_eq.
    + by apply (IH (<[k0 := v0]> e)).
Qed.

End RegistryMore.

Section RegistryOps.
Import Registry.

Lemma read_contents (st : store) : _read st = (Ok (registry_contents st), st).
Proof. by destruct st. Qed.

(** What a call of [add] that returns has done. *)
Lemma add_Ok_inv now name github_repo repo_subpath local_path last_checked_commit
    baseline_commit adaptation_notes adaptation_diff (st st' : store) (e : entry) :
  add now name github_repo repo_subpath local_path last_checked_commit baseline_commit
    adaptation_notes adaptation_diff st = (Ok e, st') ->
  find_named name (skills (registry_contents st)) = Ok None
  /\ e !! "name" = Some name
  /\ st' = Some (Data (version (registry_contents st))
                  (skills (registry_contents st) ++ [e])).
Proof.
  unfold add. unfold mbind at 1, M_bind at 1. rewrite read_contents.
  unfold mbind at 1, M_bind at 1, lift.
  destruct (find_named name (skills (registry_contents st))) as [[found|]|]; [done| |done].
  unfold mbind, M_bind, _write, mret, M_ret. intros [= <- <-]. done.
Qed.

Lemma remove_Ok_inv name (st st' : store) :
  remove name st = (Ok tt, st') ->
  Forall (fun e : entry => is_Some (e !! "name")) (skills (registry_contents st))
  /\ st' = Some (Data (version (registry_contents st))
                  (filter (fun e : entry => e !! "name" ≠ Some name)
                     (skills (registry_contents st)))).
Proof.
  unfold remove. unfold mbind at 1, M_bind at 1. rewrite read_contents.
  unfold mbind, M_bind, lift, _write.
  destruct (without name (skills (registry_contents st))) as [kept|] eqn:Hkept; [|done].
  apply without_spec in Hkept as [-> Hall]. intros [= <-]. done.
Qed.

Lemma get_contents name (st : store) :
  get name st = (find_named name (skills (registry_contents st)), st).
Proof.
  unfold get. unfold mbind, M_bind. rewrite read_contents. unfold lift.
  by destruct (find_named name (skills (registry_contents st))).
Qed.

Lemma entry_names_filter name (l : list entry) :
  entry_names (filter (fun e : entry => e !! "name" ≠ Some name) l)
  `sublist_of` entry_names l.
Proof.
  unfold entry_names. induction l as [|e l IH]; [done|].
  rewrite filter_cons. case_decide; simpl; destruct (e !! "name"); try done.
  - by constructor.
  - by constructor.
Qed.

Lemma update_loop_known now name fields d (before pre post : list entry) e st :
  find_named name pre = Ok None ->
  e !! "name" = Some name ->
  Forall (fun kv => is_Some (e !! kv.1)) fields ->
  update_loop now name fields d before (pre ++ e :: post) st
  = (Ok (<["last_updated_at" := now]> (assign_fields fields e)),
     Some (Data (version d)
             ((before ++ pre) ++ <["last_updated_at" := now]> (assign_fields fields e)
              :: post))).
Proof.
  intros Hpre Hname Hfields. revert before.
  induction pre as [|e0 pre IH]; intros before; simpl.
  - rewrite Hname, bool_decide_eq_true_2 by done.
    unfold mbind, M_bind, lift. rewrite (apply_fields_known fields e Hfields).
    by rewrite app_nil_r.
  - simpl in Hpre. destruct (e0 !! "name") as [n|]; [|done].
    case_bool_decide; [done|]. rewrite (IH Hpre (before ++ [e0])).
    by rewrite <-(app_assoc before [e0] pre).
Qed.

Lemma update_loop_missing now name fields d (before l : list entry) st :
  find_named name l = Ok None ->
  update_loop now name fields d before l st
  = (Raise (KeyError ("Skill '" +:+ name +:+ "' not found")), st).
Proof.
  revert before. induction l as [|e l IH]; intros before; simpl; [done|].
  destruct (e !! "name") as [n|]; [|done]. case_bool_decide; [done|]. apply IH.
Qed.

End RegistryOps.

(** X1: when no entry of the registry has the name (the file may be
    absent), [add] returns the new entry, the file holds the old entries
    followed by the new one, [get] with the name returns that entry, and
    the entry holds the name, the two revisions as given and the time of
    the call as both of its dates. *)
Theorem add_then_get (now name github_repo repo_subpath local_path last_checked_commit
    baseline_commit adaptation_notes adaptation_diff : string) (st : Registry.store) :
  Registry.find_named name (Registry.skills (registry_contents st)) = Ok None ->
  exists e st',
    Registry.add now name github_repo repo_subpath local_path last_checked_commit
      baseline_commit adaptation_notes adaptation_diff st = (Ok e, st')
    /\ st' = Some (Registry.Data (Registry.version (registry_contents st))
                     (Registry.skills (registry_contents st) ++ [e]))
    /\ Registry.get name st' = (Ok (Some e), st')
    /\ e !! "name" = Some name
    /\ e !! "last_checked_commit" = Some last_checked_commit
    /\ e !! "baseline_commit" = Some baseline_commit
    /\ e !! "registered_at" = Some now
    /\ e !! "last_updated_at" = Some now.
Proof.
  intros Hfree.
  exists (new_entry now name github_repo repo_subpath local_path last_checked_commit
            baseline_commit adaptation_notes adaptation_diff).
  eexists. split.
  - unfold Registry.add. unfold mbind at 1, Registry.M_bind at 1. rewrite read_contents.
    unfold mbind at 1, Registry.M_bind at 1, Registry.lift. rewrite Hfree.
    reflexivity.
  - assert (Hkeys : forall k v,
              (k, v) ∈ [("name", name); ("last_checked_commit", last_checked_commit);
                        ("baseline_commit", baseline_commit); ("registered_at", now);
                        ("last_updated_at", now)] ->
              new_entry now name github_repo repo_subpath local_path last_checked_commit
                baseline_commit adaptation_notes adaptation_diff !! k = Some v).
    { intros k v Hin. unfold new_entry. simpl.
      repeat (apply elem_of_cons in Hin as [[= -> ->]|Hin];
              [by repeat (rewrite lookup_insert_ne by done); rewrite lookup_insert_eq|]).
      by apply elem_of_nil in Hin. }
    unfold new_entry in *. split; [reflexivity|]. split.
    + rewrite get_contents. unfold registry_contents at 1.
      cbn [Registry.skills]. rewrite find_named_app, Hfree.
      cbn [Registry.find_named]. rewrite (Hkeys "name" name) by repeat constructor.
      by rewrite bool_decide_eq_true_2.
    + repeat split; apply Hkeys; repeat constructor.
Qed.

(** X2: a call of [add] that returns leaves every other name as it was:
    [get] finds for it what it found before. *)
Theorem add_keeps_others (now name github_repo repo_subpath local_path
    last_checked_commit baseline_commit adaptation_notes adaptation_diff other : string)
    (st st' : Registry.store) (e : Registry.entry) :
  Registry.add now name github_repo repo_subpath local_path last_checked_commit
    baseline_commit adaptation_notes adaptation_diff st = (Ok e, st') ->
  other ≠ name ->
  (Registry.get other st').1 = (Registry.get other st).1.
Proof.
  intros (Hfree & Hname & ->)%add_Ok_inv Hother. rewrite !get_contents. simpl.
  rewrite find_named_app.
  destruct (Registry.find_named other (Registry.skills (registry_contents st)))
    as [[found|]|]; [done| |done].
  simpl. rewrite Hname. by rewrite bool_decide_eq_false_2.
Qed.

(** X3: [remove] with a name that no entry has returns and keeps the
    entries as they are; on an absent file it writes the empty registry. *)
Theorem remove_absent_name (name : string) (st : Registry.store) :
  Registry.find_named name (Registry.skills (registry_contents st)) = Ok None ->
  Registry.remove name st = (Ok tt, Some (registry_contents st)).
Proof.
  intros Hfree. unfold Registry.remove. unfold mbind at 1, Registry.M_bind at 1.
  rewrite read_contents. unfold mbind, Registry.M_bind, Registry.lift.
  rewrite (without_absent name _ Hfree). unfold Registry._write.
  by destruct (registry_contents st).
Qed.

(** X4: after a call of [remove] that returns, [get] with the name finds
    nothing, and finds for every other name what it found before. *)
Theorem remove_then_get (name other : string) (st st' : Registry.store) :
  Registry.remove name st = (Ok tt, st') ->
  Registry.get name st' = (Ok None, st')
  /\ (other ≠ name -> (Registry.get other st').1 = (Registry.get other st).1).
Proof.
  intros [Hall ->]%remove_Ok_inv. rewrite !get_contents. simpl.
  rewrite !find_named_filter by done. rewrite decide_True by done.
  split; [done|]. intros Hother. by rewrite decide_False.
Qed.

(** X5: when no field is called [self] or [name] (such a keyword does
    not pass the call) and the first entry named [name] has every key
    of [fields], [update] returns the entry with the fields assigned in
    their order and the time of the call as ["last_updated_at"], and
    writes the registry with that entry in the place of the old one: a
    field listed once holds its new value, a key that is not listed
    holds its old one; the name of the entry among them. *)
Theorem update_assigns (now name : string) (fields : list (string * string))
    (d : Registry.data) (pre post : list Registry.entry) (e : Registry.entry) :
  Forall (fun kv => kv.1 ≠ "self" /\ kv.1 ≠ "name") fields ->
  Registry.skills d = pre ++ e :: post ->
  Registry.find_named name pre = Ok None ->
  e !! "name" = Some name ->
  Forall (fun kv => is_Some (e !! kv.1)) fields ->
  exists e',
    Registry.update now name fields (Some d)
    = (Ok e', Some (Registry.Data (Registry.version d) (pre ++ e' :: post)))
    /\ e' !! "last_updated_at" = Some now
    /\ (forall k v, NoDup fields.*1 -> (k, v) ∈ fields -> k ≠ "last_updated_at" ->
          e' !! k = Some v)
    /\ (forall k, k ∉ fields.*1 -> k ≠ "last_updated_at" -> e' !! k = e !! k)
    /\ e' !! "name" = Some name.
Proof.
  intros Hbound Hskills Hpre Hname Hfields.
  assert (Hkept : forall k, k ∉ fields.*1 -> k ≠ "last_updated_at" ->
            <["last_updated_at" := now]> (assign_fields fields e) !! k = e !! k).
  { intros k Hin Hk. rewrite lookup_insert_ne by done. by apply assign_fields_other. }
  exists (<["last_updated_at" := now]> (assign_fields fields e)).
  split; [|split; [|split; [|split]]].
  - rewrite update_bound by done. cbn [registry_contents].
    rewrite Hskills. by rewrite (update_loop_known now name fields d [] pre post e).
  - apply lookup_insert_eq.
  - intros k v Hnd Hin Hk. rewrite lookup_insert_ne by done. by apply assign_fields_set.
  - exact Hkept.
  - rewrite Hkept; [done| |done].
    intros (kv & Hk & Hin)%list_elem_of_fmap.
    rewrite Forall_forall in Hbound. destruct (Hbound kv Hin) as [_ Hne]. congruence.
Qed.

(** X6: when no field is called [self] or [name] and no entry has the
    name, [update] raises the [KeyError] of a skill that is not found
    and writes nothing. *)
Theorem update_missing_name (now name : string) (fields : list (string * string))
    (st : Registry.store) :
  Forall (fun kv => kv.1 ≠ "self" /\ kv.1 ≠ "name") fields ->
  Registry.find_named name (Registry.skills (registry_contents st)) = Ok None ->
  Registry.update now name fields st
  = (Raise (KeyError ("Skill '" +:+ name +:+ "' not found")), st).
Proof.
  intros Hbound Hfree. rewrite update_bound by done. by apply update_loop_missing.
Qed.

(** X29: a field called [self] or [name] does not pass the call of
    [update(name, **fields)]: a [TypeError] is raised before the body
    runs, whatever the registry holds, and nothing is written; an entry
    cannot be renamed through [update]. *)
Theorem update_reserved_field (now name : string) (fields : list (string * string))
    (st : Registry.store) :
  Exists (fun kv => kv.1 = "self" \/ kv.1 = "name") fields ->
  exists msg, Registry.update now name fields st = (Raise (TypeError msg), st).
Proof.
  intros [msg Hmsg]%bind_keywords_Raise. exists msg.
  unfold Registry.update. unfold mbind at 1, Registry.M_bind at 1, Registry.lift.
  by rewrite Hmsg.
Qed.

(** X7: [add] and [remove] keep the names of the registry distinct. *)
Theorem names_stay_distinct (now name github_repo repo_subpath local_path
    last_checked_commit baseline_commit adaptation_notes adaptation_diff : string)
    (st st' : Registry.store) (e : Registry.entry) :
  NoDup (entry_names (Registry.skills (registry_contents st))) ->
  (Registry.add now name github_repo repo_subpath local_path last_checked_commit
     baseline_commit adaptation_notes adaptation_diff st = (Ok e, st')
   \/ Registry.remove name st = (Ok tt, st')) ->
  NoDup (entry_names (Registry.skills (registry_contents st'))).
Proof.
  intros Hnd [(Hfree & Hname & ->)%add_Ok_inv|[_ ->]%remove_Ok_inv]; simpl.
  - unfold entry_names. rewrite omap_app. simpl. rewrite Hname.
    apply NoDup_app. split; [done|]. split; [|apply NoDup_singleton].
    intros n Hn Heq%list_elem_of_singleton. subst n.
    by apply (not_elem_of_entry_names name _ Hfree).
  - apply (sublist_NoDup _ _ Hnd), entry_names_filter.
Qed.

Lemma add_then_get_witness :
  exists e st',
    Registry.add "2026-01-02T00:00:00+00:00" "fresh" "https://github.com/x/y" "skills/fresh"
      "/tmp/fresh" "def456" "def456" "" "" (Some sample_registry) = (Ok e, st')
    /\ Registry.get "fresh" st' = (Ok (Some e), st')
    /\ e !! "baseline_commit" = e !! "last_checked_commit".
Proof.
  destruct (add_then_get "2026-01-02T00:00:00+00:00" "fresh" "https://github.com/x/y"
              "skills/fresh" "/tmp/fresh" "def456" "def456" "" "" (Some sample_registry))
    as (e & st' & Hadd & _ & Hget & _ & Hlast & Hbase & _).
  - reflexivity.
  - exists e, st'. split; [exact Hadd|]. split; [exact Hget|]. by rewrite Hlast, Hbase.
Defined.

Lemma add_keeps_others_witness :
  (Registry.get "dup" (Some grown_registry)).1 = (Registry.get "dup" (Some sample_registry)).1.
Proof.
  apply (add_keeps_others "2026-01-02T00:00:00+00:00" "fresh" "https://github.com/x/y"
           "skills/fresh" "/tmp/fresh" "def456" "def456" "" "" "dup"
           (Some sample_registry) (Some grown_registry)
           (new_entry "2026-01-02T00:00:00+00:00" "fresh" "https://github.com/x/y"
              "skills/fresh" "/tmp/fresh" "def456" "def456" "" "")).
  - reflexivity.
  - discriminate.
Defined.

Lemma remove_absent_name_witness :
  Registry.remove "ghost" (Some sample_registry) = (Ok tt, Some sample_registry)
  /\ Registry.remove "ghost" None = (Ok tt, Some (Registry.Data 1 [])).
Proof.
  split.
  - apply (remove_absent_name "ghost" (Some sample_registry)). reflexivity.
  - apply (remove_absent_name "ghost" None). reflexivity.
Defined.

Lemma remove_then_get_witness :
  Registry.get "fresh" (Some sample_registry) = (Ok None, Some sample_registry)
  /\ ("dup" ≠ "fresh" ->
      (Registry.get "dup" (Some sample_registry)).1
      = (Registry.get "dup" (Some grown_registry)).1).
Proof.
  apply (remove_then_get "fresh" "dup" (Some grown_registry) (Some sample_registry)).
  vm_compute. reflexivity.
Defined.

Lemma update_assigns_witness :
  exists e',
    Registry.update "2026-01-03T00:00:00+00:00" "dup"
      [("last_checked_commit", "new"); ("adaptation_notes", "new notes")]
      (Some sample_registry)
    = (Ok e', Some (Registry.Data 1 [e']))
    /\ e' !! "last_checked_commit" = Some "new"
    /\ e' !! "baseline_commit" = Some "abc".
Proof.
  destruct (update_assigns "2026-01-03T00:00:00+00:00" "dup"
              [("last_checked_commit", "new"); ("adaptation_notes", "new notes")]
              sample_registry [] [] sample_entry)
    as (e' & Hupdate & _ & Hset & Hkept & _).
  - repeat constructor; discriminate.
  - reflexivity.
  - reflexivity.
  - reflexivity.
  - repeat constructor; vm_compute; eauto.
  - exists e'. split; [exact Hupdate|]. split.
    + apply Hset; [|left|discriminate].
      apply (bool_decide_unpack _). vm_compute. exact I.
    + rewrite Hkept; [reflexivity| |discriminate].
      intros Hin. repeat (apply elem_of_cons in Hin as [Hin|Hin]; [discriminate Hin|]).
      by apply elem_of_nil in Hin.
Defined.

Lemma update_missing_name_witness :
  Registry.update "2026-01-03T00:00:00+00:00" "ghost" [("adaptation_notes", "nope")]
    (Some sample_registry)
  = (Raise (KeyError "Skill 'ghost' not found"), Some sample_registry).
Proof.
  apply (update_missing_name "2026-01-03T00:00:00+00:00" "ghost"
           [("adaptation_notes", "nope")] (Some sample_registry)).
  - repeat constructor; discriminate.
  - reflexivity.
Defined.

Lemma update_reserved_field_witness :
  exists msg,
    Registry.update "2026-01-03T00:00:00+00:00" "dup"
      [("adaptation_notes", "renamed"); ("name", "other")] (Some sample_registry)
    = (Raise (TypeError msg), Some sample_registry).
Proof.
  apply (update_reserved_field "2026-01-03T00:00:00+00:00" "dup"
           [("adaptation_notes", "renamed"); ("name", "other")] (Some sample_registry)).
  right. left. by right.
Defined.

Lemma names_stay_distinct_witness :
  NoDup (entry_names (Registry.skills grown_registry)).
Proof.
  apply (names_stay_distinct "2026-01-02T00:00:00+00:00" "fresh" "https://github.com/x/y"
           "skills/fresh" "/tmp/fresh" "def456" "def456" "" ""
           (Some sample_registry) (Some grown_registry)
           (new_entry "2026-01-02T00:00:00+00:00" "fresh" "https://github.com/x/y"
              "skills/fresh" "/tmp/fresh" "def456" "def456" "" "")).
  - apply (bool_decide_unpack _). vm_compute. exact I.
  - left. reflexivity.
Defined.

(** ** The upstream checker, step by step *)

Section MachineSteps.
Import FS PathString Machine UpstreamCheck.

(** What a sequence that returns went through. *)
Lemma bind_Ok_inv {A B} (m : M A) (k : A -> M B) (w w' : world) (b : B) :
  (m ≫= k) w = (Ok b, w') ->
  exists a w1, m w = (Ok a, w1) /\ k a w1 = (Ok b, w').
Proof.
  unfold mbind, M_bind. destruct (m w) as [[a|e] w1]; [eauto|done].
Qed.

Lemma bind_Ok {A B} (m : M A) (k : A -> M B) (w w1 : world) (a : A) :
  m w = (Ok a, w1) -> (m ≫= k) w = k a w1.
Proof. intros Hm. unfold mbind, M_bind. by rewrite Hm. Qed.

Lemma bind_Raise {A B} (m : M A) (k : A -> M B) (w w1 : world) (e : exn) :
  m w = (Raise e, w1) -> (m ≫= k) w = (Raise e, w1).
Proof. intros Hm. unfold mbind, M_bind. by rewrite Hm. Qed.

Lemma try_except_Ok {A} (m : M A) (handler : string -> M A) (w w1 : world) (a : A) :
  m w = (Ok a, w1) -> try_except m handler w = (Ok a, w1).
Proof. intros Hm. unfold try_except. by rewrite Hm. Qed.

Lemma try_except_Ok_inv {A} (m : M A) (handler : string -> M A) (w w' : world) (a : A) :
  try_except m handler w = (Ok a, w') ->
  m w = (Ok a, w')
  \/ exists stderr w1, m w = (Raise (CalledProcessError stderr), w1)
                       /\ handler stderr w1 = (Ok a, w').
Proof.
  unfold try_except. destruct (m w) as [[a0|[]] w1]; eauto.
Qed.

(** What [mkdtemp] has done when it returns: one new directory, in the
    temporary directory, with the prefix in its name. *)
Lemma mkdtemp_Ok_inv (prefix dir : string) (w w1 : world) :
  mkdtemp prefix w = (Ok dir, w1) ->
  (exists name, dir = join (gettempdir w) (prefix +:+ name))
  /\ files w !! parse_path dir = None
  /\ files w1 = <[parse_path dir := Dir]> (files w)
  /\ repos w1 = repos w /\ remotes w1 = remotes w /\ gettempdir w1 = gettempdir w.
Proof.
  unfold mkdtemp. generalize (candidates w) as names.
  induction names as [|name names IH]; simpl; [done|].
  unfold exists_, isdir.
  destruct (files w !! parse_path (join (gettempdir w) (prefix +:+ name))) eqn:Hfree;
    [exact IH|].
  destruct (files w !! dirname (parse_path (join (gettempdir w) (prefix +:+ name))))
    as [[|]|]; [done| |done].
  intros [= <- <-]. split; [eauto|]. done.
Qed.

Lemma git_clone_Ok_inv (depth : nat) (repo_url dir : string) (w w' : world) :
  git_clone depth repo_url dir w = (Ok tt, w') ->
  exists r,
    remotes w repo_url = Served r
    /\ files w' = graft (parse_path dir) (worktree r) ∪ files w
    /\ repos w' = <[parse_path dir := take depth (history r)]> (repos w)
    /\ remotes w' = remotes w /\ gettempdir w' = gettempdir w
    /\ candidates w' = candidates w.
Proof.
  unfold git_clone. destruct depth as [|depth]; [done|].
  destruct (remotes w repo_url) as [r|stderr]; [|done].
  intros [= <-]. exists r. done.
Qed.

(** What [clone_to_temp] has done when it returns. *)
Lemma clone_to_temp_Ok_inv (repo_url dir : string) (depth : nat) (w w' : world) :
  clone_to_temp repo_url depth w = (Ok dir, w') ->
  exists r name,
    remotes w repo_url = Served r
    /\ dir = join (gettempdir w) ("skill-sync-" +:+ name)
    /\ files w !! parse_path dir = None
    /\ files w' = graft (parse_path dir) (worktree r) ∪ <[parse_path dir := Dir]> (files w)
    /\ repos w' = <[parse_path dir := take depth (history r)]> (repos w)
    /\ remotes w' = remotes w /\ gettempdir w' = gettempdir w.
Proof.
  unfold clone_to_temp.
  intros (dir0 & w1 & Htmp & (u & w2 & Hclone & Hret)%bind_Ok_inv)%bind_Ok_inv.
  injection Hret as -> ->. destruct u.
  apply mkdtemp_Ok_inv in Htmp as ([name ->] & Hfree & Hfiles & Hrepos & Hremotes & Htmp).
  apply git_clone_Ok_inv in Hclone as (r & Hserved & Hfiles' & Hrepos' & Hremotes' & Htmp' & _).
  exists r, name. rewrite <-Hremotes, Hserved, Hfiles', Hrepos', Hfiles, Hrepos.
  rewrite Hremotes', Htmp', Hremotes, Htmp. done.
Qed.

(** The directory of a clone whose work tree has no file for a root is
    a directory, and the clone holds the history that was asked for. *)
Lemma cloned_repo_at (r : remote_repo) (dir : string) (depth : nat) (w w' : world) :
  (forall data, worktree r !! [] ≠ Some (File data)) ->
  files w' = graft (parse_path dir) (worktree r) ∪ <[parse_path dir := Dir]> (files w) ->
  repos w' = <[parse_path dir := take depth (history r)]> (repos w) ->
  files w' !! parse_path dir = Some Dir
  /\ repo_at w' dir = Some (take depth (history r)).
Proof.
  intros Hroot Hfiles Hrepos.
  assert (Hdir : files w' !! parse_path dir = Some Dir).
  { rewrite Hfiles, lookup_union.
    pose proof (lookup_graft (parse_path dir) (worktree r) []) as Hgraft.
    rewrite app_nil_r in Hgraft. rewrite Hgraft, lookup_insert_eq.
    destruct (worktree r !! []) as [[data|]|] eqn:Hwt; [by destruct (Hroot data)|done..]. }
  split; [done|]. unfold repo_at, isdir. by rewrite Hdir, Hrepos, lookup_insert_eq.
Qed.

Lemma string_prefix_app (a b : string) : String.prefix a (a +:+ b) = true.
Proof.
  induction a as [|c a IH]; simpl; [by destruct b|].
  by destruct (ascii_dec c c).
Qed.

(** The name that [clone_to_temp] returns starts with the letters of the
    temporary directory and is not empty. *)
Lemma temp_name_accepted (tmp name : string) :
  String.prefix tmp (join tmp ("skill-sync-" +:+ name)) = true
  /\ join tmp ("skill-sync-" +:+ name) ≠ "".
Proof.
  unfold join. simpl. case_bool_decide as Htmp; simpl.
  - subst tmp. done.
  - destruct (String.prefix "/" (String.rev tmp)).
    + split; [apply string_prefix_app|]. by destruct tmp.
    + split; [apply string_prefix_app|]. by destruct tmp.
Qed.

End MachineSteps.

Section CheckUpstreamShapes.
Import FS PathString Machine UpstreamCheck.

Lemma check_upstream_shape (repo_url repo_subpath last_checked_commit : string)
    (w w' : world) (res : check_result) :
  check_upstream repo_url repo_subpath last_checked_commit w = (Ok res, w') ->
  check_shape repo_subpath last_checked_commit res.
Proof.
  unfold check_upstream.
  intros ([dir|stderr] & w1 & _ & Hrest)%bind_Ok_inv.
  - apply bind_Ok_inv in Hrest as (new & w2 & _ & Hrest).
    case_bool_decide as Hnew; simpl in Hrest.
    + apply bind_Ok_inv in Hrest as ([] & w3 & _ & Hrest).
      apply try_except_Ok_inv in Hrest as [Hdeep|(stderr & w4 & _ & Hshallow)].
      * apply bind_Ok_inv in Hdeep as (dir' & w4 & _ & Hdeep).
        apply bind_Ok_inv in Hdeep as (log & w5 & _ & Hdeep).
        injection Hdeep as <- _. by constructor.
      * apply bind_Ok_inv in Hshallow as (dir' & w5 & _ & Hshallow).
        injection Hshallow as <- _. by constructor.
    + injection Hrest as <- _. subst new. constructor.
  - injection Hrest as <- _. constructor.
Qed.

End CheckUpstreamShapes.

(** X8: a clone made by [clone_to_temp] (of a repository whose work
    tree has no file for a root) is removed by [cleanup]: the call
    returns, the directory and the clone are gone, and every path that
    is not below the directory holds what it held before the clone. *)
Theorem clone_then_cleanup (repo_url dir : string) (depth : nat) (w w1 : Machine.world) :
  UpstreamCheck.clone_to_temp repo_url depth w = (Ok dir, w1) ->
  (forall r data,
     Machine.remotes w repo_url = Machine.Served r ->
     Machine.worktree r !! [] ≠ Some (FS.File data)) ->
  exists w2,
    UpstreamCheck.cleanup dir w1 = (Ok tt, w2)
    /\ Machine.files w2 !! PathString.parse_path dir = None
    /\ Machine.repo_at w2 dir = None
    /\ (forall q, ¬ PathString.parse_path dir `prefix_of` q ->
          Machine.files w2 !! q = Machine.files w !! q).
Proof.
  intros (r & name & Hserved & -> & Hfree & Hfiles & Hrepos & _ & Htmp)%clone_to_temp_Ok_inv
    Hroot.
  set (dir := PathString.join (Machine.gettempdir w) ("skill-sync-" +:+ name)) in *.
  destruct (cloned_repo_at r dir depth w w1 (fun data => Hroot r data Hserved) Hfiles Hrepos)
    as [Hdir _].
  destruct (temp_name_accepted (Machine.gettempdir w) name) as [Hprefix Hname].
  fold dir in Hprefix, Hname.
  destruct (FS.rmtree (PathString.parse_path dir) (Machine.files w1)) as [s2|e] eqn:Hrm;
    [|by unfold FS.rmtree in Hrm; rewrite Hdir in Hrm].
  eexists. split; [|split; [|split]].
  - unfold UpstreamCheck.cleanup, Machine.get_world. unfold mbind, Machine.M_bind.
    unfold FS.exists_. rewrite Hdir, Htmp, Hprefix, bool_decide_eq_true_2 by done.
    simpl. unfold Machine.rmtree_dir. rewrite Hrm. reflexivity.
  - simpl. rewrite (lookup_rmtree _ _ _ _ Hrm). by rewrite decide_True.
  - unfold Machine.repo_at, FS.isdir. simpl.
    rewrite (lookup_rmtree _ _ _ _ Hrm). by rewrite decide_True.
  - intros q Hq. simpl. rewrite (lookup_rmtree _ _ _ _ Hrm), decide_False by done.
    rewrite Hfiles, lookup_union_r by by apply lookup_graft_outside.
    apply lookup_insert_ne. by intros <-.
Qed.


(** X10: when the remote is a repository without a commit,
    [check_upstream] raises the [CalledProcessError] of
    [git rev-parse HEAD]: the clone worked, and the call that reads the
    head is outside the [try]. *)
Theorem check_upstream_empty_repository (w w1 : Machine.world)
    (repo_url repo_subpath last_checked_commit dir : string) (r : Machine.remote_repo) :
  Machine.mkdtemp "skill-sync-" w = (Ok dir, w1) ->
  Machine.remotes w repo_url = Machine.Served r ->
  Machine.history r = [] ->
  exists w2,
    UpstreamCheck.check_upstream repo_url repo_subpath last_checked_commit w
    = (Raise (CalledProcessError "fatal: not a git repository, or no commit"), w2).
Proof.
  intros Htmp Hserved Hhistory.
  pose proof Htmp as (_ & _ & Hfiles & Hrepos & Hremotes & _)%mkdtemp_Ok_inv.
  set (w2 := Machine.set_repos <[PathString.parse_path dir := take 1 (Machine.history r)]>
               (Machine.set_files
                  (fun s => FS.graft (PathString.parse_path dir) (Machine.worktree r) ∪ s) w1)).
  assert (Hclone : UpstreamCheck.clone_to_temp repo_url 1 w = (Ok dir, w2)).
  { unfold UpstreamCheck.clone_to_temp. unfold mbind, Machine.M_bind. rewrite Htmp.
    unfold Machine.git_clone. by rewrite Hremotes, Hserved. }
  assert (Hrepo : Machine.repo_at w2 dir = None \/ Machine.repo_at w2 dir = Some []).
  { unfold Machine.repo_at. destruct (FS.isdir _ _); [right|by left].
    simpl. by rewrite lookup_insert_eq, Hhistory. }
  exists w2.
  unfold UpstreamCheck.check_upstream.
  erewrite bind_Ok; [|by apply try_except_Ok; erewrite bind_Ok; [|exact Hclone]].
  cbv beta iota. apply bind_Raise. unfold UpstreamCheck.get_head_sha. apply bind_Raise.
  unfold Machine.git_rev_parse_head. by destruct Hrepo as [-> | ->].
Qed.

(** X11: whatever [check_upstream] returns, [old_sha] is the revision
    it was given.  The result has an error exactly when [has_updates]
    is [None], and then it has no clone path, no skill path, no new
    revision and no commit log.  Otherwise it has a clone path, the
    skill path, which is the clone path joined with [repo_subpath] (the
    clone path itself for an empty one), and the new revision, and
    [has_updates] says whether the new revision differs from the old
    one; it has a commit log exactly when [has_updates] is [True]. *)
Theorem check_upstream_result (repo_url repo_subpath last_checked_commit : string)
    (w w' : Machine.world) (res : UpstreamCheck.check_result) :
  UpstreamCheck.check_upstream repo_url repo_subpath last_checked_commit w = (Ok res, w') ->
  UpstreamCheck.old_sha res = last_checked_commit
  /\ (UpstreamCheck.has_updates res = None <-> is_Some (UpstreamCheck.error res))
  /\ (UpstreamCheck.has_updates res = None ->
      UpstreamCheck.clone_path res = None
      /\ UpstreamCheck.skill_path_in_clone res = None
      /\ UpstreamCheck.new_sha res = None
      /\ UpstreamCheck.commit_log res = None)
  /\ (is_Some (UpstreamCheck.has_updates res) ->
      exists dir new,
        UpstreamCheck.clone_path res = Some dir
        /\ UpstreamCheck.skill_path_in_clone res
           = Some (UpstreamCheck.skill_path dir repo_subpath)
        /\ UpstreamCheck.new_sha res = Some new
        /\ UpstreamCheck.has_updates res = Some (bool_decide (new ≠ last_checked_commit)))
  /\ (UpstreamCheck.has_updates res = Some true <-> is_Some (UpstreamCheck.commit_log res))
  /\ (UpstreamCheck.has_updates res = Some true <->
      exists new, UpstreamCheck.new_sha res = Some new /\ new ≠ last_checked_commit).
Proof.
  intros Hshape%check_upstream_shape.
  destruct Hshape as [msg|dir|new dir log Hnew]; simpl.
  - repeat split; try done; try (by intros [? ?]); eauto.
    by intros (new & ? & _).
  - repeat split; try done; try (by intros [? ?]); eauto.
    + intros _. exists dir, last_checked_commit. repeat split.
      by rewrite bool_decide_eq_false_2 by (by intros ?).
    + by intros (new & [= <-] & Hne).
  - repeat split; try done; try (by intros [? ?]); eauto.
    intros _. exists dir, new. repeat split. by rewrite bool_decide_eq_true_2.
Qed.

Section CheckAll.
Import FS PathString Machine UpstreamCheck.

Lemma entry_key_Ok_inv (entry : gmap string string) (key v : string) (w w' : world) :
  entry_key entry key w = (Ok v, w') -> entry !! key = Some v /\ w' = w.
Proof.
  unfold entry_key. destruct (entry !! key) as [v'|]; [|done]. by intros [= -> ->].
Qed.

Lemma check_all_loop_aligned (registry_entries : list (gmap string string))
    (results rs : list batch_result) (w w' : world) :
  check_all_loop registry_entries results w = (Ok rs, w') ->
  exists rs', rs = results ++ rs' /\ Forall2 result_of_entry registry_entries rs'.
Proof.
  revert results w. induction registry_entries as [|entry rest IH]; intros results w; simpl.
  - intros [= <- _]. exists []. by rewrite app_nil_r.
  - intros (repo & w1 & _ & Hrest)%bind_Ok_inv.
    apply bind_Ok_inv in Hrest as (last & w2 & [Hlast _]%entry_key_Ok_inv & Hrest).
    apply bind_Ok_inv in Hrest as (res & w3 & Hshape%check_upstream_shape & Hrest).
    apply bind_Ok_inv in Hrest as (name & w4 & [Hname _]%entry_key_Ok_inv & Hrest).
    apply bind_Ok_inv in Hrest as (lp & w5 & [Hlp _]%entry_key_Ok_inv & Hrest).
    apply IH in Hrest as (rs' & -> & Hall).
    exists (BatchResult res name lp :: rs'). split; [by rewrite <-app_assoc|].
    constructor; [|done]. repeat split; simpl; [done..|].
    rewrite Hlast. f_equal. by destruct Hshape.
Qed.

End CheckAll.

(** X12: when [check_all] returns, it returns one result for each entry,
    in the order of the entries, and each result carries the name and
    the local path of its entry and, as [old_sha], the revision that the
    entry records. *)
Theorem check_all_aligned (registry_entries : list (gmap string string))
    (rs : list UpstreamCheck.batch_result) (w w' : Machine.world) :
  UpstreamCheck.check_all registry_entries w = (Ok rs, w') ->
  Forall2 result_of_entry registry_entries rs
  /\ length rs = length registry_entries.
Proof.
  intros (rs' & -> & Hall)%check_all_loop_aligned. simpl.
  split; [done|]. symmetry. by eapply Forall2_length.
Qed.

Lemma clone_then_cleanup_witness :
  exists w2,
    UpstreamCheck.cleanup "/tmp/skill-sync-k3x9" cloned_world = (Ok tt, w2)
    /\ Machine.files w2 !! PathString.parse_path "/tmp/skill-sync-k3x9" = None
    /\ Machine.repo_at w2 "/tmp/skill-sync-k3x9" = None
    /\ (forall q, ¬ PathString.parse_path "/tmp/skill-sync-k3x9" `prefix_of` q ->
          Machine.files w2 !! q = Machine.files sample_world !! q).
Proof.
  apply (clone_then_cleanup "origin" "/tmp/skill-sync-k3x9" 1 sample_world cloned_world).
  - vm_compute. reflexivity.
  - intros r data Hr. vm_compute in Hr. injection Hr as <-. done.
Defined.


Lemma check_upstream_empty_repository_witness :
  exists w2,
    UpstreamCheck.check_upstream "origin" "" "abc" bare_world
    = (Raise (CalledProcessError "fatal: not a git repository, or no commit"), w2).
Proof.
  apply (check_upstream_empty_repository bare_world
           (Machine.set_candidates []
              (Machine.set_files <[ ["tmp"; "skill-sync-k3x9"] := FS.Dir ]> bare_world))
           "origin" "" "abc" "/tmp/skill-sync-k3x9" (Machine.Remote [] ∅)).
  - reflexivity.
  - reflexivity.
  - reflexivity.
Defined.

Lemma check_upstream_result_witness :
  (UpstreamCheck.check_upstream "origin" "skills/demo" "1111111aaaa" sample_world).1
  = Ok updated_result
  /\ UpstreamCheck.old_sha updated_result = "1111111aaaa"
  /\ (UpstreamCheck.has_updates updated_result = None
      <-> is_Some (UpstreamCheck.error updated_result))
  /\ (UpstreamCheck.has_updates updated_result = None ->
      UpstreamCheck.clone_path updated_result = None
      /\ UpstreamCheck.skill_path_in_clone updated_result = None
      /\ UpstreamCheck.new_sha updated_result = None
      /\ UpstreamCheck.commit_log updated_result = None)
  /\ (is_Some (UpstreamCheck.has_updates updated_result) ->
      exists dir new,
        UpstreamCheck.clone_path updated_result = Some dir
        /\ UpstreamCheck.skill_path_in_clone updated_result
           = Some (UpstreamCheck.skill_path dir "skills/demo")
        /\ UpstreamCheck.new_sha updated_result = Some new
        /\ UpstreamCheck.has_updates updated_result
           = Some (bool_decide (new ≠ "1111111aaaa")))
  /\ (UpstreamCheck.has_updates updated_result = Some true
      <-> is_Some (UpstreamCheck.commit_log updated_result))
  /\ (UpstreamCheck.has_updates updated_result = Some true <->
      exists new, UpstreamCheck.new_sha updated_result = Some new /\ new ≠ "1111111aaaa").
Proof.
  assert (Hfst : (UpstreamCheck.check_upstream "origin" "skills/demo" "1111111aaaa"
                    sample_world).1 = Ok updated_result) by (vm_compute; reflexivity).
  destruct (UpstreamCheck.check_upstream "origin" "skills/demo" "1111111aaaa" sample_world)
    as [r w'] eqn:Hrun.
  simpl in Hfst. subst r. split; [reflexivity|].
  exact (check_upstream_result "origin" "skills/demo" "1111111aaaa" sample_world w'
           updated_result Hrun).
Defined.

Lemma check_all_aligned_witness :
  Forall2 result_of_entry [sample_entry]
    [UpstreamCheck.BatchResult
       (UpstreamCheck.CheckResult None "abc" None None None None
          (Some "Failed to clone: fatal: repository not found")) "dup" "/tmp/dup"]
  /\ length
       [UpstreamCheck.BatchResult
          (UpstreamCheck.CheckResult None "abc" None None None None
             (Some "Failed to clone: fatal: repository not found")) "dup" "/tmp/dup"]
     = length [sample_entry].
Proof.
  apply (check_all_aligned [sample_entry] _ sample_world tmpdir_world).
  reflexivity.
Defined.

Lemma get_commit_log_range_witness :
  UpstreamCheck.get_commit_log "/tmp/clone" "1111111aaaa" sample_world
  = (Ok (PathString.strip
           (Machine.render [Machine.Commit "2222222bbbb" "feat: update to v2"])),
     sample_world).
Proof.
  apply (get_commit_log_range sample_world "/tmp/clone" "1111111aaaa"
           (Machine.Commit "2222222bbbb" "feat: update to v2")
           [Machine.Commit "1111111aaaa" "init: first commit"]
           [Machine.Commit "2222222bbbb" "feat: update to v2"]).
  - reflexivity.
  - reflexivity.
  - discriminate.
Defined.


Lemma cleanup_other_name_witness :
  UpstreamCheck.cleanup "/home/user/skills" sample_world = (Ok tt, sample_world).
Proof.
  apply (cleanup_other_name sample_world "/home/user/skills"). reflexivity.
Defined.

(** ** Snapshots and rollbacks, one at a time *)

Section Snapshots.
Import FS PatchApplier.
Implicit Types (s : fs) (p q r : path).

Lemma existsb_none {A} (f : A -> bool) (l : list A) :
  (forall x, x ∈ l -> f x = false) -> existsb f l = false.
Proof.
  intros Hall. destruct (existsb f l) eqn:Hex; [|done].
  apply existsb_exists in Hex as (x & Hx%list_elem_of_In & Hfx). by rewrite Hall in Hfx.
Qed.

Lemma backup_local_Ok_inv timestamp (local_dir backup_base backup_path : path) s s1 :
  backup_local timestamp local_dir backup_base s = Ok (backup_path, s1) ->
  backup_path = backup_base ++ [basename local_dir +:+ "-" +:+ timestamp]
  /\ s !! local_dir = Some Dir /\ s !! backup_path = None
  /\ (forall q, q ∈ ancestors backup_path -> isfile s q = false)
  /\ s1 = copied local_dir backup_path s.
Proof.
  unfold backup_local.
  destruct (copytree local_dir _ s) as [s'|] eqn:Hcopy; [|done]. simpl.
  intros [= <- <-]. by apply copytree_Ok_inv in Hcopy as (? & ? & ? & ?).
Qed.

(** The copy of a tree keeps what was there. *)
Lemma lookup_copied_old src dst s p n :
  wf s -> s !! dst = None -> s !! p = Some n -> copied src dst s !! p = Some n.
Proof.
  intros Hwf Hdst Hp. rewrite lookup_copied_outside.
  - by apply lookup_union_Some_l.
  - intros [r ->]. by rewrite (wf_free_below s dst r) in Hp.
Qed.

(** [restore_backup] as a replacement: what it needs and what it
    gives. *)
Lemma restore_backup_replaces (backup_path local_dir : path) s :
  s !! backup_path = Some Dir ->
  ¬ backup_path `prefix_of` local_dir ->
  ¬ local_dir `prefix_of` backup_path ->
  (forall q, q ∈ ancestors local_dir -> isfile s q = false) ->
  (s !! local_dir = Some Dir \/ forall r, s !! (local_dir ++ r) = None) ->
  exists s3,
    restore_backup backup_path local_dir s = Ok s3
    /\ (forall r, s3 !! (local_dir ++ r) = s !! (backup_path ++ r))
    /\ (forall p, ¬ local_dir `prefix_of` p -> s3 !! p = (s ∪ made_dirs local_dir) !! p).
Proof.
  intros Hsrc Hbl Hlb Hanc Hdir.
  assert (Hclear : exists s',
    (if exists_ s local_dir then rmtree local_dir s else Ok s) = Ok s'
    /\ forall q, s' !! q = if decide (local_dir `prefix_of` q) then None else s !! q).
  { unfold exists_. destruct Hdir as [Hdir|Hnone].
    - rewrite Hdir. destruct (rmtree local_dir s) as [s'|e] eqn:Hrm.
      + exists s'. split; [done|]. intros q. by apply lookup_rmtree.
      + unfold rmtree in Hrm. by rewrite Hdir in Hrm.
    - pose proof (Hnone []) as Hroot. rewrite app_nil_r in Hroot. rewrite Hroot.
      exists s. split; [done|]. intros q. case_decide as Hpre; [|done].
      by destruct Hpre as [r ->]. }
  destruct Hclear as (s' & Hclear & Hs').
  assert (Hsrc' : s' !! backup_path = Some Dir) by by rewrite Hs', decide_False.
  assert (Hfree : forall r, s' !! (local_dir ++ r) = None).
  { intros r. rewrite Hs', decide_True; [done|by apply prefix_app_r]. }
  exists (copied backup_path local_dir s'). split; [|split].
  - unfold restore_backup. rewrite Hclear. simpl.
    apply copytree_apart; [done| | |done].
    + specialize (Hfree []). by rewrite app_nil_r in Hfree.
    + intros q Hq. pose proof Hq as [Hpre Hlen]%elem_of_ancestors.
      unfold isfile. rewrite Hs', decide_False.
      * apply (Hanc q Hq).
      * intros Hpre'%prefix_length. lia.
  - intros r. rewrite lookup_copied_below by done.
    by rewrite Hs', decide_False by by apply apart_below.
  - intros p Hp. rewrite lookup_copied_outside by done.
    by rewrite !lookup_union, Hs', decide_False.
Qed.

End Snapshots.

(** X16: in a well-formed file system, a call of [backup_local] that
    returns gives the path [backup_base/<name of the skill>-<timestamp>],
    which holds a complete copy of the skill directory, and every entry
    that was in the file system is still there, unchanged: the source is
    not touched. *)
Theorem backup_local_snapshot (timestamp : string)
    (local_dir backup_base backup_path : FS.path) (s s1 : FS.fs) :
  FS.wf s ->
  PatchApplier.backup_local timestamp local_dir backup_base s = Ok (backup_path, s1) ->
  backup_path = backup_base ++ [FS.basename local_dir +:+ "-" +:+ timestamp]
  /\ (forall r, s1 !! (backup_path ++ r) = s !! (local_dir ++ r))
  /\ (forall p n, s !! p = Some n -> s1 !! p = Some n).
Proof.
  intros Hwf (Hpath & Hdir & Hfresh & _ & ->)%backup_local_Ok_inv.
  split; [done|]. split.
  - intros r. apply lookup_copied_below; [done|]. intros r'. by apply wf_free_below.
  - intros p n Hp. by apply lookup_copied_old.
Qed.

(** X17: a second [backup_local] of the same directory with the same
    timestamp (within the same second) raises [FileExistsError]. *)
Theorem backup_local_same_second (timestamp : string)
    (local_dir backup_base backup_path : FS.path) (s s1 : FS.fs) :
  FS.wf s ->
  PatchApplier.backup_local timestamp local_dir backup_base s = Ok (backup_path, s1) ->
  PatchApplier.backup_local timestamp local_dir backup_base s1 = Raise FileExistsError.
Proof.
  intros Hwf (-> & Hdir & Hfresh & Hanc & ->)%backup_local_Ok_inv.
  set (backup_path := backup_base ++ [FS.basename local_dir +:+ "-" +:+ timestamp]) in *.
  unfold PatchApplier.backup_local. fold backup_path. unfold FS.copytree.
  rewrite (lookup_copied_old _ _ _ _ _ Hwf Hfresh Hdir).
  unfold FS.makedirs. rewrite existsb_none.
  - pose proof (lookup_copied_below local_dir backup_path s []) as Hroot.
    rewrite !app_nil_r in Hroot. rewrite Hroot, Hdir; [done..|].
    intros r'. by apply wf_free_below.
  - intros q Hq. pose proof Hq as [Hpre Hlen]%elem_of_ancestors.
    unfold FS.isfile. rewrite lookup_copied_outside by (intros ?%prefix_length; lia).
    rewrite lookup_union. specialize (Hanc q Hq). unfold FS.isfile in Hanc.
    destruct (s !! q) as [[|]|]; [done|by destruct (made_dirs backup_path !! q)|].
    by rewrite lookup_made_dirs, decide_True.
Qed.

(** X19: when the upstream path is not a directory (it is missing, or a
    file), [copy_upstream_files] does not raise: it returns the empty
    list and the file system is what it was. *)
Theorem copy_upstream_files_nothing (upstream_dir local_dir : FS.path) (s : FS.fs) :
  s !! upstream_dir ≠ Some FS.Dir ->
  PatchApplier.copy_upstream_files upstream_dir local_dir s = Ok ([], s).
Proof.
  intros Hdir. unfold PatchApplier.copy_upstream_files, FS.walk_files, FS.isdir.
  by destruct (s !! upstream_dir) as [[|]|].
Qed.

(** X20: [restore_backup] replaces the local directory by the backup:
    when the backup is a directory apart from the local directory, the
    local path is a directory or free, and none of its ancestors is a
    file, the call returns, every path below the local directory holds
    what the backup holds at the same relative path (and nothing where
    the backup has nothing), and outside the local directory nothing
    changes but for missing ancestors, which are made. *)
Theorem restore_backup_is_replacement (backup_path local_dir : FS.path) (s : FS.fs) :
  s !! backup_path = Some FS.Dir ->
  ¬ backup_path `prefix_of` local_dir ->
  ¬ local_dir `prefix_of` backup_path ->
  (forall q, q ∈ FS.ancestors local_dir -> FS.isfile s q = false) ->
  (s !! local_dir = Some FS.Dir \/ forall r, s !! (local_dir ++ r) = None) ->
  exists s3,
    PatchApplier.restore_backup backup_path local_dir s = Ok s3
    /\ (forall r, s3 !! (local_dir ++ r) = s !! (backup_path ++ r))
    /\ (forall p n, ¬ local_dir `prefix_of` p -> s !! p = Some n -> s3 !! p = Some n)
    /\ (forall p, ¬ local_dir `prefix_of` p -> s !! p = None ->
          s3 !! p = if decide (p `prefix_of` local_dir) then Some FS.Dir else None).
Proof.
  intros Hsrc Hbl Hlb Hanc Hdir.
  destruct (restore_backup_replaces backup_path local_dir s Hsrc Hbl Hlb Hanc Hdir)
    as (s3 & Hret & Hbelow & Hout).
  exists s3. split; [done|]. split; [done|]. split.
  - intros p n Hp Hs. rewrite Hout by done. by apply lookup_union_Some_l.
  - intros p Hp Hs. rewrite Hout by done. rewrite lookup_union_r by done.
    apply lookup_made_dirs.
Qed.

(** X21: a rollback done twice is a rollback done once: after a
    [restore_backup] under the conditions of X20, a second one returns
    the same file system. *)
Theorem restore_backup_twice (backup_path local_dir : FS.path) (s s3 : FS.fs) :
  s !! backup_path = Some FS.Dir ->
  ¬ backup_path `prefix_of` local_dir ->
  ¬ local_dir `prefix_of` backup_path ->
  (forall q, q ∈ FS.ancestors local_dir -> FS.isfile s q = false) ->
  (s !! local_dir = Some FS.Dir \/ forall r, s !! (local_dir ++ r) = None) ->
  PatchApplier.restore_backup backup_path local_dir s = Ok s3 ->
  PatchApplier.restore_backup backup_path local_dir s3 = Ok s3.
Proof.
  intros Hsrc Hbl Hlb Hanc Hdir Hret.
  destruct (restore_backup_replaces backup_path local_dir s Hsrc Hbl Hlb Hanc Hdir)
    as (s3' & Hret' & Hbelow & Hout).
  rewrite Hret in Hret'. injection Hret' as <-.
  assert (Hsnap : forall r, s3 !! (backup_path ++ r) = s !! (backup_path ++ r)).
  { intros r. rewrite Hout by by apply apart_below.
    destruct (s !! (backup_path ++ r)) as [n|] eqn:Hr; [by apply lookup_union_Some_l|].
    rewrite lookup_union_r, lookup_made_dirs by done.
    rewrite decide_False; [done|]. intros Hpre. apply Hbl.
    etrans; [|exact Hpre]. by apply prefix_app_r. }
  destruct (restore_backup_replaces backup_path local_dir s3) as (s4 & Hret4 & Hbelow4 & Hout4).
  - specialize (Hsnap []). rewrite !app_nil_r in Hsnap. by rewrite Hsnap.
  - done.
  - done.
  - intros q Hq. pose proof Hq as [Hpre Hlen]%elem_of_ancestors.
    unfold FS.isfile. rewrite Hout by (intros ?%prefix_length; lia).
    rewrite lookup_union. specialize (Hanc q Hq). unfold FS.isfile in Hanc.
    destruct (s !! q) as [[|]|]; [done|by destruct (made_dirs local_dir !! q)|].
    by rewrite lookup_made_dirs, decide_True.
  - left. specialize (Hbelow []). rewrite !app_nil_r in Hbelow. by rewrite Hbelow.
  - rewrite Hret4. f_equal. apply map_eq. intros p.
    destruct (decide (local_dir `prefix_of` p)) as [[r ->]|Hp].
    + by rewrite Hbelow4, Hsnap, Hbelow.
    + rewrite Hout4 by done. rewrite lookup_union.
      destruct (s3 !! p) as [n|] eqn:Hs3; [by destruct (made_dirs local_dir !! p)|].
      rewrite Hout in Hs3 by done. apply lookup_union_None in Hs3 as [_ ->]. done.
Qed.

(** ** Comparisons at the edges *)

Section DiffEdges.
Import FS Difflib UnifiedDiff DiffGenerator.

Lemma sorted_empty (files : gset path) : (forall f, f ∉ files) -> sorted files = [].
Proof.
  intros Hempty. destruct (sorted files) as [|f l] eqn:Hs; [done|].
  destruct (Hempty f). apply elem_of_sorted. rewrite Hs. by left.
Qed.

Lemma sorted_empty_inter_l (files : gset path) : sorted (∅ ∩ files) = [].
Proof.
  apply sorted_empty. intros f [Hf _]%elem_of_intersection. by apply elem_of_empty in Hf.
Qed.

Lemma sorted_empty_inter_r (files : gset path) : sorted (files ∩ ∅) = [].
Proof.
  apply sorted_empty. intros f [_ Hf]%elem_of_intersection. by apply elem_of_empty in Hf.
Qed.

Lemma sorted_empty_difference (files : gset path) : sorted (∅ ∖ files) = [].
Proof.
  apply sorted_empty. intros f [Hf _]%elem_of_difference. by apply elem_of_empty in Hf.
Qed.

Lemma walk_files_not_dir (root : path) (s : fs) :
  s !! root ≠ Some Dir -> walk_files root s = [].
Proof. intros Hdir. unfold walk_files, isdir. by destruct (s !! root) as [[|]|]. Qed.

Lemma for_each_deleted (l : list path) (results : list entry) :
  for_each diff_deleted l results = Ok (results ++ (deleted_entry <$> l)).
Proof.
  revert results. induction l as [|f l IH]; intros results; simpl.
  - by rewrite app_nil_r.
  - by rewrite IH, <-app_assoc.
Qed.

Lemma same_files_check (local_dir upstream_dir : path) (s : fs) :
  files_below local_dir s = files_below upstream_dir s ->
  forall r data,
    s !! (local_dir ++ r) = Some (File data) <-> s !! (upstream_dir ++ r) = Some (File data).
Proof.
  intros Heq r data.
  assert (Hfiles : forall root,
            s !! (root ++ r) = Some (File data) <-> files_below root s !! r = Some data).
  { intros root. unfold files_below. rewrite lookup_omap, lookup_subtree.
    destruct (s !! (root ++ r)) as [[d|]|]; simpl; split; congruence. }
  by rewrite !Hfiles, Heq.
Qed.

(** From an empty sequence there is nothing to do but insert. *)
Lemma chained_empty_inserts b j ops m :
  chained 0 j ops 0 m ->
  Forall (op_ok [] b) ops ->
  Forall (fun o => op_tag o = Insert) ops.
Proof.
  revert j. induction ops as [|o ops IH]; simpl; intros j Hch Hok; [done|].
  destruct Hch as (Hi & Hj & Hle1 & Hle2 & Hrest).
  apply Forall_cons in Hok as [Ho Hok].
  pose proof (chained_le _ _ _ _ _ Hrest) as [Hn _].
  assert (Hi2 : i2 o = 0) by lia. rewrite Hi2 in Hrest.
  constructor; [|by eapply IH].
  unfold op_ok in Ho. destruct (op_tag o); [lia|lia|lia|done].
Qed.

Lemma insert_lines a b i j ops n m :
  chained i j ops n m ->
  Forall (fun o => op_tag o = Insert) ops ->
  concat (op_lines a b <$> ops) = String.append "+" <$> slice b j m.
Proof.
  revert i j. induction ops as [|o ops IH]; intros i j Hch Hins; simpl in Hch.
  - destruct Hch as [_ ->]. unfold slice. by rewrite Nat.sub_diag.
  - destruct Hch as (Hi & Hj & Hle1 & Hle2 & Hrest).
    apply Forall_cons in Hins as [Ho Hins].
    pose proof (chained_le _ _ _ _ _ Hrest) as [_ Hm].
    rewrite fmap_cons. simpl concat.
    rewrite (IH _ _ Hrest Hins). unfold op_lines. rewrite Ho, Hj.
    rewrite <-fmap_app. f_equal. apply slice_app; lia.
Qed.

Lemma between_high (b : byte) :
  Text.between 128 255 b = true -> Text.between 0 127 b = false.
Proof.
  unfold Text.between. intros [Hlo _]%andb_true_iff. apply N.leb_le in Hlo.
  apply andb_false_iff. right. apply N.leb_gt. lia.
Qed.

Lemma between_low (b : byte) :
  Text.between 1 127 b = true -> Text.between 0 127 b = true /\ b ≠ x00.
Proof.
  unfold Text.between. intros [Hlo Hhi]%andb_true_iff. split.
  - apply andb_true_iff. split; [apply N.leb_le; lia|done].
  - intros ->. done.
Qed.

(** ASCII in front does not change what follows. *)
Lemma utf8_valid_ascii_app (pre l : list byte) :
  Forall (fun b => Text.between 0 127 b = true) pre ->
  Text.utf8_valid (pre ++ l) = Text.utf8_valid l.
Proof.
  induction 1 as [|b pre Hb Hpre IH]; [done|].
  change ((b :: pre) ++ l) with (b :: (pre ++ l)).
  cbn [Text.utf8_valid]. by rewrite Hb.
Qed.

Context `{SequenceMatcher}.

(** From an empty sequence: one hunk that adds every line. *)
Lemma unified_diff_additions (b : list string) (fromfile tofile : string) :
  b ≠ [] ->
  unified_diff [] b fromfile tofile
  = ("--- " +:+ fromfile) :: ("+++ " +:+ tofile)
    :: ("@@ -0,0 +" +:+ format_range_unified 0 (length b) +:+ " @@")
    :: (String.append "+" <$> b).
Proof.
  intros Hb. unfold unified_diff.
  pose proof (opcodes_chained [] b) as Hch. simpl in Hch.
  pose proof (chained_empty_inserts b 0 _ _ Hch (opcodes_ok [] b)) as Hins.
  destruct (get_opcodes [] b) as [|o ops] eqn:Hops.
  { destruct Hch as [_ Hlen]. by destruct b. }
  rewrite grouped_changes; [|by eapply Forall_impl; [exact Hins|];
    intros o' Ho'; unfold is_equal; rewrite Ho'|done].
  change (concat (hunk [] b <$> [o :: ops])) with (hunk [] b (o :: ops) ++ []).
  rewrite app_nil_r. unfold hunk.
  destruct (chained_last _ _ _ _ _ _ Hch) as (o' & -> & Hi2 & Hj2).
  pose proof Hch as (Hi1 & Hj1 & _).
  rewrite Hi1, Hj1, Hi2, Hj2, (insert_lines [] b 0 0 (o :: ops) 0 (length b) Hch Hins).
  by rewrite slice_all.
Qed.

End DiffEdges.

(** X22: two directories that hold the same files with the same bytes
    give the empty list: no entry for an identical file, and directories
    without files (which one side may have and the other not) are not
    seen. *)
Theorem diff_directories_same_files `{TextCodec} `{SequenceMatcher} (s : FS.fs)
    (local_dir upstream_dir : FS.path) :
  s !! local_dir = Some FS.Dir ->
  s !! upstream_dir = Some FS.Dir ->
  (forall r data,
     s !! (local_dir ++ r) = Some (FS.File data)
     <-> s !! (upstream_dir ++ r) = Some (FS.File data)) ->
  DiffGenerator.diff_directories s local_dir upstream_dir = Ok [].
Proof.
  intros Hl Hu Hsame.
  destruct (diff_directories_groups s local_dir upstream_dir _ _ eq_refl eq_refl)
    as (changed & r1 & r2 & r3 & -> & Hsub & Hdiff & Hf1 & Hf2 & Hf3 & _).
  assert (Hwalk : forall f,
            f ∈ FS.walk_files local_dir s <-> f ∈ FS.walk_files upstream_dir s).
  { intros f. rewrite !elem_of_walk_files.
    split; intros [_ [data Hd]]; (split; [done|]); exists data; by apply Hsame. }
  assert (Hchanged : changed = []).
  { destruct changed as [|f c]; [done|]. exfalso.
    assert (Hf : f ∈ DiffGenerator.sorted
                   (list_to_set (FS.walk_files local_dir s)
                    ∩ list_to_set (FS.walk_files upstream_dir s) : gset FS.path)).
    { eapply sublist_subseteq; [exact Hsub|by left]. }
    apply elem_of_sorted, elem_of_intersection in Hf as [Hfl _].
    apply elem_of_list_to_set, elem_of_walk_files in Hfl as [_ [data Hd]].
    apply (Hdiff f); [by left|]. rewrite Hd. symmetry. by apply Hsame. }
  rewrite Hchanged in Hf1. apply fmap_nil_inv in Hf1 as ->.
  rewrite sorted_empty in Hf2.
  2:{ intros f [Hfu Hfl]%elem_of_difference. apply Hfl.
      apply elem_of_list_to_set, Hwalk. by apply elem_of_list_to_set in Hfu. }
  rewrite sorted_empty in Hf3.
  2:{ intros f [Hfl Hfu]%elem_of_difference. apply Hfu.
      apply elem_of_list_to_set, Hwalk. by apply elem_of_list_to_set in Hfl. }
  apply fmap_nil_inv in Hf2 as ->. by apply fmap_nil_inv in Hf3 as ->.
Qed.

(** X23: against a local path that does not exist, [generate_diff]
    gives the two header lines, the range line [@@ -0,0 +1,n @@] and
    every line of the upstream file with a plus sign. *)
Theorem generate_diff_all_added `{TextCodec} `{SequenceMatcher} (s : FS.fs)
    (local_file upstream_file : FS.path) (lb : list string) :
  s !! local_file = None ->
  DiffGenerator.lines_of s upstream_file = Ok lb ->
  lb ≠ [] ->
  DiffGenerator.generate_diff s local_file upstream_file
  = Ok (Text.join (String Text.LF EmptyString)
          (("--- local/" +:+ FS.basename local_file)
           :: ("+++ upstream/" +:+ FS.basename upstream_file)
           :: ("@@ -0,0 +" +:+ UnifiedDiff.format_range_unified 0 (length lb) +:+ " @@")
           :: (String.append "+" <$> lb))).
Proof.
  intros Hmissing Hb Hlb.
  rewrite (generate_diff_lines s _ _ [] lb (lines_of_missing s _ Hmissing) Hb).
  by rewrite unified_diff_additions.
Qed.

(** X24: a file whose first 8192 bytes are ASCII without a null byte is
    text, whatever comes after them. *)
Theorem is_binary_file_ascii_start (s : FS.fs) (p : FS.path) (data : list byte) :
  s !! p = Some (FS.File data) ->
  Forall (fun b => Text.between 1 127 b = true) (take DiffGenerator.check_bytes data) ->
  DiffGenerator.is_binary_file s p = false.
Proof.
  intros Hp Hascii. unfold DiffGenerator.is_binary_file, FS.read_bytes. rewrite Hp.
  cbv zeta. rewrite bool_decide_eq_false_2.
  - rewrite <-(app_nil_r (take _ data)), utf8_valid_ascii_app; [done|].
    eapply Forall_impl; [exact Hascii|]. by intros b [? _]%between_low.
  - intros Hnull. eapply Forall_forall in Hascii; [|exact Hnull].
    by apply between_low in Hascii as [_ ?].
Qed.

(** X25: the check reads 8192 bytes and decodes them on their own: a
    file whose byte 8192 is not ASCII, after 8191 bytes of ASCII, is
    binary, also when that byte starts a character that the next bytes
    of the file complete. *)
Theorem is_binary_file_cut_character (s : FS.fs) (p : FS.path)
    (pre rest : list byte) (b : byte) :
  s !! p = Some (FS.File (pre ++ b :: rest)) ->
  S (length pre) = DiffGenerator.check_bytes ->
  Forall (fun b => Text.between 0 127 b = true) pre ->
  Text.between 128 255 b = true ->
  DiffGenerator.is_binary_file s p = true.
Proof.
  intros Hp Hlen Hascii Hb. unfold DiffGenerator.is_binary_file, FS.read_bytes. rewrite Hp.
  cbv zeta.
  assert (Hchunk : take DiffGenerator.check_bytes (pre ++ b :: rest) = pre ++ [b]).
  { rewrite <-Hlen. change (pre ++ b :: rest) with (pre ++ [b] ++ rest).
    rewrite app_assoc. apply take_app_length'. rewrite length_app. simpl. lia. }
  rewrite Hchunk, utf8_valid_ascii_app by done.
  cbn [Text.utf8_valid]. rewrite (between_high b Hb). by case_bool_decide.
Qed.

(** X26: when the local path is not a directory, [diff_directories]
    returns one entry for each upstream file, in the order of the
    relative paths, each of them new. *)
Theorem diff_directories_no_local `{TextCodec} `{SequenceMatcher} (s : FS.fs)
    (local_dir upstream_dir : FS.path) :
  s !! local_dir ≠ Some FS.Dir ->
  exists r,
    DiffGenerator.diff_directories s local_dir upstream_dir = Ok r
    /\ DiffGenerator.file <$> r
       = DiffGenerator.relstr
           <$> DiffGenerator.sorted (list_to_set (FS.walk_files upstream_dir s))
    /\ Forall (fun e => DiffGenerator.entry_status e = DiffGenerator.New
                        \/ DiffGenerator.entry_status e = DiffGenerator.BinaryNew) r.
Proof.
  intros Hl.
  assert (Hnone : (∅ : gset FS.path) = list_to_set (FS.walk_files local_dir s))
    by by rewrite walk_files_not_dir.
  destruct (diff_directories_groups s local_dir upstream_dir _ _ Hnone eq_refl)
    as (changed & r1 & r2 & r3 & -> & Hsub & _ & Hf1 & Hf2 & Hf3 & _ & Hs2 & _).
  rewrite sorted_empty_inter_l in Hsub. apply sublist_nil_r in Hsub as ->.
  apply fmap_nil_inv in Hf1 as ->.
  rewrite sorted_empty_difference in Hf3. apply fmap_nil_inv in Hf3 as ->.
  rewrite difference_empty_L in Hf2.
  exists r2. by rewrite app_nil_r.
Qed.

(** X27: when the upstream path is not a directory, [diff_directories]
    returns one entry for each local file, in the order of the relative
    paths: the file is reported as deleted. *)
Theorem diff_directories_no_upstream `{TextCodec} `{SequenceMatcher} (s : FS.fs)
    (local_dir upstream_dir : FS.path) :
  s !! upstream_dir ≠ Some FS.Dir ->
  DiffGenerator.diff_directories s local_dir upstream_dir
  = Ok (deleted_entry <$> DiffGenerator.sorted (list_to_set (FS.walk_files local_dir s))).
Proof.
  intros Hu. unfold DiffGenerator.diff_directories. cbv zeta.
  rewrite (walk_files_not_dir upstream_dir) by done.
  change (list_to_set [] : gset FS.path) with (∅ : gset FS.path).
  rewrite sorted_empty_inter_r, sorted_empty_difference, difference_empty_L. simpl. apply for_each_deleted.
Qed.

(** ** The further properties on the sample data *)

Lemma ancestors_check (s : FS.fs) (p : FS.path) :
  forallb (fun q => negb (FS.isfile s q)) (FS.ancestors p) = true ->
  forall q, q ∈ FS.ancestors p -> FS.isfile s q = false.
Proof.
  intros Hall q Hq. rewrite forallb_forall in Hall.
  apply negb_true_iff, Hall. by apply list_elem_of_In.
Qed.

Lemma backup_local_snapshot_witness :
  ["backups"; "demo-20260101-120000"]
  = ["backups"] ++ [FS.basename ["skills"; "demo"] +:+ "-" +:+ "20260101-120000"]
  /\ (forall r, demo_snapshot !! (["backups"; "demo-20260101-120000"] ++ r)
                = demo_fs !! (["skills"; "demo"] ++ r))
  /\ (forall p n, demo_fs !! p = Some n -> demo_snapshot !! p = Some n).
Proof.
  apply (backup_local_snapshot "20260101-120000" ["skills"; "demo"] ["backups"]
           ["backups"; "demo-20260101-120000"] demo_fs demo_snapshot).
  - apply check_wf_sound. vm_compute. reflexivity.
  - apply (bool_decide_unpack _). vm_compute. exact I.
Defined.

Lemma backup_local_same_second_witness :
  PatchApplier.backup_local "20260101-120000" ["skills"; "demo"] ["backups"] demo_snapshot
  = Raise FileExistsError.
Proof.
  apply (backup_local_same_second "20260101-120000" ["skills"; "demo"] ["backups"]
           ["backups"; "demo-20260101-120000"] demo_fs demo_snapshot).
  - apply check_wf_sound. vm_compute. reflexivity.
  - apply (bool_decide_unpack _). vm_compute. exact I.
Defined.

Lemma copy_upstream_files_nothing_witness :
  PatchApplier.copy_upstream_files ["nowhere"] ["local"] fixture_fs = Ok ([], fixture_fs).
Proof.
  apply (copy_upstream_files_nothing ["nowhere"] ["local"] fixture_fs).
  vm_compute. discriminate.
Defined.

Lemma restore_backup_is_replacement_witness :
  exists s3,
    PatchApplier.restore_backup ["backups"; "demo-20260101-120000"] ["skills"; "demo"]
      demo_broken = Ok s3
    /\ (forall r, s3 !! (["skills"; "demo"] ++ r)
                  = demo_broken !! (["backups"; "demo-20260101-120000"] ++ r))
    /\ (forall p n, ¬ ["skills"; "demo"] `prefix_of` p ->
          demo_broken !! p = Some n -> s3 !! p = Some n)
    /\ (forall p, ¬ ["skills"; "demo"] `prefix_of` p -> demo_broken !! p = None ->
          s3 !! p = if decide (p `prefix_of` ["skills"; "demo"]) then Some FS.Dir else None).
Proof.
  apply (restore_backup_is_replacement ["backups"; "demo-20260101-120000"] ["skills"; "demo"]
           demo_broken).
  - reflexivity.
  - intros [k Hk]. discriminate Hk.
  - intros [k Hk]. discriminate Hk.
  - apply ancestors_check. vm_compute. reflexivity.
  - left. reflexivity.
Defined.

Lemma restore_backup_twice_witness :
  PatchApplier.restore_backup ["backups"; "demo-20260101-120000"] ["skills"; "demo"]
    demo_snapshot = Ok demo_snapshot.
Proof.
  apply (restore_backup_twice ["backups"; "demo-20260101-120000"] ["skills"; "demo"]
           demo_broken demo_snapshot).
  - reflexivity.
  - intros [k Hk]. discriminate Hk.
  - intros [k Hk]. discriminate Hk.
  - apply ancestors_check. vm_compute. reflexivity.
  - left. reflexivity.
  - apply (bool_decide_unpack _). vm_compute. exact I.
Defined.

Lemma diff_directories_same_files_witness :
  @DiffGenerator.diff_directories latin_codec whole_matcher mirror_fs ["local"] ["upstream"]
  = Ok [].
Proof.
  apply (@diff_directories_same_files latin_codec whole_matcher mirror_fs
           ["local"] ["upstream"]).
  - reflexivity.
  - reflexivity.
  - apply same_files_check. apply (bool_decide_unpack _). vm_compute. exact I.
Defined.

Lemma generate_diff_all_added_witness :
  @DiffGenerator.generate_diff latin_codec whole_matcher fixture_fs
    ["local"; "new_script.py"] ["upstream"; "new_script.py"]
  = Ok (Text.join nl
          ["--- local/new_script.py"; "+++ upstream/new_script.py"; "@@ -0,0 +1 @@";
           "+print('new')"]).
Proof.
  apply (@generate_diff_all_added latin_codec whole_matcher fixture_fs
           ["local"; "new_script.py"] ["upstream"; "new_script.py"] ["print('new')"]).
  - reflexivity.
  - reflexivity.
  - discriminate.
Defined.

Lemma is_binary_file_ascii_start_witness :
  DiffGenerator.is_binary_file skill_fs ["local"; "SKILL.md"] = false.
Proof.
  apply (is_binary_file_ascii_start skill_fs ["local"; "SKILL.md"]
           (list_byte_of_string ("# Skill" +:+ nl +:+ "v1" +:+ nl))).
  - reflexivity.
  - vm_compute. repeat constructor.
Defined.

Lemma is_binary_file_cut_character_witness :
  DiffGenerator.is_binary_file boundary_fs ["long.md"] = true.
Proof.
  apply (is_binary_file_cut_character boundary_fs ["long.md"]
           (replicate (N.to_nat 8191) x41) [xa9] xc3).
  - reflexivity.
  - vm_compute. reflexivity.
  - apply Forall_replicate. reflexivity.
  - reflexivity.
Defined.

Lemma diff_directories_no_local_witness :
  exists r,
    @DiffGenerator.diff_directories latin_codec whole_matcher drift_fs
      ["nowhere"] ["upstream"] = Ok r
    /\ DiffGenerator.file <$> r
       = DiffGenerator.relstr
           <$> DiffGenerator.sorted (list_to_set (FS.walk_files ["upstream"] drift_fs))
    /\ Forall (fun e => DiffGenerator.entry_status e = DiffGenerator.New
                        \/ DiffGenerator.entry_status e = DiffGenerator.BinaryNew) r.
Proof.
  apply (@diff_directories_no_local latin_codec whole_matcher drift_fs
           ["nowhere"] ["upstream"]).
  vm_compute. discriminate.
Defined.

Lemma diff_directories_no_upstream_witness :
  @DiffGenerator.diff_directories latin_codec whole_matcher drift_fs ["local"] ["nowhere"]
  = Ok (deleted_entry <$> DiffGenerator.sorted (list_to_set (FS.walk_files ["local"] drift_fs))).
Proof.
  apply (@diff_directories_no_upstream latin_codec whole_matcher drift_fs
           ["local"] ["nowhere"]).
  vm_compute. discriminate.
Defined.

(** ** The list of the registry *)

Section RegistryList.
Import Registry.

Lemma list_contents (st : store) :
  list_ st = (Ok (skills (registry_contents st)), Some (registry_contents st)).
Proof. by destruct st. Qed.

(** With distinct names, the search finds the entry itself. *)
Lemma find_named_unique name (l : list entry) (e : entry) :
  Forall (fun e : entry => is_Some (e !! "name")) l ->
  NoDup (entry_names l) ->
  e ∈ l ->
  e !! "name" = Some name ->
  find_named name l = Ok (Some e).
Proof.
  intros Hnames Hnd Hin He.
  induction l as [|e0 l IH]; [by apply elem_of_nil in Hin|].
  apply Forall_cons in Hnames as [[n0 Hn0] Hnames].
  assert (Hcons : entry_names (e0 :: l) = n0 :: entry_names l).
  { unfold entry_names. simpl. by rewrite Hn0. }
  rewrite Hcons in Hnd. apply NoDup_cons in Hnd as [Hfresh Hnd].
  cbn [find_named]. rewrite Hn0. case_bool_decide as Hn.
  - subst n0. apply elem_of_cons in Hin as [->|Hin]; [done|].
    destruct Hfresh. unfold entry_names. apply list_elem_of_omap. eauto.
  - apply elem_of_cons in Hin as [->|Hin]; [congruence|]. by apply IH.
Qed.

End RegistryList.

(** X28: [list] returns the entries of the registry and leaves the
    file with what it held: for an absent file it returns the empty list
    and writes the empty registry, for a file that is there it returns
    its entries and the file stays as it is; a second [list] returns the
    same.  And when every entry has a name and the names are distinct,
    [get] with the name of an entry of the list returns that entry. *)
Theorem list_then_get (st : Registry.store) :
  exists l st',
    Registry.list_ st = (Ok l, st')
    /\ (st = None -> l = [] /\ st' = Some (Registry.Data 1 []))
    /\ (forall d, st = Some d -> l = Registry.skills d /\ st' = st)
    /\ Registry.list_ st' = (Ok l, st')
    /\ (Forall (fun e : Registry.entry => is_Some (e !! "name")) l ->
        NoDup (entry_names l) ->
        forall e name,
          e ∈ l -> e !! "name" = Some name -> Registry.get name st' = (Ok (Some e), st')).
Proof.
  exists (Registry.skills (registry_contents st)), (Some (registry_contents st)).
  split; [apply list_contents|]. split; [by intros ->|].
  split; [by intros d ->|]. split; [by rewrite list_contents|].
  intros Hnames Hnd e name Hin He. rewrite get_contents. cbn [registry_contents].
  by rewrite (find_named_unique name _ e).
Qed.

Lemma list_then_get_witness :
  Registry.list_ None = (Ok [], Some (Registry.Data 1 []))
  /\ Registry.list_ (Some grown_registry)
     = (Ok (Registry.skills grown_registry), Some grown_registry)
  /\ Registry.get "dup" (Some grown_registry) = (Ok (Some sample_entry), Some grown_registry).
Proof.
  split.
  - destruct (list_then_get None) as (l & st' & Hlist & Habsent & _).
    destruct (Habsent eq_refl) as [-> ->]. exact Hlist.
  - destruct (list_then_get (Some grown_registry))
      as (l & st' & Hlist & _ & Hthere & _ & Hget).
    destruct (Hthere grown_registry eq_refl) as [-> ->]. split; [exact Hlist|].
    apply Hget.
    + apply (bool_decide_unpack _). vm_compute. exact I.
    + apply (bool_decide_unpack _). vm_compute. exact I.
    + left.
    + reflexivity.
Defined.
